(** * Kraken bridge: the JSA value/handle layer and the TextNode binding

    A shallow embedding of [bridge/jsa/include/js_type.h] (namespace
    [alibaba::jsa]) and of [bridge/bindings/jsc/DOM/text_node.cc]
    (namespace [kraken::binding::jsc]).

    Conventions of the embedding.
    - A C++ member function that only reads [*this] is a function of the
      object; one that writes [*this] or an rvalue argument returns the
      updated objects next to its result.
    - The engine behind [JSContext] is a state [Σ]; a call into it is a
      computation [M Σ A] that returns, throws a catchable error, or faults
      on a failed [assert] (a build with assertions enabled).
    - [JSContext] itself is declared in [js_context.h], which is not part of
      the sources at hand: its virtual primitives are parameters. *)

From Stdlib Require Import Floats ZArith Ascii.
From stdpp Require Import gmap strings list relations.

(* ===================================================================== *)
(** ** Outcomes of a call *)
(* ===================================================================== *)

(** What the host can catch: a script-visible error object with a message. *)
Inductive ErrorKind := ScriptError | RangeError | SerializationError.

#[export] Instance ErrorKind_eq_dec : EqDecision ErrorKind.
Proof. solve_decision. Defined.

Record JSError := mkJSError { error_kind : ErrorKind; error_message : string }.

(** [Return a]: normal completion.  [Throw e]: a C++ exception carrying a
    script error.  [Fault]: a failed [assert], the process is gone.
    [Undef]: the C++ standard gives the read no meaning (an inactive union
    member). *)
Inductive Outcome (A : Type) : Type :=
| Return (a : A)
| Throw (e : JSError)
| Fault
| Undef.
Arguments Return {A} a.
Arguments Throw {A} e.
Arguments Fault {A}.
Arguments Undef {A}.

Definition is_Return {A} (o : Outcome A) : bool :=
  match o with Return _ => true | _ => false end.
Definition is_Fault {A} (o : Outcome A) : bool :=
  match o with Fault => true | _ => false end.

(** A computation against an engine state [Σ]. *)
Definition M (Σ A : Type) : Type := Σ → Outcome A * Σ.

Definition ret {Σ A} (a : A) : M Σ A := λ σ, (Return a, σ).

Definition bind {Σ A B} (m : M Σ A) (k : A → M Σ B) : M Σ B :=
  λ σ, match m σ with
       | (Return a, σ') => k a σ'
       | (Throw e, σ') => (Throw e, σ')
       | (Fault, σ') => (Fault, σ')
       | (Undef, σ') => (Undef, σ')
       end.

(** [assert(c)] with assertions enabled. *)
Definition assert {Σ} (c : bool) : M Σ unit :=
  λ σ, if c then (Return tt, σ) else (Fault, σ).

(** Run [m], then [cleanup] on every path on which the stack still unwinds
    (normal return and exception); a fault does not unwind. *)
Definition finally {Σ A} (m : M Σ A) (cleanup : Σ → Σ) : M Σ A :=
  λ σ, match m σ with
       | (Return a, σ') => (Return a, cleanup σ')
       | (Throw e, σ') => (Throw e, cleanup σ')
       | r => r
       end.

Declare Scope jsa_scope.
Delimit Scope jsa_scope with jsa.
Notation "'let*' x := m 'in' k" := (bind m (λ x, k))
  (at level 10, x pattern, m at level 100, k at level 200) : jsa_scope.

Module jsa.

(* ===================================================================== *)
(** ** [Pointer] and the wrappers derived from it (js_type.h 17-38) *)
(* ===================================================================== *)

(** [JSContext::PointerValue *]: the address of an engine-owned cell. *)
Definition PointerValue := positive.

(** [class Pointer]: its one data member; [None] is [nullptr]. *)
Record Pointer := mkPointer { ptr_ : option PointerValue }.

(** [explicit Pointer(JSContext::PointerValue *ptr) : ptr_(ptr) {}] *)
Definition Pointer_of (ptr : option PointerValue) : Pointer := mkPointer ptr.

(** [Pointer(Pointer &&other) noexcept : ptr_(other.ptr_) { other.ptr_ = nullptr; }]
    Returns the constructed object and [other] as the constructor leaves it. *)
Definition Pointer_move (other : Pointer) : Pointer * Pointer :=
  let this := mkPointer (ptr_ other) in
  let other := mkPointer None in
  (this, other).

Section destructor.
Context {Σ : Type}.
(** [PointerValue::invalidate()], virtual, implemented by the engine. *)
Variable invalidate : PointerValue → Σ → Σ.

(** [~Pointer() { if (ptr_) { ptr_->invalidate(); } }] *)
Definition Pointer_dtor (this : Pointer) (σ : Σ) : Σ :=
  match ptr_ this with
  | Some p => invalidate p σ
  | None => σ
  end.

(** Modelled from the spec: [Pointer::operator=(Pointer &&)] is declared at
    js_type.h:29 and defined outside the sources at hand.  Section 4.1: the
    wrapper is move-assignable, the move leaves the source in the no-handle
    state, and (section 3) every handle is released exactly once, by
    move-out or by destruction; so the handle the destination held is
    invalidated, the destination takes the source's handle and the source
    is left with none.  [this] and [other] are distinct objects.
    Returns [this] and [other] after the assignment. *)
Definition Pointer_move_assign (this other : Pointer) (σ : Σ)
  : Pointer * Pointer * Σ :=
  let σ := Pointer_dtor this σ in
  (mkPointer (ptr_ other), mkPointer None, σ).
End destructor.

(** The classes derived from [Pointer].  None adds a data member; each
    inherits the constructor from a raw [PointerValue *]
    ([using Pointer::Pointer], or a private constructor that forwards to
    [Object]'s) and defaults its move operations. *)
Record PropNameID := mkPropNameID { PropNameID_base : Pointer }.
Record Symbol := mkSymbol { Symbol_base : Pointer }.
Record String := mkString { String_base : Pointer }.
Record Object := mkObject { Object_base : Pointer }.
Record WeakObject := mkWeakObject { WeakObject_base : Pointer }.
Record Array := mkArray { Array_base : Object }.
Record ArrayBuffer := mkArrayBuffer { ArrayBuffer_base : Object }.
Record ArrayBufferView := mkArrayBufferView { ArrayBufferView_base : Object }.
Record Function := mkFunction { Function_base : Object }.

(** The base subobject of a derived wrapper, and the wrapper around a base. *)
Class PointerDerived (T : Type) := {
  to_Pointer : T → Pointer;
  from_Pointer : Pointer → T;
  to_from_Pointer : ∀ p, to_Pointer (from_Pointer p) = p;
  from_to_Pointer : ∀ t, from_Pointer (to_Pointer t) = t;
}.

#[export] Instance PropNameID_derived : PointerDerived PropNameID :=
  {| to_Pointer := PropNameID_base; from_Pointer := mkPropNameID;
     to_from_Pointer := λ _, eq_refl;
     from_to_Pointer := λ '(mkPropNameID _), eq_refl |}.
#[export] Instance Symbol_derived : PointerDerived Symbol :=
  {| to_Pointer := Symbol_base; from_Pointer := mkSymbol;
     to_from_Pointer := λ _, eq_refl;
     from_to_Pointer := λ '(mkSymbol _), eq_refl |}.
#[export] Instance String_derived : PointerDerived String :=
  {| to_Pointer := String_base; from_Pointer := mkString;
     to_from_Pointer := λ _, eq_refl;
     from_to_Pointer := λ '(mkString _), eq_refl |}.
#[export] Instance Object_derived : PointerDerived Object :=
  {| to_Pointer := Object_base; from_Pointer := mkObject;
     to_from_Pointer := λ _, eq_refl;
     from_to_Pointer := λ '(mkObject _), eq_refl |}.
#[export] Instance WeakObject_derived : PointerDerived WeakObject :=
  {| to_Pointer := WeakObject_base; from_Pointer := mkWeakObject;
     to_from_Pointer := λ _, eq_refl;
     from_to_Pointer := λ '(mkWeakObject _), eq_refl |}.
#[export] Instance Array_derived : PointerDerived Array :=
  {| to_Pointer := λ a, Object_base (Array_base a);
     from_Pointer := λ p, mkArray (mkObject p);
     to_from_Pointer := λ _, eq_refl;
     from_to_Pointer := λ '(mkArray (mkObject _)), eq_refl |}.
#[export] Instance ArrayBuffer_derived : PointerDerived ArrayBuffer :=
  {| to_Pointer := λ a, Object_base (ArrayBuffer_base a);
     from_Pointer := λ p, mkArrayBuffer (mkObject p);
     to_from_Pointer := λ _, eq_refl;
     from_to_Pointer := λ '(mkArrayBuffer (mkObject _)), eq_refl |}.
#[export] Instance ArrayBufferView_derived : PointerDerived ArrayBufferView :=
  {| to_Pointer := λ a, Object_base (ArrayBufferView_base a);
     from_Pointer := λ p, mkArrayBufferView (mkObject p);
     to_from_Pointer := λ _, eq_refl;
     from_to_Pointer := λ '(mkArrayBufferView (mkObject _)), eq_refl |}.
#[export] Instance Function_derived : PointerDerived Function :=
  {| to_Pointer := λ a, Object_base (Function_base a);
     from_Pointer := λ p, mkFunction (mkObject p);
     to_from_Pointer := λ _, eq_refl;
     from_to_Pointer := λ '(mkFunction (mkObject _)), eq_refl |}.

(** The handle a wrapper holds. *)
Definition handle `{PointerDerived T} (t : T) : option PointerValue :=
  ptr_ (to_Pointer t).

(** The inherited constructor of [T] from a raw [PointerValue] pointer. *)
Definition wrap `{PointerDerived T} (ptr : option PointerValue) : T :=
  from_Pointer (Pointer_of ptr).

Section derived_lifecycle.
Context `{PointerDerived T}.

(** [T(T &&other) = default]: moves the [Pointer] base subobject. *)
Definition move_construct (other : T) : T * T :=
  let '(this, other) := Pointer_move (to_Pointer other) in
  (from_Pointer this, from_Pointer other).

Context {Σ : Type} (invalidate : PointerValue → Σ → Σ).

(** The implicit [~T()]: runs [~Pointer()] on the base subobject. *)
Definition destroy (this : T) : Σ → Σ :=
  Pointer_dtor invalidate (to_Pointer this).

(** [T &operator=(T &&other) = default]: assigns the base subobject. *)
Definition move_assign (this other : T) (σ : Σ) : T * T * Σ :=
  let '(this, other, σ) :=
    Pointer_move_assign invalidate (to_Pointer this) (to_Pointer other) σ in
  (from_Pointer this, from_Pointer other, σ).
End derived_lifecycle.

(** An engine that only keeps the journal of [invalidate()] calls, most
    recent first. *)
Abbreviation journal := (list PointerValue).
Definition journal_invalidate (p : PointerValue) (j : journal) : journal := p :: j.

(** How many times [p] was invalidated. *)
Definition invalidations (p : PointerValue) (j : journal) : nat :=
  length (filter (λ q, q = p) j).

(* ===================================================================== *)
(** ** [class Value] (js_type.h 612-852) *)
(* ===================================================================== *)

(** [enum ValueKind]; [PointerKind] is an alias of [SymbolKind]. *)
Inductive ValueKind :=
| UndefinedKind | NullKind | BooleanKind | NumberKind
| SymbolKind | StringKind | ObjectKind.
Definition PointerKind : ValueKind := SymbolKind.

#[export] Instance ValueKind_eq_dec : EqDecision ValueKind.
Proof. solve_decision. Defined.

(** A C++ [double]. *)
Definition double := float.

(** The conversion [int] to [double] of [data_.number = i]; exact on every
    32-bit [int]. *)
Definition double_of_int (i : Z) : double :=
  if (i <? 0)%Z then PrimFloat.opp (PrimFloat.of_uint63 (Uint63.of_Z (- i)))
  else PrimFloat.of_uint63 (Uint63.of_Z i).

(** [union Data]: the member that is active. *)
Inductive Data :=
| boolean (b : bool)
| number (d : double)
| pointer (p : Pointer).

(** [Data() {}] with the default member initializer [bool boolean{}]. *)
Definition Data_default : Data := boolean false.

Record Value := mkValue { kind_ : ValueKind; data_ : Data }.

(** Reading a member of the union; the inactive ones have no defined value. *)
Definition Data_boolean (d : Data) : Outcome bool :=
  match d with boolean b => Return b | _ => Undef end.
Definition Data_number (d : Data) : Outcome double :=
  match d with number x => Return x | _ => Undef end.
Definition Data_pointer (d : Data) : Outcome Pointer :=
  match d with pointer p => Return p | _ => Undef end.

(** [explicit Value(ValueKind kind) : kind_(kind) {}] (private) *)
Definition Value_of_kind (kind : ValueKind) : Value := mkValue kind Data_default.

(** [Value() : Value(UndefinedKind) {}] *)
Definition Value_default : Value := Value_of_kind UndefinedKind.

(** [explicit Value(std::nullptr_t) : kind_(NullKind) {}] *)
Definition Value_nullptr : Value := mkValue NullKind Data_default.

(** [explicit Value(bool b) : Value(BooleanKind) { data_.boolean = b; }] *)
Definition Value_bool (b : bool) : Value :=
  let this := Value_of_kind BooleanKind in
  mkValue (kind_ this) (boolean b).

(** [explicit Value(double d) : Value(NumberKind) { data_.number = d; }] *)
Definition Value_double (d : double) : Value :=
  let this := Value_of_kind NumberKind in
  mkValue (kind_ this) (number d).

(** [explicit Value(int i) : Value(NumberKind) { data_.number = i; }] *)
Definition Value_int (i : Z) : Value :=
  let this := Value_of_kind NumberKind in
  mkValue (kind_ this) (number (double_of_int i)).

(** [static Value undefined() { return Value(); }] and
    [static Value null() { return Value(nullptr); }] *)
Definition Value_undefined : Value := Value_default.
Definition Value_null : Value := Value_nullptr.

(** The three overloads of [kindOf]; a type is accepted by the moving
    constructor when it derives from [Symbol], [String] or [Object]. *)
Class ValueMovable (T : Type) `{PointerDerived T} := { kindOf : ValueKind }.
#[export] Instance Symbol_movable : ValueMovable Symbol := {| kindOf := SymbolKind |}.
#[export] Instance String_movable : ValueMovable String := {| kindOf := StringKind |}.
#[export] Instance Object_movable : ValueMovable Object := {| kindOf := ObjectKind |}.
#[export] Instance Array_movable : ValueMovable Array := {| kindOf := ObjectKind |}.
#[export] Instance ArrayBuffer_movable : ValueMovable ArrayBuffer := {| kindOf := ObjectKind |}.
#[export] Instance ArrayBufferView_movable : ValueMovable ArrayBufferView := {| kindOf := ObjectKind |}.
#[export] Instance Function_movable : ValueMovable Function := {| kindOf := ObjectKind |}.

(** [template <typename T> explicit Value(T &&other) : Value(kindOf(other))
      { new (&data_.pointer) T(std::forward<T>(other)); }]
    Returns the value and [other] as the move leaves it. *)
Definition Value_move `{ValueMovable T} (other : T) : Value * T :=
  let this := Value_of_kind (kindOf (T:=T)) in
  let '(p, other) := move_construct other in
  (mkValue (kind_ this) (pointer (to_Pointer p)), other).

(** The kind tests. *)
Definition Value_isUndefined (v : Value) : bool := bool_decide (kind_ v = UndefinedKind).
Definition Value_isNull (v : Value) : bool := bool_decide (kind_ v = NullKind).
Definition Value_isBool (v : Value) : bool := bool_decide (kind_ v = BooleanKind).
Definition Value_isNumber (v : Value) : bool := bool_decide (kind_ v = NumberKind).
Definition Value_isString (v : Value) : bool := bool_decide (kind_ v = StringKind).
Definition Value_isSymbol (v : Value) : bool := bool_decide (kind_ v = SymbolKind).
Definition Value_isObject (v : Value) : bool := bool_decide (kind_ v = ObjectKind).

(** The seven kind tests in the order of [ValueKind]. *)
Definition kind_tests (v : Value) : list bool :=
  [Value_isUndefined v; Value_isNull v; Value_isBool v; Value_isNumber v;
   Value_isSymbol v; Value_isString v; Value_isObject v].

(** The constructors keep kind and active member in step. *)
Definition Value_wf (v : Value) : Prop :=
  match kind_ v, data_ v with
  | (UndefinedKind | NullKind), _ => True
  | BooleanKind, boolean _ => True
  | NumberKind, number _ => True
  | (SymbolKind | StringKind | ObjectKind), pointer _ => True
  | _, _ => False
  end.

(** Lifting the outcome of a read that touches no engine state. *)
Definition lift {Σ A} (o : Outcome A) : M Σ A := λ σ, (o, σ).

Definition Outcome_map {A B} (f : A → B) (o : Outcome A) : Outcome B :=
  match o with
  | Return a => Return (f a)
  | Throw e => Throw e
  | Fault => Fault
  | Undef => Undef
  end.

(** [bool getBool() const { return data_.boolean; }]
    The header documents it as: returns the boolean value, or asserts if
    not a boolean.  The body has no [assert]. *)
Definition Value_getBool (this : Value) : Outcome bool :=
  Data_boolean (data_ this).

(** [double getNumber() const { assert(isNumber()); return data_.number; }] *)
Definition Value_getNumber (this : Value) : Outcome double :=
  if Value_isNumber this then Data_number (data_ this) else Fault.

(** The slice of [JSContext] that manages handles. *)
Class HandleOps (Σ : Type) := {
  invalidate : PointerValue → Σ → Σ;
  cloneSymbol : option PointerValue → M Σ (option PointerValue);
  cloneString : option PointerValue → M Σ (option PointerValue);
  cloneObject : option PointerValue → M Σ (option PointerValue);
}.

Section Value_accessors.
Context `{HandleOps Σ}.
Open Scope jsa_scope.

(** [Symbol getSymbol(JSContext &context) const &
      { assert(isSymbol()); return Symbol(context.cloneSymbol(data_.pointer.ptr_)); }] *)
Definition Value_getSymbol (this : Value) : M Σ Symbol :=
  let* _ := assert (Value_isSymbol this) in
  let* p := lift (Data_pointer (data_ this)) in
  let* q := cloneSymbol (ptr_ p) in
  ret (wrap q).

(** [String getString(JSContext &context) const &] *)
Definition Value_getString (this : Value) : M Σ String :=
  let* _ := assert (Value_isString this) in
  let* p := lift (Data_pointer (data_ this)) in
  let* q := cloneString (ptr_ p) in
  ret (wrap q).

(** [Object getObject(JSContext &context) const &] *)
Definition Value_getObject (this : Value) : M Σ Object :=
  let* _ := assert (Value_isObject this) in
  let* p := lift (Data_pointer (data_ this)) in
  let* q := cloneObject (ptr_ p) in
  ret (wrap q).
End Value_accessors.

(** The rvalue overloads, which steal the handle:
    [assert(isX()); auto ptr = data_.pointer.ptr_;
     data_.pointer.ptr_ = nullptr; return static_cast<X>(ptr);]
    They return the wrapper and [*this] as it is left. *)
Definition Value_steal `{PointerDerived T} (is_kind : bool) (this : Value)
  : Outcome (T * Value) :=
  if is_kind then
    Outcome_map (λ p, let ptr := ptr_ p in
                      let this := mkValue (kind_ this) (pointer (mkPointer None)) in
                      (wrap ptr, this))
                (Data_pointer (data_ this))
  else Fault.

Definition Value_getSymbol_rv (this : Value) : Outcome (Symbol * Value) :=
  Value_steal (Value_isSymbol this) this.
Definition Value_getString_rv (this : Value) : Outcome (String * Value) :=
  Value_steal (Value_isString this) this.
Definition Value_getObject_rv (this : Value) : Outcome (Object * Value) :=
  Value_steal (Value_isObject this) this.

(** Modelled from the spec: [~Value()] is declared at js_type.h:676 and
    defined outside the sources at hand.  Section 3: a Script Value owns at
    most one Handle; on destruction, if it holds a Handle, it invalidates it
    exactly once. *)
Definition Value_dtor `{HandleOps Σ} (this : Value) (σ : Σ) : Σ :=
  match kind_ this, data_ this with
  | (SymbolKind | StringKind | ObjectKind), pointer p => Pointer_dtor invalidate p σ
  | _, _ => σ
  end.

(** Modelled from the spec: [Value(JSContext &, const Value &)] is declared
    at js_type.h:668 and defined outside the sources at hand.  Section 4.2:
    given a context, a value is constructed from a reference kind by clone,
    an independent reference to the same entity; scalars are copied. *)
Definition Value_copy `{HandleOps Σ} (value : Value) : M Σ Value :=
  match kind_ value, data_ value with
  | SymbolKind, pointer p =>
      (let* q := cloneSymbol (ptr_ p) in ret (mkValue SymbolKind (pointer (mkPointer q))))%jsa
  | StringKind, pointer p =>
      (let* q := cloneString (ptr_ p) in ret (mkValue StringKind (pointer (mkPointer q))))%jsa
  | ObjectKind, pointer p =>
      (let* q := cloneObject (ptr_ p) in ret (mkValue ObjectKind (pointer (mkPointer q))))%jsa
  | _, _ => ret value
  end.

Section Value_from_lvalue.
Context `{HandleOps Σ}.
Open Scope jsa_scope.

(** [Value(JSContext &context, const Symbol &sym) : Value(SymbolKind)
      { new (&data_.pointer) String(context.cloneSymbol(sym.ptr_)); }] *)
Definition Value_of_Symbol (sym : Symbol) : M Σ Value :=
  let this := Value_of_kind SymbolKind in
  let* q := cloneSymbol (handle sym) in
  ret (mkValue (kind_ this) (pointer (to_Pointer (wrap (T:=String) q)))).

(** [Value(JSContext &context, const String &str) : Value(StringKind)] *)
Definition Value_of_String (str : String) : M Σ Value :=
  let this := Value_of_kind StringKind in
  let* q := cloneString (handle str) in
  ret (mkValue (kind_ this) (pointer (to_Pointer (wrap (T:=String) q)))).

(** [Value(JSContext &context, const Object &obj) : Value(ObjectKind)] *)
Definition Value_of_Object (obj : Object) : M Σ Value :=
  let this := Value_of_kind ObjectKind in
  let* q := cloneObject (handle obj) in
  ret (mkValue (kind_ this) (pointer (to_Pointer (wrap (T:=Object) q)))).
End Value_from_lvalue.

(* ===================================================================== *)
(** ** The rest of the [JSContext] interface, by concern *)
(* ===================================================================== *)

(** Creation of engine strings: [createStringFromAscii(str, length)].  The
    pair of a character pointer and a length is the string of these
    characters. *)
Class StringOps (Σ : Type) := {
  createStringFromAscii : string → M Σ String;
}.

(** Property access; the C++ overloads on the key type are separate
    members here. *)
Class PropertyOps (Σ : Type) := {
  getProperty_S : Object → String → M Σ Value;
  getProperty_P : Object → PropNameID → M Σ Value;
  hasProperty_S : Object → String → M Σ bool;
  hasProperty_P : Object → PropNameID → M Σ bool;
  removeProperty_S : Object → String → M Σ unit;
  removeProperty_P : Object → PropNameID → M Σ unit;
  setPropertyValue_S : Object → String → Value → M Σ unit;
  setPropertyValue_P : Object → PropNameID → Value → M Σ unit;
}.

(** Native types that can sit behind a host object: [HostObject] and the
    classes derived from it.  [derives_from U T]: [U] is [T] or has [T] as
    an accessible base, which is when [dynamic_cast] from a [U] object to
    [T] succeeds. *)
Class NativeTypes := {
  NativeType : Type;
  NativeType_eq_dec :: EqDecision NativeType;
  HostObject_t : NativeType;
  derives_from : NativeType → NativeType → bool;
  derives_from_HostObject : ∀ U, derives_from U HostObject_t = true;
}.

(** What a non-null [std::shared_ptr<T>] to a host object designates: the
    object's address and its dynamic type.  The static type [T] of the
    pointer is not part of the value. *)
Record HostRef `{NativeTypes} := mkHostRef {
  host_addr : positive;
  dynamic_type : NativeType;
}.
Arguments mkHostRef {_} _ _.
Definition shared_ptr `{NativeTypes} := option HostRef.

(** [std::dynamic_pointer_cast<T>]: null unless the pointee is a [T]. *)
Definition dynamic_pointer_cast `{NativeTypes} (T : NativeType) (p : shared_ptr)
  : shared_ptr :=
  match p with
  | Some r => if derives_from (dynamic_type r) T then Some r else None
  | None => None
  end.

(** [std::static_pointer_cast<T>]: the same pointee, unchecked. *)
Definition static_pointer_cast `{NativeTypes} (T : NativeType) (p : shared_ptr)
  : shared_ptr := p.

(** A [shared_ptr] in a boolean context. *)
Definition shared_ptr_bool `{NativeTypes} (p : shared_ptr) : bool :=
  match p with Some _ => true | None => false end.

(** Capability tests and the host payload; [const] queries of the engine. *)
Class TypeOps (Σ : Type) `{NativeTypes} := {
  isArray : Object → Σ → bool;
  isArrayBuffer : Object → Σ → bool;
  isArrayBufferView : Object → Σ → bool;
  isFunction : Object → Σ → bool;
  ctx_isHostObject : Object → Σ → bool;
  ctx_getHostObject : Object → Σ → shared_ptr;
}.

(** Calls: [call(function, jsThis, args, count)] and
    [callAsConstructor(function, args, count)]; [args, count] is a list. *)
Class CallOps (Σ : Type) := {
  call : Function → Value → list Value → M Σ Value;
  callAsConstructor : Function → list Value → M Σ Value;
}.

(** Indexed access; [size_t] indices are naturals. *)
Class ArrayOps (Σ : Type) := {
  size_Array : Array → M Σ N;
  getValueAtIndex : Array → N → M Σ Value;
  setValueAtIndexImpl : Array → N → Value → M Σ unit;
}.

(** Creation of objects: [createObject()], [createObject(ho)] and
    [createArray(length)]. *)
Class ObjectOps (Σ : Type) `{NativeTypes} := {
  createObject : M Σ Object;
  createObject_host : shared_ptr → M Σ Object;
  createArray : N → M Σ Array;
}.

(** [explicit Object(JSContext &context) : Object(context.createObject()) {}] *)
Definition Object_new `{ObjectOps Σ} : M Σ Object := createObject.

(** [static Object createFromHostObject(context, std::shared_ptr<HostObject> ho)
      { return context.createObject(ho); }] *)
Definition Object_createFromHostObject `{ObjectOps Σ} (ho : shared_ptr) : M Σ Object :=
  createObject_host ho.

(** [Array(JSContext &context, size_t length) : Array(context.createArray(length)) {}] *)
Definition Array_new `{ObjectOps Σ} (length : N) : M Σ Array := createArray length.

(* ===================================================================== *)
(** ** [namespace detail]: [toValue] (js_type.h 856-886) *)
(* ===================================================================== *)

(** The argument of the overloaded [detail::toValue], by overload. *)
Inductive ToValueArg :=
| arg_nullptr
| arg_bool (b : bool)
| arg_double (d : double)
| arg_float (f : double)   (* a [float], as the [double] of the same value *)
| arg_int (i : Z)
| arg_cstr (str : string)
| arg_std_string (str : string)
| arg_Symbol (other : Symbol)
| arg_String (other : String)
| arg_Object (other : Object)
| arg_Value (value : Value)       (* [const Value &] *)
| arg_Value_rv (value : Value).   (* [Value &&] *)

(** [String::createFromAscii], all three overloads end in
    [context.createStringFromAscii(str, length)]. *)
Definition String_createFromAscii `{StringOps Σ} (str : string) : M Σ String :=
  createStringFromAscii str.

Section toValue.
Context `{HandleOps Σ, StringOps Σ}.
Open Scope jsa_scope.

Definition toValue (a : ToValueArg) : M Σ Value :=
  match a with
  | arg_nullptr => ret Value_null
  | arg_bool b => ret (Value_bool b)
  | arg_double d => ret (Value_double d)
  | arg_float f => ret (Value_double f)
  | arg_int i => ret (Value_int i)
  | arg_cstr str | arg_std_string str =>
      let* s := String_createFromAscii str in
      ret (fst (Value_move s))
  | arg_Symbol other => Value_of_Symbol other
  | arg_String other => Value_of_String other
  | arg_Object other => Value_of_Object other
  | arg_Value value => Value_copy value
  | arg_Value_rv value => ret value
  end.

(** Whether [toValue] hands back a temporary (destroyed at the end of the
    full expression) or, for [Value &&], a reference to the caller's
    object. *)
Definition returns_temporary (a : ToValueArg) : bool :=
  match a with arg_Value_rv _ => false | _ => true end.

Definition release_converted (a : ToValueArg) (v : Value) : Σ → Σ :=
  if returns_temporary a then Value_dtor v else id.

(** The arguments whose conversion needs no engine at all. *)
Definition scalar_arg (a : ToValueArg) : bool :=
  match a with
  | arg_nullptr | arg_bool _ | arg_double _ | arg_float _ | arg_int _ => true
  | _ => false
  end.
End toValue.

(* ===================================================================== *)
(** ** [class Object]: property access (js_type.h 902-948) *)
(* ===================================================================== *)

Section Object_properties.
Context `{HandleOps Σ, StringOps Σ, PropertyOps Σ}.
Open Scope jsa_scope.

(** [getProperty(context, const String &name)
      { return context.getProperty( *this, name); }] and its
    [PropNameID] overload. *)
Definition Object_getProperty_String (this : Object) (name : String) : M Σ Value :=
  getProperty_S this name.
Definition Object_getProperty_PropNameID (this : Object) (name : PropNameID) : M Σ Value :=
  getProperty_P this name.

(** [getProperty(context, const char *name)
      { return getProperty(context, String::createFromAscii(context, name)); }]
    The temporary [String] dies at the end of the full expression. *)
Definition Object_getProperty (this : Object) (name : string) : M Σ Value :=
  let* key := String_createFromAscii name in
  finally (Object_getProperty_String this key) (destroy invalidate key).

Definition Object_hasProperty_String (this : Object) (name : String) : M Σ bool :=
  hasProperty_S this name.
Definition Object_hasProperty_PropNameID (this : Object) (name : PropNameID) : M Σ bool :=
  hasProperty_P this name.

(** [hasProperty(context, const char *name)
      { return hasProperty(context, String::createFromAscii(context, name)); }] *)
Definition Object_hasProperty (this : Object) (name : string) : M Σ bool :=
  let* key := String_createFromAscii name in
  finally (Object_hasProperty_String this key) (destroy invalidate key).

Definition Object_removeProperty_String (this : Object) (name : String) : M Σ unit :=
  removeProperty_S this name.
Definition Object_removeProperty_PropNameID (this : Object) (name : PropNameID) : M Σ unit :=
  removeProperty_P this name.

(** [removeProperty(context, const char *name)
      { context.removeProperty( *this, String::createFromAscii(context, name)); }]
    calls the engine directly. *)
Definition Object_removeProperty (this : Object) (name : string) : M Σ unit :=
  let* key := String_createFromAscii name in
  finally (removeProperty_S this key) (destroy invalidate key).

(** [setPropertyValue], the protected forwarders. *)
Definition Object_setPropertyValue_String (this : Object) (name : String) (value : Value)
  : M Σ unit := setPropertyValue_S this name value.
Definition Object_setPropertyValue_PropNameID (this : Object) (name : PropNameID) (value : Value)
  : M Σ unit := setPropertyValue_P this name value.

(** [setProperty(context, const String &name, T &&value)
      { setPropertyValue(context, name, detail::toValue(context, std::forward<T>(value))); }] *)
Definition Object_setProperty_String (this : Object) (name : String) (value : ToValueArg)
  : M Σ unit :=
  let* v := toValue value in
  finally (Object_setPropertyValue_String this name v) (release_converted value v).

Definition Object_setProperty_PropNameID (this : Object) (name : PropNameID) (value : ToValueArg)
  : M Σ unit :=
  let* v := toValue value in
  finally (Object_setPropertyValue_PropNameID this name v) (release_converted value v).

(** [setProperty(context, const char *name, T &&value)
      { setProperty(context, String::createFromAscii(context, name), std::forward<T>(value)); }] *)
Definition Object_setProperty (this : Object) (name : string) (value : ToValueArg)
  : M Σ unit :=
  let* key := String_createFromAscii name in
  finally (Object_setProperty_String this key value) (destroy invalidate key).
End Object_properties.

(* ===================================================================== *)
(** ** [class Object]: the casts (js_type.h 950-1025) *)
(* ===================================================================== *)

(** [detail::throwJSError(JSContext &, const char *msg)].
    Modelled from the spec: the function is declared at js_type.h:898 and
    defined outside the sources at hand.  Section 7: a type mismatch in a
    checked host-object downcast raises a catchable script error, an error
    object with a message. *)
Definition throwJSError {Σ} (msg : string) : M Σ unit :=
  λ σ, (Throw (mkJSError ScriptError msg), σ).

Section Object_casts.
Context `{HandleOps Σ, TypeOps Σ}.
Open Scope jsa_scope.

(** The body shared by the lvalue overloads:
    [assert(context.isX( *this)); return X(context.cloneObject(ptr_));] *)
Definition cast_clone `{PointerDerived T} (isX : Object → Σ → bool) (this : Object)
  : M Σ T :=
  λ σ, (let* _ := assert (isX this σ) in
        let* q := cloneObject (handle this) in
        ret (wrap q)) σ.

(** The body shared by the asserting rvalue overloads:
    [assert(context.isX( *this)); value = ptr_; ptr_ = nullptr; return X(value);]
    Returns the wrapper and [*this] as it is left. *)
Definition cast_steal `{PointerDerived T} (isX : Object → Σ → bool) (this : Object)
  : M Σ (T * Object) :=
  λ σ, (let* _ := assert (isX this σ) in
        let value := handle this in
        let this := mkObject (mkPointer None) in
        ret (wrap value, this)) σ.

Definition Object_getArray (this : Object) : M Σ Array := cast_clone isArray this.
Definition Object_getArray_rv (this : Object) : M Σ (Array * Object) :=
  cast_steal isArray this.

Definition Object_getArrayBuffer (this : Object) : M Σ ArrayBuffer :=
  cast_clone isArrayBuffer this.
Definition Object_getArrayBuffer_rv (this : Object) : M Σ (ArrayBuffer * Object) :=
  cast_steal isArrayBuffer this.

(** [getArrayBufferView(context) const &
      { assert(context.isArrayBufferView( *this));
        return ArrayBufferView(context.cloneObject(ptr_)); }] *)
Definition Object_getArrayBufferView (this : Object) : M Σ ArrayBufferView :=
  cast_clone isArrayBufferView this.

(** [getArrayBufferView(context) &&
      { value = ptr_; ptr_ = nullptr; return ArrayBufferView(value); }]
    Unlike the lvalue overload and the rvalue overloads of the other casts,
    the body has no [assert] and does not use the context. *)
Definition Object_getArrayBufferView_rv (this : Object) : M Σ (ArrayBufferView * Object) :=
  let value := handle this in
  let this := mkObject (mkPointer None) in
  ret (wrap value, this).

Definition Object_getFunction (this : Object) : M Σ Function :=
  cast_clone isFunction this.
Definition Object_getFunction_rv (this : Object) : M Σ (Function * Object) :=
  cast_steal isFunction this.

(** [template <typename T> bool isHostObject(context) const
      { return context.isHostObject( *this) &&
               std::dynamic_pointer_cast<T>(context.getHostObject( *this)); }]
    and its specialization at [HostObject],
      [{ return context.isHostObject( *this); }]. *)
Definition Object_isHostObject (T : NativeType) (this : Object) (σ : Σ) : bool :=
  if decide (T = HostObject_t) then ctx_isHostObject this σ
  else ctx_isHostObject this σ
       && shared_ptr_bool (dynamic_pointer_cast T (ctx_getHostObject this σ)).

(** [template <typename T> std::shared_ptr<T> getHostObject(context) const
      { assert(isHostObject<T>(context));
        return std::static_pointer_cast<T>(context.getHostObject( *this)); }]
    and its specialization at [HostObject],
      [{ assert(context.isHostObject( *this));
         return context.getHostObject( *this); }]. *)
Definition Object_getHostObject (T : NativeType) (this : Object) : M Σ shared_ptr :=
  if decide (T = HostObject_t) then
    λ σ, (let* _ := assert (ctx_isHostObject this σ) in
          ret (ctx_getHostObject this σ)) σ
  else
    λ σ, (let* _ := assert (Object_isHostObject T this σ) in
          ret (static_pointer_cast T (ctx_getHostObject this σ))) σ.

(** [template <typename T> std::shared_ptr<T> asHostObject(context) const
      { if (!isHostObject<T>(context)) {
          detail::throwJSError(context, ...);
        }
        return std::static_pointer_cast<T>(context.getHostObject( *this)); }] *)
Definition Object_asHostObject (T : NativeType) (this : Object) : M Σ shared_ptr :=
  λ σ, (let* _ := (if negb (Object_isHostObject T this σ)
                   then throwJSError "Object is not a HostObject of desired type"
                   else ret tt) in
        λ σ, ret (static_pointer_cast T (ctx_getHostObject this σ)) σ) σ.
End Object_casts.

(* ===================================================================== *)
(** ** [class Array] and [class Function] (js_type.h 1035-1111) *)
(* ===================================================================== *)

Section Array_members.
Context `{HandleOps Σ, StringOps Σ, ArrayOps Σ}.
Open Scope jsa_scope.

(** [size_t size(context) const { return context.size( *this); }] and
    [length], which forwards to it. *)
Definition Array_size (this : Array) : M Σ N := size_Array this.
Definition Array_length (this : Array) : M Σ N := Array_size this.

(** [Value Array::getValueAtIndex(context, size_t i) const
      { return context.getValueAtIndex( *this, i); }] *)
Definition Array_getValueAtIndex (this : Array) (i : N) : M Σ Value :=
  getValueAtIndex this i.

(** [void setValueAtIndexImpl(context, size_t i, const Value &value)
      { return context.setValueAtIndexImpl( *this, i, value); }] *)
Definition Array_setValueAtIndexImpl (this : Array) (i : N) (value : Value) : M Σ unit :=
  setValueAtIndexImpl this i value.

(** [template <typename T> void Array::setValueAtIndex(context, size_t i, T &&value)
      { setValueAtIndexImpl(context, i, detail::toValue(context, std::forward<T>(value))); }] *)
Definition Array_setValueAtIndex (this : Array) (i : N) (value : ToValueArg) : M Σ unit :=
  let* v := toValue value in
  finally (Array_setValueAtIndexImpl this i v) (release_converted value v).
End Array_members.

Section Function_members.
Context `{HandleOps Σ, StringOps Σ, CallOps Σ}.
Open Scope jsa_scope.

(** [Value Function::call(context, const Value *args, size_t count) const
      { return context.call( *this, Value::undefined(), args, count); }] *)
Definition Function_call (this : Function) (args : list Value) : M Σ Value :=
  call this Value_undefined args.

(** [Value Function::call(context, std::initializer_list<Value> args) const
      { return call(context, args.begin(), args.size()); }] *)
Definition Function_call_list (this : Function) (args : list Value) : M Σ Value :=
  Function_call this args.

(** [Value Function::callWithThis(context, const Object &jsThis,
                                  const Value *args, size_t count) const
      { return context.call( *this, Value(context, jsThis), args, count); }]
    The temporary [Value] around the clone of [jsThis] dies at the end of
    the full expression. *)
Definition Function_callWithThis (this : Function) (jsThis : Object) (args : list Value)
  : M Σ Value :=
  let* jsThisValue := Value_of_Object jsThis in
  finally (call this jsThisValue args) (Value_dtor jsThisValue).

Definition Function_callWithThis_list (this : Function) (jsThis : Object) (args : list Value)
  : M Σ Value :=
  Function_callWithThis this jsThis args.

(** [Value Function::callAsConstructor(context, const Value *args, size_t count) const
      { return context.callAsConstructor( *this, args, count); }] *)
Definition Function_callAsConstructor (this : Function) (args : list Value) : M Σ Value :=
  callAsConstructor this args.

Definition Function_callAsConstructor_list (this : Function) (args : list Value)
  : M Σ Value :=
  Function_callAsConstructor this args.
End Function_members.

(* ===================================================================== *)
(** ** Notions used to state the properties *)
(* ===================================================================== *)

(** The [Value] of kind object around a handle. *)
Definition object_value (q : option PointerValue) : Value :=
  mkValue ObjectKind (pointer (mkPointer q)).

(** The value a scalar argument converts to. *)
Definition scalar_value (a : ToValueArg) : Value :=
  match a with
  | arg_bool b => Value_bool b
  | arg_double d | arg_float d => Value_double d
  | arg_int i => Value_int i
  | _ => Value_null
  end.

Section stated_forms.
Context `{HandleOps Σ, StringOps Σ}.

(** The convenience form in the words of the specification: intern the
    key through the adapter, delegate to the keyed operation, and let go
    of the key. *)
Definition via_created_key {A} (name : string) (keyed : String → M Σ A) : M Σ A :=
  λ σ, match createStringFromAscii name σ with
       | (Return key, σ1) =>
           match keyed key σ1 with
           | (Return a, σ2) => (Return a, destroy invalidate key σ2)
           | (Throw e, σ2) => (Throw e, destroy invalidate key σ2)
           | (Fault, σ2) => (Fault, σ2)
           | (Undef, σ2) => (Undef, σ2)
           end
       | (Throw e, σ1) => (Throw e, σ1)
       | (Fault, σ1) => (Fault, σ1)
       | (Undef, σ1) => (Undef, σ1)
       end.

End stated_forms.

Section backing.
Context `{TypeOps Σ}.

(** What stands behind an object: a host object, or none. *)
Inductive Backing :=
| backed_by (r : HostRef)
| not_host_backed.

(** The engine's answers for an object with that backing: an object
    created from the host object [r] is host-backed with payload [r]. *)
Definition has_backing (o : Object) (σ : Σ) (bk : Backing) : Prop :=
  match bk with
  | backed_by r => ctx_isHostObject o σ = true ∧ ctx_getHostObject o σ = Some r
  | not_host_backed => ctx_isHostObject o σ = false
  end.

Definition payload (bk : Backing) : shared_ptr :=
  match bk with backed_by r => Some r | not_host_backed => None end.

(** The object is host-backed and its payload casts dynamically to [T]. *)
Definition casts_to (T : NativeType) (bk : Backing) : bool :=
  shared_ptr_bool (dynamic_pointer_cast T (payload bk)).

Definition not_desired_type : JSError :=
  mkJSError ScriptError "Object is not a HostObject of desired type".

End backing.

End jsa.

(* ===================================================================== *)
(** * A recording probe *)
(* ===================================================================== *)

Module probe.
Import jsa.

(** A probe in place of the engine: it writes down each primitive it is
    asked for, in order, and answers with a fixed value: a clone with the
    handle it was given, the creation of a string with [probe_key], a call
    or a property read with undefined, a property test with [false]. *)
Inductive KeyType := by_String | by_PropNameID.

Inductive Primitive :=
| prim_invalidate (p : PointerValue)
| prim_cloneSymbol (p : option PointerValue)
| prim_cloneString (p : option PointerValue)
| prim_cloneObject (p : option PointerValue)
| prim_createStringFromAscii (str : string)
| prim_getProperty (o : Object) (t : KeyType) (key : option PointerValue)
| prim_hasProperty (o : Object) (t : KeyType) (key : option PointerValue)
| prim_removeProperty (o : Object) (t : KeyType) (key : option PointerValue)
| prim_setPropertyValue (o : Object) (t : KeyType) (key : option PointerValue) (v : Value)
| prim_call (f : Function) (jsThis : Value) (args : list Value)
| prim_callAsConstructor (f : Function) (args : list Value).

Definition Recorder := list Primitive.

Definition record {A} (e : Primitive) (answer : A) : M Recorder A :=
  λ log, (Return answer, log ++ [e]).

(** The handle of every string the probe creates. *)
Definition probe_key : PointerValue := 1%positive.

#[export] Instance recorder_handles : HandleOps Recorder := {|
  invalidate p log := log ++ [prim_invalidate p];
  cloneSymbol p := record (prim_cloneSymbol p) p;
  cloneString p := record (prim_cloneString p) p;
  cloneObject p := record (prim_cloneObject p) p;
|}.
#[export] Instance recorder_strings : StringOps Recorder := {|
  createStringFromAscii str :=
    record (prim_createStringFromAscii str) (wrap (Some probe_key));
|}.
#[export] Instance recorder_properties : PropertyOps Recorder := {|
  getProperty_S o k := record (prim_getProperty o by_String (handle k)) Value_undefined;
  getProperty_P o k := record (prim_getProperty o by_PropNameID (handle k)) Value_undefined;
  hasProperty_S o k := record (prim_hasProperty o by_String (handle k)) false;
  hasProperty_P o k := record (prim_hasProperty o by_PropNameID (handle k)) false;
  removeProperty_S o k := record (prim_removeProperty o by_String (handle k)) tt;
  removeProperty_P o k := record (prim_removeProperty o by_PropNameID (handle k)) tt;
  setPropertyValue_S o k v := record (prim_setPropertyValue o by_String (handle k) v) tt;
  setPropertyValue_P o k v :=
    record (prim_setPropertyValue o by_PropNameID (handle k) v) tt;
|}.
#[export] Instance recorder_calls : CallOps Recorder := {|
  call f jsThis args := record (prim_call f jsThis args) Value_undefined;
  callAsConstructor f args := record (prim_callAsConstructor f args) Value_undefined;
|}.

End probe.

(* ===================================================================== *)
(** * A reference engine *)
(* ===================================================================== *)

(** The engine adapters (the classes derived from [JSContext]) are not part
    of the sources at hand.  This module gives one small engine, written
    from the contract the specification states for adapters (sections 3,
    4.1, 4.3, 4.4 and 6): handles designate engine-resident entities, a
    clone is a second handle to the same entity, invalidation releases one
    handle, arrays check indices against their length property. *)
Module reference.
Import jsa.

Section engine.
Context `{NativeTypes}.

(** An engine-resident entity is known by its identity. *)
Definition EntityId := positive.

(** What the engine keeps in a slot: a scalar, or a reference to an
    entity of the given kind. *)
Inductive Stored :=
| st_undefined
| st_null
| st_boolean (b : bool)
| st_number (d : double)
| st_ref (kind : ValueKind) (e : EntityId).

Inductive Entity :=
| StringEntity (chars : string)
| SymbolEntity (description : string)
| ObjectEntity (properties : gmap string Stored)
| HostObjectEntity (payload : shared_ptr)
| ArrayEntity (length : N) (elements : gmap N Stored).

(** The engine: its entities, and the live handles with the entity each
    designates. *)
Record Engine := mkEngine {
  entities : gmap EntityId Entity;
  handles : gmap PointerValue EntityId;
}.

Definition empty_engine : Engine := mkEngine ∅ ∅.

(** A new handle to entity [e]. *)
Definition new_handle (e : EntityId) : M Engine PointerValue :=
  λ σ, let p := fresh (dom (handles σ)) in
       (Return p, mkEngine (entities σ) (<[p := e]> (handles σ))).

(** A new entity, and the first handle to it. *)
Definition new_entity (x : Entity) : M Engine PointerValue :=
  λ σ, let e := fresh (dom (entities σ)) in
       new_handle e (mkEngine (<[e := x]> (entities σ)) (handles σ)).

(** The entity behind a raw handle, if the handle is live. *)
Definition entity_at (σ : Engine) (p : option PointerValue) : option (EntityId * Entity) :=
  p ≫= λ p, handles σ !! p ≫= λ e, (λ x, (e, x)) <$> entities σ !! e.

Definition entity_of `{PointerDerived T} (σ : Engine) (t : T) : option Entity :=
  snd <$> entity_at σ (handle t).

(** Modelled from the spec: [cloneHandle] of the adapter contract (section
    6).  Section 3: a clone is a new reference to the same engine entity,
    not a deep copy.  A handle that is not live in this engine is a
    programming-error fault (section 5). *)
Definition ref_clone (p : option PointerValue) : M Engine (option PointerValue) :=
  λ σ, match entity_at σ p with
       | Some (e, _) => (let* q := new_handle e in ret (Some q))%jsa σ
       | None => (Fault, σ)
       end.

(** Modelled from the spec: [invalidateHandle] of the adapter contract
    (section 6); the handle is released, the entity stays with the
    engine. *)
Definition ref_invalidate (p : PointerValue) (σ : Engine) : Engine :=
  mkEngine (entities σ) (delete p (handles σ)).

#[export] Instance ref_handles : HandleOps Engine := {|
  invalidate := ref_invalidate;
  cloneSymbol := ref_clone;
  cloneString := ref_clone;
  cloneObject := ref_clone;
|}.

(** Modelled from the spec: creation of an engine string whose data is
    copied from the host's characters (section 6, fresh allocation of a
    handle by the adapter). *)
#[export] Instance ref_strings : StringOps Engine := {|
  createStringFromAscii str :=
    (let* p := new_entity (StringEntity str) in ret (wrap (Some p)))%jsa;
|}.

(** Modelled from the spec: [createObject], [createArray] of the adapter
    contract (section 6).  Section 3: for a host object the engine holds a
    handle that keeps the type-erased native payload.  An array is created
    with [length] undefined elements. *)
#[export] Instance ref_objects : ObjectOps Engine := {|
  createObject := (let* p := new_entity (ObjectEntity ∅) in ret (wrap (Some p)))%jsa;
  createObject_host ho :=
    (let* p := new_entity (HostObjectEntity ho) in ret (wrap (Some p)))%jsa;
  createArray length :=
    (let* p := new_entity (ArrayEntity length ∅) in ret (wrap (Some p)))%jsa;
|}.

(** Modelled from the spec: the capability tests of the adapter contract
    (section 6), engine queries on the entity behind the handle (section
    3).  This engine has arrays and host objects, and neither functions
    nor array buffers. *)
#[export] Instance ref_types : TypeOps Engine := {|
  isArray o σ :=
    match entity_of σ o with Some (ArrayEntity _ _) => true | _ => false end;
  isArrayBuffer _ _ := false;
  isArrayBufferView _ _ := false;
  isFunction _ _ := false;
  ctx_isHostObject o σ :=
    match entity_of σ o with Some (HostObjectEntity _) => true | _ => false end;
  ctx_getHostObject o σ :=
    match entity_of σ o with Some (HostObjectEntity ho) => ho | _ => None end;
|}.

(** The [Value] the host receives for a stored slot: a scalar by value, a
    reference through a new handle. *)
Definition load (s : Stored) : M Engine Value :=
  match s with
  | st_undefined => ret Value_undefined
  | st_null => ret Value_null
  | st_boolean b => ret (Value_bool b)
  | st_number d => ret (Value_double d)
  | st_ref kind e =>
      (let* q := new_handle e in ret (mkValue kind (pointer (mkPointer (Some q)))))%jsa
  end.

(** What the engine stores for a [Value] of the host; [None] when the
    value carries a handle that is not live, or is ill-formed. *)
Definition store (σ : Engine) (v : Value) : option Stored :=
  match kind_ v, data_ v with
  | UndefinedKind, _ => Some st_undefined
  | NullKind, _ => Some st_null
  | BooleanKind, boolean b => Some (st_boolean b)
  | NumberKind, number d => Some (st_number d)
  | (SymbolKind | StringKind | ObjectKind) as k, pointer p =>
      (λ ex, st_ref k (fst ex)) <$> entity_at σ (ptr_ p)
  | _, _ => None
  end.

Definition range_error : JSError := mkJSError RangeError "index out of range".

(** Modelled from the spec: [getValueAtIndex] of the adapter.  Section 4.3:
    it raises a range error when the index falls outside [0, length), where
    length is read from the object's length property at call time.
    js_type.h:421-423: if there is no such property, the undefined value is
    returned. *)
Definition ref_getValueAtIndex (a : Array) (i : N) : M Engine Value :=
  λ σ, match entity_of σ a with
       | Some (ArrayEntity length elements) =>
           if (i <? length)%N then load (default st_undefined (elements !! i)) σ
           else (Throw range_error, σ)
       | _ => (Fault, σ)
       end.

(** Modelled from the spec: [setValueAtIndexImpl] of the adapter, with the
    same range check against the length property read at call time
    (section 4.3). *)
Definition ref_setValueAtIndexImpl (a : Array) (i : N) (v : Value) : M Engine unit :=
  λ σ, match entity_at σ (handle a) with
       | Some (e, ArrayEntity length elements) =>
           if (i <? length)%N then
             match store σ v with
             | Some s =>
                 (Return tt,
                  mkEngine (<[e := ArrayEntity length (<[i := s]> elements)]> (entities σ))
                           (handles σ))
             | None => (Fault, σ)
             end
           else (Throw range_error, σ)
       | _ => (Fault, σ)
       end.

(** Modelled from the spec: [size] reads the length property. *)
Definition ref_size (a : Array) : M Engine N :=
  λ σ, match entity_of σ a with
       | Some (ArrayEntity length _) => (Return length, σ)
       | _ => (Fault, σ)
       end.

#[export] Instance ref_arrays : ArrayOps Engine := {|
  size_Array := ref_size;
  getValueAtIndex := ref_getValueAtIndex;
  setValueAtIndexImpl := ref_setValueAtIndexImpl;
|}.

(** What script code does to an array behind the host's back: it sets the
    length property. *)
Definition script_set_length (e : EntityId) (length : N) (σ : Engine) : Engine :=
  match entities σ !! e with
  | Some (ArrayEntity _ elements) =>
      mkEngine (<[e := ArrayEntity length elements]> (entities σ)) (handles σ)
  | _ => σ
  end.
(** [σ'] still has every live handle of [σ], designating the same entity. *)
Definition extends (σ σ' : Engine) : Prop :=
  ∀ p x, entity_at σ (Some p) = Some x → entity_at σ' (Some p) = Some x.

(** A computation that keeps every live handle. *)
Definition preserving {A} (m : M Engine A) : Prop := ∀ σ, extends σ (m σ).2.

(** The call ended in a catchable range error. *)
Definition raises_range_error {A} (r : Outcome A * Engine) : bool :=
  match r.1 with
  | Throw e => bool_decide (error_kind e = RangeError)
  | _ => false
  end.

Definition returns {A} (r : Outcome A * Engine) : bool := is_Return r.1.

End engine.

End reference.

(* ===================================================================== *)
(** * JSON serialization on the reference engine *)
(* ===================================================================== *)

(** [std::string Value::toJSON(JSContext &context) const] is declared at
    js_type.h:806 and defined outside the sources at hand, as is the engine
    primitive behind it.  The walk below is written from section 4.2 of the
    specification. *)
Module json.
Import jsa reference.

(** ** JSON texts and what they stand for *)

(** The structure a JSON text stands for.  A number keeps its literal; the
    members of an object keep their order. *)
Unset Elimination Schemes.
Inductive Json :=
| JNull
| JBool (b : bool)
| JNumber (literal : string)
| JString (chars : string)
| JArray (elements : list Json)
| JObject (members : list (string * Json)).
Set Elimination Schemes.

(** The double quote and the backslash. *)
Definition dquote_char : Ascii.ascii := Ascii.ascii_of_nat 34.
Definition dquote : string := String.String dquote_char EmptyString.
Definition backslash : Ascii.ascii := Ascii.ascii_of_nat 92.

Definition digit (c : Ascii.ascii) : bool :=
  (48 <=? Ascii.nat_of_ascii c) && (Ascii.nat_of_ascii c <=? 57).

(** The characters a number literal is made of. *)
Definition number_char (c : Ascii.ascii) : bool :=
  digit c
  || bool_decide (c = "-"%char) || bool_decide (c = "+"%char)
  || bool_decide (c = "."%char) || bool_decide (c = "e"%char) || bool_decide (c = "E"%char).

(** The grammar of a number: an optional minus, an integer part without
    leading zeros, an optional fraction, an optional exponent. *)
Inductive NumberState :=
| n_start | n_minus | n_zero | n_int | n_dot | n_frac | n_e | n_esign | n_exp.

Definition number_step (st : NumberState) (c : Ascii.ascii) : option NumberState :=
  let zero := bool_decide (c = "0"%char) in
  let exponent := bool_decide (c = "e"%char) || bool_decide (c = "E"%char) in
  let sign := bool_decide (c = "-"%char) || bool_decide (c = "+"%char) in
  let dot := bool_decide (c = "."%char) in
  match st with
  | n_start =>
      if bool_decide (c = "-"%char) then Some n_minus
      else if zero then Some n_zero else if digit c then Some n_int else None
  | n_minus => if zero then Some n_zero else if digit c then Some n_int else None
  | n_zero => if dot then Some n_dot else if exponent then Some n_e else None
  | n_int =>
      if digit c then Some n_int
      else if dot then Some n_dot else if exponent then Some n_e else None
  | n_dot => if digit c then Some n_frac else None
  | n_frac => if digit c then Some n_frac else if exponent then Some n_e else None
  | n_e => if sign then Some n_esign else if digit c then Some n_exp else None
  | n_esign => if digit c then Some n_exp else None
  | n_exp => if digit c then Some n_exp else None
  end.

Definition number_end (st : NumberState) : bool :=
  match st with
  | n_zero | n_int | n_frac | n_exp => true
  | _ => false
  end.

Fixpoint number_run (st : NumberState) (s : string) : bool :=
  match s with
  | EmptyString => number_end st
  | String.String c rest =>
      match number_step st c with
      | Some st => number_run st rest
      | None => false
      end
  end.

(** [s] is a number literal of JSON. *)
Definition json_number (s : string) : bool := number_run n_start s.

(** ** Reading a JSON text *)

(** The reader is written from the grammar of JSON (RFC 8259), for texts
    without white space between the tokens.  It shares nothing with the
    serializer below. *)

Definition hex_value (c : Ascii.ascii) : option nat :=
  let n := Ascii.nat_of_ascii c in
  if (48 <=? n) && (n <=? 57) then Some (n - 48)
  else if (97 <=? n) && (n <=? 102) then Some (n - 87)
  else if (65 <=? n) && (n <=? 70) then Some (n - 55)
  else None.

(** The bytes of a code point of the basic plane, in UTF-8. *)
Definition utf8 (code : nat) : string :=
  let byte n := Ascii.ascii_of_nat n in
  if code <? 128 then String.String (byte code) EmptyString
  else if code <? 2048 then
    String.String (byte (192 + code / 64)) (String.String (byte (128 + code mod 64)) EmptyString)
  else
    String.String (byte (224 + code / 4096))
      (String.String (byte (128 + (code / 64) mod 64))
         (String.String (byte (128 + code mod 64)) EmptyString)).

(** The character a two-character escape stands for. *)
Definition short_escape (e : Ascii.ascii) : option Ascii.ascii :=
  if bool_decide (e = dquote_char) then Some dquote_char
  else if bool_decide (e = backslash) then Some backslash
  else if bool_decide (e = "/"%char) then Some "/"%char
  else if bool_decide (e = "b"%char) then Some (Ascii.ascii_of_nat 8)
  else if bool_decide (e = "f"%char) then Some (Ascii.ascii_of_nat 12)
  else if bool_decide (e = "n"%char) then Some (Ascii.ascii_of_nat 10)
  else if bool_decide (e = "r"%char) then Some (Ascii.ascii_of_nat 13)
  else if bool_decide (e = "t"%char) then Some (Ascii.ascii_of_nat 9)
  else None.

Definition prepend (s : string) (r : string * string) : string * string :=
  (s +:+ r.1, r.2).

(** The characters of a string literal, read from behind its opening
    quote up to the closing one, and the text behind that.  A control
    character, a quote or a backslash stands in a literal only escaped. *)
Fixpoint read_chars (s : string) : option (string * string) :=
  match s with
  | EmptyString => None
  | String.String c rest =>
      if bool_decide (c = dquote_char) then Some (EmptyString, rest)
      else if bool_decide (c = backslash) then
        match rest with
        | EmptyString => None
        | String.String e rest =>
            match short_escape e with
            | Some c => prepend (String.String c EmptyString) <$> read_chars rest
            | None =>
                if bool_decide (e = "u"%char) then
                  match rest with
                  | String.String h1 (String.String h2 (String.String h3 (String.String h4 rest))) =>
                      match hex_value h1, hex_value h2, hex_value h3, hex_value h4 with
                      | Some v1, Some v2, Some v3, Some v4 =>
                          prepend (utf8 (((v1 * 16 + v2) * 16 + v3) * 16 + v4))
                            <$> read_chars rest
                      | _, _, _, _ => None
                      end
                  | _ => None
                  end
                else None
            end
        end
      else if Ascii.nat_of_ascii c <? 32 then None
      else prepend (String.String c EmptyString) <$> read_chars rest
  end.

(** [s] without the leading [word], if it starts with it. *)
Fixpoint strip (word s : string) : option string :=
  match word, s with
  | EmptyString, _ => Some s
  | String.String w word, String.String c s =>
      if bool_decide (w = c) then strip word s else None
  | _, _ => None
  end.

(** The longest run of number characters at the start of [s], and the
    text behind it. *)
Fixpoint span_number (s : string) : string * string :=
  match s with
  | EmptyString => (EmptyString, EmptyString)
  | String.String c rest =>
      if number_char c then prepend (String.String c EmptyString) (span_number rest)
      else (EmptyString, s)
  end.

(** A value at the start of [s], and the text behind it; the elements of an
    array up to its closing bracket; the members of an object up to its
    closing brace.  [fuel] bounds the nesting and the number of elements. *)
Fixpoint parse_value (fuel : nat) (s : string) {struct fuel} : option (Json * string) :=
  match fuel with
  | O => None
  | S fuel =>
      match s with
      | EmptyString => None
      | String.String c rest =>
          if bool_decide (c = dquote_char) then
            (λ r, (JString r.1, r.2)) <$> read_chars rest
          else if bool_decide (c = "["%char) then
            match strip "]" rest with
            | Some rest => Some (JArray [], rest)
            | None => (λ r, (JArray r.1, r.2)) <$> parse_elements fuel rest
            end
          else if bool_decide (c = "{"%char) then
            match strip "}" rest with
            | Some rest => Some (JObject [], rest)
            | None => (λ r, (JObject r.1, r.2)) <$> parse_members fuel rest
            end
          else if number_char c then
            let r := span_number s in
            if json_number r.1 then Some (JNumber r.1, r.2) else None
          else
            match strip "null" s, strip "true" s, strip "false" s with
            | Some rest, _, _ => Some (JNull, rest)
            | _, Some rest, _ => Some (JBool true, rest)
            | _, _, Some rest => Some (JBool false, rest)
            | _, _, _ => None
            end
      end
  end
with parse_elements (fuel : nat) (s : string) {struct fuel}
  : option (list Json * string) :=
  match fuel with
  | O => None
  | S fuel =>
      match parse_value fuel s with
      | Some (j, String.String c rest) =>
          if bool_decide (c = ","%char) then
            (λ r, (j :: r.1, r.2)) <$> parse_elements fuel rest
          else if bool_decide (c = "]"%char) then Some ([j], rest)
          else None
      | _ => None
      end
  end
with parse_members (fuel : nat) (s : string) {struct fuel}
  : option (list (string * Json) * string) :=
  match fuel with
  | O => None
  | S fuel =>
      match s with
      | String.String q rest =>
          if bool_decide (q = dquote_char) then
            match read_chars rest with
            | Some (key, String.String colon rest) =>
                if bool_decide (colon = ":"%char) then
                  match parse_value fuel rest with
                  | Some (j, String.String c rest) =>
                      if bool_decide (c = ","%char) then
                        (λ r, ((key, j) :: r.1, r.2)) <$> parse_members fuel rest
                      else if bool_decide (c = "}"%char) then Some ([(key, j)], rest)
                      else None
                  | _ => None
                  end
                else None
            | _ => None
            end
          else None
      | EmptyString => None
      end
  end.

(** The structure the whole of [text] stands for, if [text] is a JSON
    text. *)
Definition parse (text : string) : option Json :=
  match parse_value (S (String.length text)) text with
  | Some (j, EmptyString) => Some j
  | _ => None
  end.

(** [rest] does not go on with a number: a number before it ends where it
    ends. *)
Definition delimited (rest : string) : bool :=
  match rest with
  | EmptyString => true
  | String.String c _ => negb (number_char c)
  end.

(** [text] is a text for [j] wherever it stands: read with enough fuel and
    with anything behind it that does not go on with a number, it gives
    [j] and leaves what is behind it. *)
Definition reads_as (text : string) (j : Json) : Prop :=
  ∀ fuel rest,
    String.length text < fuel → delimited rest = true →
    parse_value fuel (text +:+ rest) = Some (j, rest).

Section serializer.
Context `{NativeTypes}.
(** How the engine prints a finite number. *)
Variable number_json : double → string.

(** ** The serializer *)

Definition hex_digit (n : nat) : Ascii.ascii :=
  Ascii.ascii_of_nat (if n <? 10 then 48 + n else 87 + n).

(** A character inside a string literal: the quote and the backslash
    behind a backslash, a control character as its four-digit escape. *)
Definition escape_char (c : Ascii.ascii) : string :=
  if bool_decide (c = dquote_char) || bool_decide (c = backslash) then
    String.String backslash (String.String c EmptyString)
  else if Ascii.nat_of_ascii c <? 32 then
    "\u00" +:+ String.String (hex_digit (Ascii.nat_of_ascii c / 16))
                 (String.String (hex_digit (Ascii.nat_of_ascii c mod 16)) EmptyString)
  else String.String c EmptyString.

Fixpoint escape (s : string) : string :=
  match s with
  | EmptyString => EmptyString
  | String.String c rest => escape_char c +:+ escape rest
  end.

Definition quoted (s : string) : string := dquote +:+ escape s +:+ dquote.

(** A member of an object: the name, a colon, the text of the value. *)
Definition member (key text : string) : string := quoted key +:+ ":" +:+ text.

Fixpoint join (sep : string) (parts : list string) : string :=
  match parts with
  | [] => EmptyString
  | [x] => x
  | x :: rest => x +:+ sep +:+ join sep rest
  end.

(** The slots of an array, in index order; a hole reads as undefined. *)
Definition array_slots (length : N) (elements : gmap N Stored) : list Stored :=
  (λ i : nat, default st_undefined (elements !! N.of_nat i)) <$> seq 0 (N.to_nat length).

(** A slot that has no JSON text of its own: it is left out of an object
    and reads as null in an array. *)
Definition unprintable (s : Stored) : bool :=
  match s with
  | st_undefined | st_ref SymbolKind _ => true
  | _ => false
  end.

(** The properties of an object that are printed. *)
Definition printed (properties : gmap string Stored) : list (string * Stored) :=
  filter (λ m, unprintable m.2 = false) (map_to_list properties).

(** The slots the walk descends into: the elements of an array below its
    length, the values of the printed properties of an object. *)
Definition slots (x : Entity) : list Stored :=
  match x with
  | ArrayEntity length elements => array_slots length elements
  | ObjectEntity properties => (printed properties).*2
  | _ => []
  end.

(** The text of a composite, from the texts of its slots. *)
Definition render (x : Entity) (texts : list string) : string :=
  match x with
  | ArrayEntity _ _ => "[" +:+ join "," texts +:+ "]"
  | ObjectEntity properties =>
      "{" +:+ join "," (zip_with member (printed properties).*1 texts) +:+ "}"
  | _ => "{}"
  end.

Definition cyclic_structure : JSError :=
  mkJSError SerializationError "cyclic structure".

(** Walk the slots in order, stopping at the first one that does not
    return. *)
Fixpoint walk_all (walk : Stored → option (Outcome string)) (l : list Stored)
  : option (Outcome (list string)) :=
  match l with
  | [] => Some (Return [])
  | s :: rest =>
      match walk s with
      | Some (Return text) =>
          match walk_all walk rest with
          | Some (Return texts) => Some (Return (text :: texts))
          | other => other
          end
      | Some (Throw e) => Some (Throw e)
      | Some Fault => Some Fault
      | Some Undef => Some Undef
      | None => None
      end
  end.

Section walk.
Variable σ : Engine.

(** Modelled from the spec: the structural walk of [toJSON].  Section 4.2:
    it performs a full structural walk and rejects cyclic reference graphs
    with a serialization error rather than looping forever.  [ancestors]
    are the composites the walk is inside of; meeting one of them again is
    the cycle.  A number that is not finite has no JSON text and prints as
    null.  [None]: the walk ran out of [fuel]. *)
Fixpoint walk (fuel : nat) (ancestors : list EntityId) (s : Stored)
  : option (Outcome string) :=
  match s with
  | st_undefined => Some (Return "null")
  | st_null => Some (Return "null")
  | st_boolean b => Some (Return (if b then "true" else "false"))
  | st_number d => Some (Return (if PrimFloat.is_finite d then number_json d else "null"))
  | st_ref StringKind e =>
      match entities σ !! e with
      | Some (StringEntity chars) => Some (Return (quoted chars))
      | _ => Some (Return "null")
      end
  | st_ref ObjectKind e =>
      if bool_decide (e ∈ ancestors) then Some (Throw cyclic_structure)
      else match entities σ !! e with
           | Some x =>
               match fuel with
               | O => None
               | S fuel =>
                   match walk_all (walk fuel (e :: ancestors)) (slots x) with
                   | Some (Return texts) => Some (Return (render x texts))
                   | Some (Throw err) => Some (Throw err)
                   | Some Fault => Some Fault
                   | Some Undef => Some Undef
                   | None => None
                   end
               end
           | None => Some (Return "null")
           end
  | st_ref _ _ => Some (Return "null")
  end.

(** The walk from the top, with one unit of fuel per entity of the engine. *)
Definition toJSON_stored (s : Stored) : Outcome string :=
  match walk (size (entities σ)) [] s with
  | Some o => o
  | None => Undef
  end.

(** [e'] sits in a slot the walk descends into from the composite [e]. *)
Definition descends (e e' : EntityId) : Prop :=
  ∃ x, entities σ !! e = Some x ∧ st_ref ObjectKind e' ∈ slots x.

(** ** The reference graph, and the structure of a value *)

(** What follows is stated on the entities themselves, not on the walk.
    [edge e e']: the object [e] has a property whose value is the object
    [e'], or the array [e] has it as an element below its length. *)
Definition edge (e e' : EntityId) : Prop :=
  match entities σ !! e with
  | Some (ObjectEntity properties) =>
      ∃ key, properties !! key = Some (st_ref ObjectKind e')
  | Some (ArrayEntity length elements) =>
      ∃ i, (i < length)%N ∧ elements !! i = Some (st_ref ObjectKind e')
  | _ => False
  end.

(** The composite [e] is reachable from the slot [s]. *)
Definition reaches (s : Stored) (e : EntityId) : Prop :=
  ∃ e0, s = st_ref ObjectKind e0 ∧ rtc edge e0 e.

(** The reference graph of [s] is cyclic: a composite reachable from [s]
    reaches itself. *)
Definition cyclic (s : Stored) : Prop :=
  ∃ e, reaches s e ∧ tc edge e e.

(** A slot whose value takes part in the structure of an object. *)
Definition has_text (s : Stored) : bool :=
  match s with
  | st_undefined => false
  | st_ref kind _ => negb (bool_decide (kind = SymbolKind))
  | _ => true
  end.

(** The structure of the value in slot [s], to the depth [fuel]: null for
    undefined, null, a number that is not finite, a symbol and a reference
    to nothing; the elements of an array below its length, a hole being
    null; the properties of an object in the order of the engine, those
    left out whose value is undefined or a symbol. *)
Fixpoint tree (fuel : nat) (s : Stored) : option Json :=
  match s with
  | st_boolean b => Some (JBool b)
  | st_number d =>
      Some (if PrimFloat.is_nan d || PrimFloat.is_infinity d then JNull
            else JNumber (number_json d))
  | st_ref StringKind e =>
      match entities σ !! e with
      | Some (StringEntity chars) => Some (JString chars)
      | _ => Some JNull
      end
  | st_ref ObjectKind e =>
      match entities σ !! e, fuel with
      | None, _ => Some JNull
      | Some _, O => None
      | Some (ArrayEntity length elements), S fuel =>
          JArray <$> mapM (λ i : nat,
                             match elements !! N.of_nat i with
                             | Some s => tree fuel s
                             | None => Some JNull
                             end) (seq 0 (N.to_nat length))
      | Some (ObjectEntity properties), S fuel =>
          JObject <$> mapM (λ m : string * Stored, pair m.1 <$> tree fuel m.2)
                        (filter (λ m, has_text m.2 = true) (map_to_list properties))
      | Some _, S _ => Some (JObject [])
      end
  | _ => Some JNull
  end.

(** The walk-side counterparts of [reaches] and [cyclic]. *)
Definition descends_to (s : Stored) (e : EntityId) : Prop :=
  ∃ e0, s = st_ref ObjectKind e0 ∧ rtc descends e0 e.
Definition loops (s : Stored) : Prop :=
  ∃ e, descends_to s e ∧ tc descends e e.
End walk.

(** Modelled from the spec: [Value::toJSON(context)], the walk of the
    entity graph behind the value (section 4.2).  A value whose handle is
    not live in this engine is a programming-error fault. *)
Definition Value_toJSON (this : Value) : M Engine string :=
  λ σ, match store σ this with
       | Some s => (toJSON_stored σ s, σ)
       | None => (Fault, σ)
       end.
End serializer.

End json.

(* ===================================================================== *)
(** * A concrete host on the reference engine *)
(* ===================================================================== *)

Module demo.
Import jsa reference.

(** [HostObject], a node record derived from it, a text-node record derived
    from the node record, and an unrelated timer record. *)
Inductive HostClass := cHostObject | cNodeRecord | cTextNodeRecord | cTimerRecord.

#[export] Instance HostClass_eq_dec : EqDecision HostClass.
Proof. solve_decision. Defined.

Definition HostClass_derives (U T : HostClass) : bool :=
  match T, U with
  | cHostObject, _ => true
  | cNodeRecord, (cNodeRecord | cTextNodeRecord) => true
  | cTextNodeRecord, cTextNodeRecord => true
  | cTimerRecord, cTimerRecord => true
  | _, _ => false
  end.

#[export] Instance host_classes : NativeTypes := {|
  NativeType := HostClass;
  HostObject_t := cHostObject;
  derives_from := HostClass_derives;
  derives_from_HostObject := λ U, eq_refl;
|}.

(** An engine with one array of length two, and the wrapper for it. *)
Definition two_slots : Outcome Array * Engine := Array_new 2 empty_engine.
Definition two_slots_array : Array := wrap (Some 1%positive).
Definition two_slots_engine : Engine := two_slots.2.

(** A text-node record at native address 7, the object created from it, and
    a plain object created next. *)
Definition text_record : HostRef := mkHostRef 7 cTextNodeRecord.
Definition text_backed : Outcome Object * Engine :=
  Object_createFromHostObject (Some text_record) empty_engine.
Definition text_object : Object := wrap (Some 1%positive).
Definition plain : Outcome Object * Engine := Object_new text_backed.2.
Definition plain_object : Object := wrap (Some 2%positive).
Definition host_engine : Engine := plain.2.

(** The array of [two_slots] with itself stored in slot 0, and, apart from
    it, the same array with the number 7 in slot 0. *)
Definition ring : Outcome unit * Engine :=
  Array_setValueAtIndex two_slots_array 0 (arg_Object (Array_base two_slots_array))
    two_slots_engine.
Definition flat : Outcome unit * Engine :=
  Array_setValueAtIndex two_slots_array 0 (arg_int 7) two_slots_engine.
Definition two_slots_value : Value := object_value (Some 1%positive).

(** A number printer for the examples: every number prints as [7]. *)
Definition print_seven (d : double) : string := "7".

(** A string of a letter, a double quote, a backslash and a line feed. *)
Definition awkward : string :=
  String.String "a"
    (String.String (Ascii.ascii_of_nat 34)
       (String.String (Ascii.ascii_of_nat 92)
          (String.String (Ascii.ascii_of_nat 10) EmptyString))).

(** An engine with one object, which has that string as its property q
    and an undefined property u, and the value for the object. *)
Definition labelled : Engine :=
  mkEngine
    (<[1%positive := ObjectEntity (<["q" := st_ref StringKind 2%positive]>
                                     (<["u" := st_undefined]> ∅))]>
       (<[2%positive := StringEntity awkward]> ∅))
    (<[1%positive := 1%positive]> ∅).
Definition labelled_value : Value := object_value (Some 1%positive).

End demo.

(* ===================================================================== *)
(** * The TextNode binding (bindings/jsc/DOM/text_node.cc) *)
(* ===================================================================== *)

Module textnode.

(** A function that must return a value either returns one, or lets
    control flow off its end. *)
Inductive Flow (A : Type) : Type :=
| returned (a : A)
| flowed_off_end.
Arguments returned {A} a.
Arguments flowed_off_end {A}.

Definition is_returned {A} (r : Flow A) : bool :=
  match r with returned _ => true | flowed_off_end => false end.

Section TextNodeInstance.
(** The JavaScriptCore C API, an external library. *)
Context {JSContextRef JSStringRef JSValueRef : Type}.
Variable JSValueMakeString : JSContextRef → JSStringRef → JSValueRef.
Variable JSStringCreateWithUTF8CString : string → JSStringRef.

(** [enum TextNodeProperty] is declared in [text_node.h], which is not part
    of the sources at hand: the type, the three enumerators the source
    names, and the value-initialized value [TextNodeProperty{}]. *)
Context {TextNodeProperty : Type} `{EqDecision TextNodeProperty}.
Variables kData kTextContent kNodeName : TextNodeProperty.
Variable TextNodeProperty_zero : TextNodeProperty.

(** The out-parameter [JSValueRef *exception]: what it points to. *)
Definition Exception := option JSValueRef.

(** [JSNode::NodeInstance::getProperty], the base class member, defined
    outside the sources at hand: the value it returns and what it leaves in
    [*exception]. *)
Variable NodeInstance_getProperty : string → Exception → JSValueRef * Exception.

(** The members of [TextNodeInstance] that [getProperty] reads: [data] and
    [_hostClass->ctx]. *)
Record TextNodeInstance := mkTextNodeInstance {
  data : JSStringRef;
  hostClass_ctx : JSContextRef;
}.

(** [getTextNodePropertyMap()]: the static map. *)
Definition getTextNodePropertyMap : gmap string TextNodeProperty :=
  <["data" := kData]> (<["textContent" := kTextContent]> (<["nodeName" := kNodeName]> ∅)).

(** [std::unordered_map::contains]. *)
Definition contains {V} (m : gmap string V) (k : string) : bool :=
  bool_decide (is_Some (m !! k)).

(** [std::unordered_map::operator[]] on a local copy of the map, of which
    only the value is used: the mapped value, or a value-initialized one
    for a key that is absent. *)
Definition subscript (m : gmap string TextNodeProperty) (k : string) : TextNodeProperty :=
  default TextNodeProperty_zero (m !! k).

(** The [switch (property)] of [getProperty]: two cases that return, no
    [default]. *)
Definition property_switch (this : TextNodeInstance) (property : TextNodeProperty)
  : Flow JSValueRef :=
  if bool_decide (property = kTextContent) || bool_decide (property = kData) then
    returned (JSValueMakeString (hostClass_ctx this) (data this))
  else if bool_decide (property = kNodeName) then
    let nodeName := JSStringCreateWithUTF8CString "#text" in
    returned (JSValueMakeString (hostClass_ctx this) nodeName)
  else flowed_off_end.

(** [JSValueRef TextNodeInstance::getProperty(std::string &name, JSValueRef *exception)] *)
Definition TextNodeInstance_getProperty (this : TextNodeInstance) (name : string)
    (exception : Exception) : Flow (JSValueRef * Exception) :=
  let propertyMap := getTextNodePropertyMap in
  if negb (contains propertyMap name) then
    returned (NodeInstance_getProperty name exception)
  else
    let property := subscript propertyMap name in
    match property_switch this property with
    | returned v => returned (v, exception)
    | flowed_off_end => flowed_off_end
    end.

(** The names [getTextNodePropertyNames()] lists. *)
Definition text_node_property_names : list string := ["data"; "textContent"; "nodeName"].
End TextNodeInstance.

(** ** [JSTextNode::instance] (text_node.cc 16-22) *)

(** A [JSContext *]: an address, or null. *)
Definition JSContextPtr := option positive.
(** A [JSTextNode *]: an address, or null. *)
Definition JSTextNodePtr := option positive.

(** What [instance] acts on: its function-local static [instanceMap], and
    the addresses of the objects that are alive on the heap. *)
Record Process := mkProcess {
  instanceMap : gmap JSContextPtr JSTextNodePtr;
  live : gset positive;
}.

Definition start : Process := mkProcess ∅ ∅.

Section instance.
(** [operator new]: the address it returns given the live objects. *)
Variable allocate : gset positive → positive.

(** [new JSTextNode(context)]: the new object's address, and the heap with
    the object in it. *)
Definition new_JSTextNode (context : JSContextPtr) (s : Process) : JSTextNodePtr * Process :=
  let p := allocate (live s) in
  (Some p, mkProcess (instanceMap s) ({[p]} ∪ live s)).

(** [instanceMap[context]]: the mapped pointer; a key that is absent is
    inserted with a null pointer. *)
Definition instanceMap_subscript (context : JSContextPtr) (s : Process)
  : JSTextNodePtr * Process :=
  match instanceMap s !! context with
  | Some p => (p, s)
  | None => (None, mkProcess (<[context := None]> (instanceMap s)) (live s))
  end.

(** [JSTextNode *JSTextNode::instance(JSContext *context) {
       static std::unordered_map<JSContext *, JSTextNode *> instanceMap{};
       if (!instanceMap.contains(context)) {
         instanceMap[context] = new JSTextNode(context);
       }
       return instanceMap[context];
     }] *)
Definition instance (context : JSContextPtr) (s : Process) : JSTextNodePtr * Process :=
  let s :=
    if negb (bool_decide (is_Some (instanceMap s !! context))) then
      let '(p, s) := new_JSTextNode context s in
      mkProcess (<[context := p]> (instanceMap s)) (live s)
    else s in
  instanceMap_subscript context s.

(** What may happen between two calls: another call of [instance]; some
    other object is allocated; some other object, not one of the instances
    (the source never deletes a [JSTextNode]), is freed. *)
Inductive step : Process → Process → Prop :=
| step_instance c s : step s (instance c s).2
| step_allocate p s :
    p ∉ live s → step s (mkProcess (instanceMap s) ({[p]} ∪ live s))
| step_free p s :
    (∀ c, instanceMap s !! c ≠ Some (Some p)) →
    step s (mkProcess (instanceMap s) (live s ∖ {[p]})).

(** Every instance in the map is a live object, and no two contexts share
    one. *)
Definition instances_distinct (s : Process) : Prop :=
  (∀ c q, instanceMap s !! c = Some q → ∃ p, q = Some p ∧ p ∈ live s)
  ∧ (∀ c1 c2 q, instanceMap s !! c1 = Some q → instanceMap s !! c2 = Some q → c1 = c2).
End instance.

End textnode.

(* ===================================================================== *)
(** * More of js_type.h: names, C strings, variadic calls *)
(* ===================================================================== *)

Module jsa_more.
Import jsa.

(** ** C strings *)

(** The terminator of a C string. *)
Definition NUL : Ascii.ascii := Ascii.zero.

(** A [const char *] is modelled by the characters stored from the address
    it holds.  [strlen]: the number of characters before the first
    terminator; [None] when the scan finds none and leaves the buffer. *)
Fixpoint strlen (str : string) : option nat :=
  match str with
  | EmptyString => None
  | String.String c rest => if bool_decide (c = NUL) then Some 0 else S <$> strlen rest
  end.

(** [std::string::c_str()] and [data()]: the characters of the string,
    then a terminator. *)
Definition c_str (s : string) : string := s +:+ String.String NUL EmptyString.

(** The first [length] characters at [str]: what a callee given
    [(str, length)] reads. *)
Fixpoint first_chars (length : nat) (str : string) : string :=
  match length, str with
  | S n, String.String c rest => String.String c (first_chars n rest)
  | _, _ => EmptyString
  end.

Fixpoint has_NUL (s : string) : bool :=
  match s with
  | EmptyString => false
  | String.String c rest => bool_decide (c = NUL) || has_NUL rest
  end.

(** ** [PropNameID] (js_type.h 41-100) and [String] (js_type.h 130-180) *)

(** The slice of [JSContext] that creates property names. *)
Class PropNameOps (Σ : Type) := {
  createPropNameIDFromAscii : string → M Σ PropNameID;
  createPropNameIDFromUtf8 : string → M Σ PropNameID;
  createPropNameIDFromString : String → M Σ PropNameID;
}.

Section creation.
Context `{PropNameOps Σ, StringOps Σ}.

(** [static PropNameID forAscii(context, const char *str, size_t length)
      { return context.createPropNameIDFromAscii(str, length); }] *)
Definition PropNameID_forAscii (str : string) (length : nat) : M Σ PropNameID :=
  createPropNameIDFromAscii (first_chars length str).

(** [static PropNameID forAscii(context, const char *str)
      { return forAscii(context, str, strlen(str)); }] *)
Definition PropNameID_forAscii_cstr (str : string) : M Σ PropNameID :=
  match strlen str with
  | Some length => PropNameID_forAscii str length
  | None => lift Undef
  end.

(** [static PropNameID forAscii(context, const std::string &str)
      { return forAscii(context, str.c_str(), str.size()); }] *)
Definition PropNameID_forAscii_string (str : string) : M Σ PropNameID :=
  PropNameID_forAscii (c_str str) (String.length str).

(** [static PropNameID forUtf8(context, const uint8_t *utf8, size_t length)
      { return context.createPropNameIDFromUtf8(utf8, length); }] *)
Definition PropNameID_forUtf8 (utf8 : string) (length : nat) : M Σ PropNameID :=
  createPropNameIDFromUtf8 (first_chars length utf8).

(** [static PropNameID forUtf8(context, const std::string &utf8)
      { return context.createPropNameIDFromUtf8(utf8.data(), utf8.size()); }] *)
Definition PropNameID_forUtf8_string (utf8 : string) : M Σ PropNameID :=
  createPropNameIDFromUtf8 (first_chars (String.length utf8) (c_str utf8)).

(** [static PropNameID forString(context, const jsa::String &str)
      { return context.createPropNameIDFromString(str); }] *)
Definition PropNameID_forString (str : String) : M Σ PropNameID :=
  createPropNameIDFromString str.

(** [static String createFromAscii(context, const char *str, size_t length)
      { return context.createStringFromAscii(str, length); }] *)
Definition String_createFromAscii_length (str : string) (length : nat) : M Σ String :=
  createStringFromAscii (first_chars length str).

(** [static String createFromAscii(context, const char *str)
      { return createFromAscii(context, str, strlen(str)); }] *)
Definition String_createFromAscii_cstr (str : string) : M Σ String :=
  match strlen str with
  | Some length => String_createFromAscii_length str length
  | None => lift Undef
  end.

(** [static String createFromAscii(context, const std::string &str)
      { return createFromAscii(context, str.c_str(), str.size()); }] *)
Definition String_createFromAscii_string (str : string) : M Σ String :=
  String_createFromAscii_length (c_str str) (String.length str).

(** The argument of the overloaded [detail::toPropNameID], by overload:
    a C string, a [std::string], a [PropNameID] rvalue. *)
Inductive ToPropNameArg :=
| name_cstr (name : string)
| name_std_string (name : string)
| name_PropNameID (name : PropNameID).

(** [toPropNameID(context, const char *name)
      { return PropNameID::forAscii(context, name); }]
    [toPropNameID(context, const std::string &name)
      { return PropNameID::forUtf8(context, name); }]
    [toPropNameID(JSContext &, PropNameID &&name) { return std::move(name); }] *)
Definition toPropNameID (a : ToPropNameArg) : M Σ PropNameID :=
  match a with
  | name_cstr name => PropNameID_forAscii_cstr name
  | name_std_string name => PropNameID_forUtf8_string name
  | name_PropNameID name => ret name
  end.
End creation.

(** [template <size_t N> std::vector<PropNameID> names(PropNameID(&&propertyNames)[N])
      { std::vector<PropNameID> result; result.reserve(N);
        for (auto &name : propertyNames) { result.push_back(std::move(name)); }
        return result; }]
    The loop over the elements not yet visited, with the vector built so
    far; it returns the vector and the visited elements as they are left. *)
Fixpoint names_loop (propertyNames result : list PropNameID)
  : list PropNameID * list PropNameID :=
  match propertyNames with
  | [] => (result, [])
  | name :: rest =>
      let '(pushed, name) := move_construct name in
      let '(result, rest) := names_loop rest (result ++ [pushed]) in
      (result, name :: rest)
  end.

Definition PropNameID_names (propertyNames : list PropNameID)
  : list PropNameID * list PropNameID :=
  names_loop propertyNames [].

(** Destroying every element of an array or vector of wrappers. *)
Definition destroy_all `{PointerDerived T} {Σ} (invalidate : PointerValue → Σ → Σ)
    (l : list T) (σ : Σ) : Σ :=
  foldr (destroy invalidate) σ l.

(** ** Variadic calls (js_type.h 1061-1066, 1076-1082, 1109-1111) *)

(** The kind of the [Value] an argument converts to. *)
Definition expected_kind (a : ToValueArg) : ValueKind :=
  match a with
  | arg_nullptr => NullKind
  | arg_bool _ => BooleanKind
  | arg_double _ | arg_float _ | arg_int _ => NumberKind
  | arg_cstr _ | arg_std_string _ | arg_String _ => StringKind
  | arg_Symbol _ => SymbolKind
  | arg_Object _ => ObjectKind
  | arg_Value v | arg_Value_rv v => kind_ v
  end.

Section variadic.
Context `{HandleOps Σ, StringOps Σ, CallOps Σ}.
Open Scope jsa_scope.

(** The braced list [{detail::toValue(context, std::forward<Args>(args))...}]
    that the variadic overloads pass on: the arguments are converted from
    left to right into the elements of the list, [k] runs while the
    elements are alive, and the elements are destroyed afterwards, last
    one first, also when a later conversion or [k] throws.  (An element
    built from a [Value &&] takes that value's handle; the caller's object
    is left moved-from.) *)
Fixpoint with_values {A} (args : list ToValueArg) (k : list Value → M Σ A) : M Σ A :=
  match args with
  | [] => k []
  | a :: rest =>
      let* v := toValue a in
      finally (with_values rest (λ vs, k (v :: vs))) (Value_dtor v)
  end.

(** The conversions alone, in order. *)
Fixpoint toValues (args : list ToValueArg) : M Σ (list Value) :=
  match args with
  | [] => ret []
  | a :: rest =>
      let* v := toValue a in
      let* vs := toValues rest in
      ret (v :: vs)
  end.

(** [template <typename... Args> Value Function::call(context, Args &&... args) const
      { return call(context, {detail::toValue(context, std::forward<Args>(args))...}); }] *)
Definition Function_call_variadic (this : Function) (args : list ToValueArg) : M Σ Value :=
  with_values args (Function_call_list this).

(** [template <typename... Args>
     Value Function::callWithThis(context, const Object &jsThis, Args &&... args) const
      { return callWithThis(context, jsThis, {detail::toValue(context, ...)...}); }] *)
Definition Function_callWithThis_variadic (this : Function) (jsThis : Object)
    (args : list ToValueArg) : M Σ Value :=
  with_values args (Function_callWithThis_list this jsThis).

(** [template <typename... Args>
     Value Function::callAsConstructor(context, Args &&... args) const
      { return callAsConstructor(context, {detail::toValue(context, ...)...}); }] *)
Definition Function_callAsConstructor_variadic (this : Function) (args : list ToValueArg)
  : M Σ Value :=
  with_values args (Function_callAsConstructor_list this).
End variadic.

(** An adapter that only keeps the texts it is asked to make names and
    strings of, in order, and answers with the handle [probe_key]. *)
Definition Texts := list string.

#[export] Instance texts_names : PropNameOps Texts := {|
  createPropNameIDFromAscii str := λ log, (Return (wrap (Some probe.probe_key)), log ++ [str]);
  createPropNameIDFromUtf8 str := λ log, (Return (wrap (Some probe.probe_key)), log ++ [str]);
  createPropNameIDFromString str := ret (wrap (Some probe.probe_key));
|}.
#[export] Instance texts_strings : StringOps Texts := {|
  createStringFromAscii str := λ log, (Return (wrap (Some probe.probe_key)), log ++ [str]);
|}.

(** The elements of the braced list die at the end of the full expression,
    last one first. *)
Definition destroy_values `{HandleOps Σ} (vs : list Value) (σ : Σ) : Σ :=
  foldr Value_dtor σ vs.

End jsa_more.

(* ===================================================================== *)
(** * More of text_node.cc: construction, setProperty, names, binding *)
(* ===================================================================== *)

Module textnode_more.
Import textnode.

(** The two command types the file registers; their values are defined
    with the command queue, outside the sources at hand. *)
Inductive UICommand := UI_COMMAND_CREATE_TEXT_NODE | UI_COMMAND_SET_PROPERTY.

Section TextNodeInstance_members.
(** The JavaScriptCore C API.  A [JSStringRef] is a pointer to a string
    object: [None] is the null pointer. *)
Context {JSContextRef JSValueRef JSObjectRef OpaqueJSString : Type}.
Context `{EqDecision OpaqueJSString}.
Local Abbreviation JSStringRef := (option OpaqueJSString).
Variable JSValueMakeString : JSContextRef → JSStringRef → JSValueRef.
Variable JSStringCreateWithUTF8CString : string → JSStringRef.
(** [JSValueToStringCopy(ctx, value, exception)]: the string it returns
    and what it leaves in [*exception]. *)
Variable JSValueToStringCopy :
  JSContextRef → JSValueRef → option JSValueRef → JSStringRef * option JSValueRef.

(** Helpers of the bridge that are defined outside the sources at hand. *)
Context {UICommandArgs : Type}.
Variable JSStringToStdString : JSStringRef → string.
Variable buildUICommandArgs : string → UICommandArgs.
(** [JSNode::NodeInstance::setProperty]: what it leaves in [*exception]. *)
Variable NodeInstance_setProperty : string → JSValueRef → option JSValueRef → option JSValueRef.
(** [JSNode::NodeInstance::getPropertyNames]: the accumulator after it. *)
Variable NodeInstance_getPropertyNames : list JSStringRef → list JSStringRef.

(** The members a [TextNodeInstance] inherits and this file reads:
    [eventTargetId], [_hostClass->contextId], [nativeNode], [object]. *)
Record NodeMembers := mkNodeMembers {
  eventTargetId : Z;
  contextId : Z;
  nativeNode : positive;
  object : JSObjectRef;
}.

(** A [TextNodeInstance]: the inherited members, [data] and
    [_hostClass->ctx], and the [nativeTextNode] pointer. *)
Record TextNode := mkTextNode {
  inherited : NodeMembers;
  own : @TextNodeInstance JSContextRef JSStringRef;
  nativeTextNode : positive;
}.

(** What the member functions do to their collaborators, in order. *)
Inductive Effect :=
| eff_JSStringRetain (s : JSStringRef)
| eff_JSStringRelease (s : JSStringRef)
| eff_new_NativeTextNode (nativeNode at_ : positive)
| eff_delete_NativeTextNode (p : positive)
| eff_registerCommand (contextId id : Z) (type : UICommand) (args : UICommandArgs)
    (length : Z) (nativePtr : option positive)
| eff_NodeInstance_setProperty (name : string) (value : JSValueRef).

Definition set_data (this : TextNode) (d : JSStringRef) : TextNode :=
  mkTextNode (inherited this) (mkTextNodeInstance d (hostClass_ctx (own this)))
             (nativeTextNode this).

(** [TextNodeInstance::TextNodeInstance(JSTextNode *jsTextNode, JSStringRef data)
      : NodeInstance(jsTextNode, NodeType::TEXT_NODE),
        nativeTextNode(new NativeTextNode(nativeNode)), data(JSStringRetain(data)) {
      std::string dataString = JSStringToStdString(data);
      auto args = buildUICommandArgs(dataString);
      foundation::UICommandTaskMessageQueue::instance(_hostClass->contextId)
        ->registerCommand(eventTargetId, UI_COMMAND_CREATE_TEXT_NODE, args, 1, nativeTextNode);
    }]
    [base]: what the base class constructor set up; [ctx]: [_hostClass->ctx];
    [at_]: the address [new NativeTextNode] returns.  [JSStringRetain]
    returns its argument.  The two members are initialized in the order in
    which [text_node.h] declares them; that file is not part of the sources
    at hand, and the order of the initializer list is taken. *)
Definition TextNodeInstance_new (base : NodeMembers) (ctx : JSContextRef) (at_ : positive)
    (data : JSStringRef) (log : list Effect) : TextNode * list Effect :=
  let log := log ++ [eff_new_NativeTextNode (nativeNode base) at_] in
  let log := log ++ [eff_JSStringRetain data] in
  let this := mkTextNode base (mkTextNodeInstance data ctx) at_ in
  let dataString := JSStringToStdString data in
  let args := buildUICommandArgs dataString in
  let log :=
    log ++ [eff_registerCommand (contextId base) (eventTargetId base)
              UI_COMMAND_CREATE_TEXT_NODE args 1 (Some at_)] in
  (this, log).

(** [JSObjectRef JSTextNode::instanceConstructor(JSContextRef ctx, JSObjectRef constructor,
        size_t argumentCount, const JSValueRef *arguments, JSValueRef *exception) {
      const JSValueRef dataValueRef = arguments[0];
      auto textNode = new TextNodeInstance(this, JSValueToStringCopy(ctx, dataValueRef, exception));
      return textNode->object;
    }]
    [arguments] is the array of [argumentCount] values; reading past it has
    no defined result.  Returns the object, the instance, [*exception] and
    the effects. *)
Definition JSTextNode_instanceConstructor (base : NodeMembers) (hostCtx : JSContextRef)
    (at_ : positive) (ctx : JSContextRef) (arguments : list JSValueRef)
    (exception : option JSValueRef) (log : list Effect)
  : Outcome (JSObjectRef * TextNode * option JSValueRef * list Effect) :=
  match arguments !! 0%nat with
  | Some dataValueRef =>
      let '(copy, exception) := JSValueToStringCopy ctx dataValueRef exception in
      let '(textNode, log) := TextNodeInstance_new base hostCtx at_ copy log in
      Return (object (inherited textNode), textNode, exception, log)
  | None => Undef
  end.

(** [void TextNodeInstance::setProperty(std::string &name, JSValueRef value,
                                        JSValueRef *exception) {
      if (name == ...data...) {
        if (data != nullptr) { JSStringRelease(data); }
        data = JSValueToStringCopy(_hostClass->ctx, value, exception);
        JSStringRetain(data);
        std::string dataString = JSStringToStdString(data);
        auto args = buildUICommandArgs(dataString);
        foundation::UICommandTaskMessageQueue::instance(_hostClass->contextId)
          ->registerCommand(eventTargetId, UI_COMMAND_SET_PROPERTY, args, 2, nullptr);
      }
      JSNode::NodeInstance::setProperty(name, value, exception);
    }] *)
Definition TextNodeInstance_setProperty (this : TextNode) (name : string)
    (value : JSValueRef) (exception : option JSValueRef) (log : list Effect)
  : TextNode * option JSValueRef * list Effect :=
  let '(this, exception, log) :=
    if bool_decide (name = "data") then
      let log :=
        if bool_decide (data (own this) ≠ None)
        then log ++ [eff_JSStringRelease (data (own this))] else log in
      let '(copy, exception) :=
        JSValueToStringCopy (hostClass_ctx (own this)) value exception in
      let this := set_data this copy in
      let log := log ++ [eff_JSStringRetain (data (own this))] in
      let dataString := JSStringToStdString (data (own this)) in
      let args := buildUICommandArgs dataString in
      let log :=
        log ++ [eff_registerCommand (contextId (inherited this))
                  (eventTargetId (inherited this)) UI_COMMAND_SET_PROPERTY args 2 None] in
      (this, exception, log)
    else (this, exception, log) in
  let log := log ++ [eff_NodeInstance_setProperty name value] in
  (this, NodeInstance_setProperty name value exception, log).

(** [TextNodeInstance::~TextNodeInstance() {
      delete nativeTextNode;
      if (data != nullptr) JSStringRelease(data);
    }] *)
Definition TextNodeInstance_dtor (this : TextNode) (log : list Effect) : list Effect :=
  let log := log ++ [eff_delete_NativeTextNode (nativeTextNode this)] in
  if bool_decide (data (own this) ≠ None)
  then log ++ [eff_JSStringRelease (data (own this))] else log.

(** [JSStringRef TextNodeInstance::internalTextContent() { return data; }] *)
Definition TextNodeInstance_internalTextContent (this : TextNode) : JSStringRef :=
  data (own this).

(** [getTextNodePropertyNames()]: the static array of three strings. *)
Definition getTextNodePropertyNames : list JSStringRef :=
  JSStringCreateWithUTF8CString <$> text_node_property_names.

(** [void TextNodeInstance::getPropertyNames(JSPropertyNameAccumulatorRef accumulator) {
      NodeInstance::getPropertyNames(accumulator);
      for (auto &property : getTextNodePropertyNames()) {
        JSPropertyNameAccumulatorAddName(accumulator, property);
      }
    }]
    The accumulator is the list of the names added so far. *)
Definition TextNodeInstance_getPropertyNames (accumulator : list JSStringRef)
  : list JSStringRef :=
  foldl (λ accumulator property, accumulator ++ [property])
        (NodeInstance_getPropertyNames accumulator) getTextNodePropertyNames.

(** A sequence of [setProperty] calls on one instance. *)
Definition set_properties (calls : list (string * JSValueRef))
    (start : TextNode * option JSValueRef * list Effect)
  : TextNode * option JSValueRef * list Effect :=
  foldl (λ '(this, exception, log) '(name, value),
           TextNodeInstance_setProperty this name value exception log)
        start calls.

(** The life of an instance: construction, some [setProperty] calls,
    destruction.  The effects, in order. *)
Definition lifetime (base : NodeMembers) (ctx : JSContextRef) (at_ : positive)
    (data : JSStringRef) (calls : list (string * JSValueRef)) : list Effect :=
  let '(this, log) := TextNodeInstance_new base ctx at_ data [] in
  let '(this, _, log) := set_properties calls (this, None, log) in
  TextNodeInstance_dtor this log.

(** Whether an effect retains, or releases, the string object [s]. *)
Definition is_retain_of (s : OpaqueJSString) (e : Effect) : bool :=
  match e with
  | eff_JSStringRetain (Some s') => bool_decide (s' = s)
  | _ => false
  end.
Definition is_release_of (s : OpaqueJSString) (e : Effect) : bool :=
  match e with
  | eff_JSStringRelease (Some s') => bool_decide (s' = s)
  | _ => false
  end.

(** How often [s] is retained, and released, in [log]. *)
Definition retains (s : OpaqueJSString) (log : list Effect) : nat :=
  length (filter (λ e, is_retain_of s e = true) log).
Definition releases (s : OpaqueJSString) (log : list Effect) : nat :=
  length (filter (λ e, is_release_of s e = true) log).

(** The commands registered in [log], by type. *)
Definition commands (log : list Effect) : list UICommand :=
  omap (λ e, match e with
             | eff_registerCommand _ _ type _ _ _ => Some type
             | _ => None
             end) log.
End TextNodeInstance_members.

(** ** [bindTextNode] (text_node.cc 11-14) *)

(** What [JSC_GLOBAL_SET_PROPERTY] is asked to do: set the global
    [property_name] of [on_context] from the class object of the
    [JSTextNode] at [from].  The macro is defined outside the sources at
    hand. *)
Record GlobalSet := mkGlobalSet {
  on_context : JSContextPtr;
  property_name : string;
  from : JSTextNodePtr;
}.

Section bindTextNode.
Variable allocate : gset positive → positive.

(** [void bindTextNode(std::unique_ptr<JSContext> &context) {
      auto textNode = JSTextNode::instance(context.get());
      JSC_GLOBAL_SET_PROPERTY(context, ...TextNode..., textNode->classObject);
    }] *)
Definition bindTextNode (context : JSContextPtr) (s : Process * list GlobalSet)
  : Process * list GlobalSet :=
  let '(textNode, p) := instance allocate context s.1 in
  (p, s.2 ++ [mkGlobalSet context "TextNode" textNode]).

(** Binding one context after the other. *)
Definition bind_all (contexts : list JSContextPtr) (s : Process * list GlobalSet)
  : Process * list GlobalSet :=
  foldl (λ s context, bindTextNode context s) s contexts.
End bindTextNode.

End textnode_more.

(* ===================================================================== *)
(** * Properties of the value and handle layer *)
(* ===================================================================== *)

Module jsa_facts.
Import jsa probe.

(** ** Handles: moves and destruction *)

Lemma handle_wrap `{PointerDerived T} (ptr : option PointerValue) :
  handle (wrap (T:=T) ptr) = ptr.
Proof. unfold handle, wrap. by rewrite to_from_Pointer. Qed.

Lemma wrap_handle `{PointerDerived T} (t : T) : wrap (handle t) = t.
Proof.
  unfold handle, wrap, Pointer_of.
  rewrite <- (from_to_Pointer t) at 2. by destruct (to_Pointer t).
Qed.

Lemma move_construct_spec `{PointerDerived T} (a : T) :
  move_construct a = (a, wrap None).
Proof.
  unfold move_construct, Pointer_move, wrap, Pointer_of. f_equal.
  rewrite <- (from_to_Pointer a) at 2. by destruct (to_Pointer a).
Qed.

Lemma destroy_empty `{PointerDerived T} {Σ} (inv : PointerValue → Σ → Σ) (σ : Σ) :
  destroy inv (wrap (T:=T) None) σ = σ.
Proof. unfold destroy, Pointer_dtor. fold (handle (wrap (T:=T) None)). by rewrite handle_wrap. Qed.

Lemma destroy_holder `{PointerDerived T} {Σ} (inv : PointerValue → Σ → Σ) h (σ : Σ) :
  destroy inv (wrap (T:=T) (Some h)) σ = inv h σ.
Proof. unfold destroy, Pointer_dtor. fold (handle (wrap (T:=T) (Some h))). by rewrite handle_wrap. Qed.

Lemma move_assign_spec `{PointerDerived T} {Σ} (inv : PointerValue → Σ → Σ)
    (dst a : T) (σ : Σ) :
  move_assign inv dst a σ = (a, wrap None, destroy inv dst σ).
Proof.
  unfold move_assign, Pointer_move_assign, destroy, wrap, Pointer_of.
  repeat f_equal.
  rewrite <- (from_to_Pointer a) at 2. by destruct (to_Pointer a).
Qed.

Lemma invalidations_cons_eq p j :
  invalidations p (journal_invalidate p j) = S (invalidations p j).
Proof. unfold invalidations, journal_invalidate. by rewrite filter_cons_True. Qed.

Lemma invalidations_cons_ne p q j :
  q ≠ p → invalidations p (journal_invalidate q j) = invalidations p j.
Proof. intros. unfold invalidations, journal_invalidate. by rewrite filter_cons_False. Qed.

(** C2.  For every wrapper type derived from [Pointer] and every wrapper [a]:
    move construction hands [a]'s handle to the new wrapper and leaves [a]
    with a null [ptr_], and so does move assignment to a wrapper [dst]; in
    both cases destroying the moved-from [a] changes nothing in the engine.
    Destroying a wrapper that holds [h] is one call of [invalidate] on [h]:
    in the journal of such calls the count of [h] grows by exactly one and
    no other count changes; and over the whole life of a moved handle
    (construct [b] from [a], destroy [a], destroy [b]) [h] is invalidated
    exactly once. *)
Theorem C2_move_and_destroy `{PointerDerived T} {Σ} (inv : PointerValue → Σ → Σ)
    (a dst : T) (h h' : PointerValue) (σ : Σ) (j : journal) :
  (let '(b, a') := move_construct a in
   handle b = handle a ∧ b = a ∧ handle a' = None ∧ destroy inv a' σ = σ)
  ∧ (let '(dst', a', σ') := move_assign inv dst a σ in
     handle dst' = handle a ∧ dst' = a ∧ handle a' = None
     ∧ destroy inv a' σ' = σ')
  ∧ destroy inv (wrap (T:=T) (Some h)) σ = inv h σ
  ∧ invalidations h (destroy journal_invalidate (wrap (T:=T) (Some h)) j)
    = S (invalidations h j)
  ∧ invalidations h' (destroy journal_invalidate (wrap (T:=T) (Some h)) j)
    = (if decide (h = h') then S (invalidations h' j) else invalidations h' j)
  ∧ (let '(b, a') := move_construct (wrap (T:=T) (Some h)) in
     destroy journal_invalidate b (destroy journal_invalidate a' j)
     = journal_invalidate h j).
Proof.
  rewrite move_construct_spec, move_assign_spec, move_construct_spec.
  rewrite !destroy_empty, !destroy_holder, !handle_wrap.
  repeat split; try done.
  - apply invalidations_cons_eq.
  - case_decide as Hh.
    + subst. apply invalidations_cons_eq.
    + by apply invalidations_cons_ne.
Qed.

(** ** Values: kinds and accessors *)

Lemma Value_of_kind_wf k : k ∈ [UndefinedKind; NullKind] → Value_wf (Value_of_kind k).
Proof. rewrite !elem_of_cons, elem_of_nil. by intros [->|[->|[]]]. Qed.

Lemma scalar_constructors_wf b d i :
  Value_wf Value_default ∧ Value_wf Value_nullptr ∧ Value_wf (Value_bool b)
  ∧ Value_wf (Value_double d) ∧ Value_wf (Value_int i).
Proof. by repeat split. Qed.

Lemma Value_move_wf `{ValueMovable T} (other : T) :
  kindOf (T:=T) ∈ [SymbolKind; StringKind; ObjectKind] → Value_wf (fst (Value_move other)).
Proof.
  rewrite !elem_of_cons, elem_of_nil. unfold Value_move.
  destruct (move_construct other) as [p o]. unfold Value_wf. simpl.
  by intros [->|[->|[->|[]]]].
Qed.

(** C3.  The value built for a scalar kind passes the test of that kind
    and fails the six others: the default constructor gives an undefined
    value, [nullptr] a null value, every [bool] a boolean, every [double]
    and every [int] a number.  [kind_tests] lists [isUndefined], [isNull],
    [isBool], [isNumber], [isSymbol], [isString], [isObject] in this
    order. *)
Theorem C3_scalar_constructor_kinds (b : bool) (d : double) (i : Z) :
  kind_tests Value_default = [true; false; false; false; false; false; false]
  ∧ kind_tests Value_undefined = [true; false; false; false; false; false; false]
  ∧ kind_tests Value_nullptr = [false; true; false; false; false; false; false]
  ∧ kind_tests (Value_bool b) = [false; false; true; false; false; false; false]
  ∧ kind_tests (Value_double d) = [false; false; false; true; false; false; false]
  ∧ kind_tests (Value_int i) = [false; false; false; true; false; false; false]
  ∧ kind_tests (Value_bool true) = [false; false; true; false; false; false; false]
  ∧ kind_tests (Value_double 3%float) = [false; false; false; true; false; false; false]
  ∧ kind_tests (Value_int 3) = [false; false; false; true; false; false; false].
Proof.
  unfold kind_tests, Value_isUndefined, Value_isNull, Value_isBool, Value_isNumber,
    Value_isSymbol, Value_isString, Value_isObject.
  repeat split; simpl; repeat f_equal; by apply bool_decide_eq_true_2 || by apply bool_decide_eq_false_2.
Qed.

(** Exactly one kind test holds of any value. *)
Lemma kind_tests_exclusive (v : Value) :
  length (filter (λ t, t = true) (kind_tests v)) = 1.
Proof. destruct v as [[] ?]; reflexivity. Qed.

(** The asserting accessors fault on a value of another kind. *)
Lemma Value_getNumber_faults (v : Value) :
  Value_isNumber v = false → Value_getNumber v = Fault.
Proof. unfold Value_getNumber. by intros ->. Qed.

Lemma Value_getNumber_returns (d : double) : Value_getNumber (Value_double d) = Return d.
Proof. reflexivity. Qed.

Lemma Value_pointer_accessors_fault `{HandleOps Σ} (v : Value) (σ : Σ) :
  (Value_isSymbol v = false →
     Value_getSymbol v σ = (Fault, σ) ∧ Value_getSymbol_rv v = Fault)
  ∧ (Value_isString v = false →
     Value_getString v σ = (Fault, σ) ∧ Value_getString_rv v = Fault)
  ∧ (Value_isObject v = false →
     Value_getObject v σ = (Fault, σ) ∧ Value_getObject_rv v = Fault).
Proof.
  unfold Value_getSymbol, Value_getString, Value_getObject, Value_getSymbol_rv,
    Value_getString_rv, Value_getObject_rv, Value_steal, bind, assert.
  split; [|split]; by intros ->.
Qed.

(** [getBool] reads the union member whatever the kind. *)
Lemma Value_getBool_never_faults (v : Value) : is_Fault (Value_getBool v) = false.
Proof. unfold Value_getBool. by destruct (data_ v). Qed.

(** The asserting casts fault on an object that lacks the capability. *)
Lemma cast_clone_faults `{HandleOps Σ, TypeOps Σ, PointerDerived T}
    (isX : Object → Σ → bool) (o : Object) (σ : Σ) :
  isX o σ = false → cast_clone (T:=T) isX o σ = (Fault, σ).
Proof. unfold cast_clone, bind, assert. by intros ->. Qed.

Lemma cast_steal_faults `{HandleOps Σ, TypeOps Σ, PointerDerived T}
    (isX : Object → Σ → bool) (o : Object) (σ : Σ) :
  isX o σ = false → cast_steal (T:=T) isX o σ = (Fault, σ).
Proof. unfold cast_steal, bind, assert. by intros ->. Qed.

Lemma Object_casts_fault `{HandleOps Σ, TypeOps Σ} (o : Object) (σ : Σ) :
  (isArray o σ = false →
     Object_getArray o σ = (Fault, σ) ∧ Object_getArray_rv o σ = (Fault, σ))
  ∧ (isArrayBuffer o σ = false →
     Object_getArrayBuffer o σ = (Fault, σ) ∧ Object_getArrayBuffer_rv o σ = (Fault, σ))
  ∧ (isArrayBufferView o σ = false → Object_getArrayBufferView o σ = (Fault, σ))
  ∧ (isFunction o σ = false →
     Object_getFunction o σ = (Fault, σ) ∧ Object_getFunction_rv o σ = (Fault, σ)).
Proof.
  split; [|split; [|split]]; intros Hno;
    try split; by apply cast_clone_faults || by apply cast_steal_faults.
Qed.

(** C1, where the code departs from it.  [getBool] has no [assert]: on the
    undefined value and on the null value, neither of them a boolean, it
    returns [false], and on no value at all does it fault.  The rvalue
    overload of [getArrayBufferView] has no [assert] either: whatever the
    engine answers to [isArrayBufferView], it returns the view around the
    object's handle and never faults. *)
Theorem C1_unchecked_accessors_without_assert `{HandleOps Σ, TypeOps Σ}
    (v : Value) (o : Object) (σ : Σ) :
  Value_isBool Value_undefined = false
  ∧ Value_getBool Value_undefined = Return false
  ∧ Value_isBool Value_null = false
  ∧ Value_getBool Value_null = Return false
  ∧ is_Fault (Value_getBool v) = false
  ∧ Object_getArrayBufferView_rv o σ
    = (Return (wrap (handle o), mkObject (mkPointer None)), σ)
  ∧ is_Fault (fst (Object_getArrayBufferView_rv o σ)) = false.
Proof.
  repeat split. apply Value_getBool_never_faults.
Qed.

(** ** Property access by C string *)

Section convenience_forms.
Context `{HandleOps Σ, StringOps Σ, PropertyOps Σ}.

Lemma bind_finally_via {A} (name : string) (keyed : String → M Σ A) (σ : Σ) :
  (let* key := String_createFromAscii name in
   finally (keyed key) (destroy invalidate key))%jsa σ
  = via_created_key name keyed σ.
Proof.
  unfold via_created_key, bind, finally, String_createFromAscii.
  by destruct (createStringFromAscii name σ) as [[key|e| |] σ1].
Qed.

Lemma toValue_scalar (a : ToValueArg) (σ : Σ) :
  scalar_arg a = true → toValue a σ = (Return (scalar_value a), σ).
Proof. by destruct a. Qed.

(** The conversions that reach the engine do so through one constructing
    primitive: the creation of a string, or the clone of a handle. *)
Lemma toValue_constructs (str : string) (y : Symbol) (s : String) (o : Object)
    (v : Value) (σ : Σ) :
  toValue (arg_cstr str) σ
  = (let* k := createStringFromAscii str in
     ret (mkValue StringKind (pointer (to_Pointer k))))%jsa σ
  ∧ toValue (arg_Symbol y) σ = Value_of_Symbol y σ
  ∧ toValue (arg_String s) σ = Value_of_String s σ
  ∧ toValue (arg_Object o) σ = Value_of_Object o σ
  ∧ toValue (arg_Value_rv v) σ = (Return v, σ).
Proof.
  split; [|done]. simpl. unfold bind, String_createFromAscii.
  destruct (createStringFromAscii str σ) as [[k|e| |] σ1]; try done.
  by destruct k as [[?]].
Qed.

(** C7.  Each C-string-keyed operation of [Object] is the keyed operation
    run on the key the adapter creates from the name: [getProperty],
    [hasProperty], [removeProperty] and [setProperty] by name equal the
    [String]-keyed forms under [via_created_key], for every engine, object,
    name, value and state.  The conversion of a scalar argument
    ([nullptr], [bool], [double], [float], [int]) to a [Value] returns the
    constructed value and leaves the engine state as it was.  Under the
    probe the journals say the same: the key is created first, the keyed
    primitive is called on that key (for [setProperty], with the converted
    value), and the key is released last. *)
Theorem C7_cstring_forms_delegate (o : Object) (name : string) (value : ToValueArg)
    (b : bool) (d : double) (i : Z) (σ : Σ) :
  Object_getProperty o name σ
  = via_created_key name (Object_getProperty_String o) σ
  ∧ Object_hasProperty o name σ
    = via_created_key name (Object_hasProperty_String o) σ
  ∧ Object_removeProperty o name σ
    = via_created_key name (Object_removeProperty_String o) σ
  ∧ Object_setProperty o name value σ
    = via_created_key name (λ key, Object_setProperty_String o key value) σ
  ∧ toValue arg_nullptr σ = (Return Value_null, σ)
  ∧ toValue (arg_bool b) σ = (Return (Value_bool b), σ)
  ∧ toValue (arg_double d) σ = (Return (Value_double d), σ)
  ∧ toValue (arg_float d) σ = (Return (Value_double d), σ)
  ∧ toValue (arg_int i) σ = (Return (Value_int i), σ)
  ∧ Object_getProperty (Σ:=Recorder) o name []
    = (Return Value_undefined,
       [prim_createStringFromAscii name;
        prim_getProperty o by_String (Some probe_key);
        prim_invalidate probe_key])
  ∧ Object_hasProperty (Σ:=Recorder) o name []
    = (Return false,
       [prim_createStringFromAscii name;
        prim_hasProperty o by_String (Some probe_key);
        prim_invalidate probe_key])
  ∧ Object_removeProperty (Σ:=Recorder) o name []
    = (Return tt,
       [prim_createStringFromAscii name;
        prim_removeProperty o by_String (Some probe_key);
        prim_invalidate probe_key])
  ∧ Object_setProperty (Σ:=Recorder) o name (arg_int i) []
    = (Return tt,
       [prim_createStringFromAscii name;
        prim_setPropertyValue o by_String (Some probe_key) (Value_int i);
        prim_invalidate probe_key]).
Proof.
  unfold Object_getProperty, Object_hasProperty, Object_removeProperty,
    Object_setProperty.
  rewrite !bind_finally_via. by split_and!.
Qed.
End convenience_forms.

(** ** Calls *)

Section calls.
Context `{HandleOps Σ, StringOps Σ, CallOps Σ}.

Lemma Function_callWithThis_unfold (f : Function) (jsThis : Object)
    (args : list Value) (σ : Σ) :
  Function_callWithThis f jsThis args σ
  = (let* q := cloneObject (handle jsThis) in
     finally (call f (object_value q) args)
             (Pointer_dtor invalidate (mkPointer q)))%jsa σ.
Proof.
  unfold Function_callWithThis, Value_of_Object, bind.
  by destruct (cloneObject (handle jsThis) σ) as [[q|e| |] σ1].
Qed.

(** C8.  For every engine, function [f], object [jsThis], argument list
    and state: [call] is the adapter primitive [call] on [f] with the
    undefined value as this-value; [callWithThis] is the same primitive
    with the object value around a clone of [jsThis], released after the
    call; [callAsConstructor] is the adapter primitive
    [callAsConstructor].  Under the probe the journals say so: [call] and
    [callWithThis] log one [prim_call], [callAsConstructor] logs one
    [prim_callAsConstructor] and no [prim_call].  And the outcome of
    [callAsConstructor] is the same under two adapters that differ only
    in their [call] primitive. *)
Theorem C8_call_modes (f : Function) (jsThis : Object) (h : PointerValue)
    (args : list Value) (σ : Σ)
    (call1 call2 : Function → Value → list Value → M Σ Value)
    (construct : Function → list Value → M Σ Value) :
  Function_call f args σ = call f Value_undefined args σ
  ∧ Function_call_list f args σ = call f Value_undefined args σ
  ∧ Function_callWithThis f jsThis args σ
    = (let* q := cloneObject (handle jsThis) in
       finally (call f (object_value q) args)
               (Pointer_dtor invalidate (mkPointer q)))%jsa σ
  ∧ Function_callWithThis_list f jsThis args σ
    = Function_callWithThis f jsThis args σ
  ∧ Function_callAsConstructor f args σ = callAsConstructor f args σ
  ∧ Function_callAsConstructor_list f args σ = callAsConstructor f args σ
  ∧ Function_call (Σ:=Recorder) f args []
    = (Return Value_undefined, [prim_call f Value_undefined args])
  ∧ Function_callWithThis (Σ:=Recorder) f (wrap (Some h)) args []
    = (Return Value_undefined,
       [prim_cloneObject (Some h);
        prim_call f (object_value (Some h)) args;
        prim_invalidate h])
  ∧ Function_callAsConstructor (Σ:=Recorder) f args []
    = (Return Value_undefined, [prim_callAsConstructor f args])
  ∧ @Function_callAsConstructor Σ
      {| call := call1; callAsConstructor := construct |} f args σ
    = @Function_callAsConstructor Σ
        {| call := call2; callAsConstructor := construct |} f args σ.
Proof.
  split_and!; try reflexivity.
  apply Function_callWithThis_unfold.
Qed.
End calls.

(** ** Host objects *)

Section host_objects.
Context `{TypeOps Σ}.

Lemma casts_to_backed T r : casts_to T (backed_by r) = derives_from (dynamic_type r) T.
Proof. unfold casts_to. simpl. by destruct (derives_from _ _). Qed.

Lemma Object_isHostObject_backing T o σ bk :
  has_backing o σ bk → Object_isHostObject T o σ = casts_to T bk.
Proof.
  unfold Object_isHostObject. destruct bk as [r|]; simpl.
  - intros [-> ->]. rewrite casts_to_backed. case_decide as HT.
    + subst. by rewrite derives_from_HostObject.
    + simpl. by destruct (derives_from _ _).
  - intros ->. by case_decide.
Qed.

(** C5.  Let the engine answer for [o] as for an object created from the
    host object [r], or as for an object that is not host-backed.  Then
    [isHostObject<T>] is true exactly when [o] is host-backed and its
    payload casts dynamically to [T]; in that case [asHostObject<T>] and
    [getHostObject<T>] both return the payload; otherwise (the payload is
    of an unrelated type, or [o] is not host-backed) [asHostObject<T>]
    throws the catchable error, with the state untouched, and
    [getHostObject<T>] faults. *)
Theorem C5_host_object_downcast (T : NativeType) (o : Object) (σ : Σ) (bk : Backing) :
  has_backing o σ bk →
  Object_isHostObject T o σ = casts_to T bk
  ∧ (casts_to T bk = true ↔ ∃ r, bk = backed_by r ∧ derives_from (dynamic_type r) T = true)
  ∧ Object_asHostObject T o σ
    = (if casts_to T bk then (Return (payload bk), σ) else (Throw not_desired_type, σ))
  ∧ Object_getHostObject T o σ
    = (if casts_to T bk then (Return (payload bk), σ) else (Fault, σ)).
Proof.
  intros Hbk. pose proof (Object_isHostObject_backing T o σ bk Hbk) as His.
  split; [done|]. split.
  { destruct bk as [r|].
    - rewrite casts_to_backed. split; [by exists r|]. by intros (r' & [= <-] & Hd).
    - split; [done|]. by intros (r & ? & _). }
  assert (casts_to T bk = true → ctx_getHostObject o σ = payload bk) as Hpayload.
  { destruct bk as [r|]; [by destruct Hbk|done]. }
  split.
  - unfold Object_asHostObject, bind. rewrite His.
    destruct (casts_to T bk); simpl; [|done].
    unfold ret, static_pointer_cast. by rewrite Hpayload.
  - unfold Object_getHostObject. case_decide as HT.
    + unfold bind, assert, Object_isHostObject in *. rewrite decide_True in His by done.
      rewrite His. destruct (casts_to T bk); [|done].
      unfold ret. by rewrite Hpayload.
    + unfold bind, assert. rewrite His. destruct (casts_to T bk); [|done].
      unfold ret, static_pointer_cast. by rewrite Hpayload.
Qed.
End host_objects.

End jsa_facts.

(* ===================================================================== *)
(** * Properties of the reference engine *)
(* ===================================================================== *)

Module reference_facts.
Import jsa reference demo.

Section frame.
Context `{NativeTypes}.

Lemma extends_refl σ : extends σ σ.
Proof. by intros p x. Qed.

Lemma extends_trans σ1 σ2 σ3 : extends σ1 σ2 → extends σ2 σ3 → extends σ1 σ3.
Proof. intros H12 H23 p x Hp. by apply H23, H12. Qed.

Lemma entity_at_Some σ p e x :
  entity_at σ (Some p) = Some (e, x) ↔ handles σ !! p = Some e ∧ entities σ !! e = Some x.
Proof.
  unfold entity_at. simpl. split.
  - destruct (handles σ !! p) as [e'|] eqn:Hh; simpl; [|done].
    destruct (entities σ !! e') as [x'|] eqn:He; simpl; [|done].
    intros [= -> ->]. done.
  - intros [-> Hx]. simpl. by rewrite Hx.
Qed.

Lemma new_handle_extends e σ : extends σ (new_handle e σ).2.
Proof.
  intros p [e' x] [Hh He]%entity_at_Some. apply entity_at_Some. simpl. split; [|done].
  rewrite lookup_insert_ne; [done|].
  intros <-. pose proof (is_fresh (dom (handles σ))) as Hfresh.
  apply Hfresh, elem_of_dom. eauto.
Qed.

Lemma new_handle_returns e σ :
  ∃ q, new_handle e σ = (Return q, (new_handle e σ).2)
       ∧ handles (new_handle e σ).2 !! q = Some e
       ∧ entities (new_handle e σ).2 = entities σ.
Proof.
  eexists. split; [reflexivity|]. simpl. split; [|done]. apply lookup_insert_eq.
Qed.

Lemma new_entity_extends x σ : extends σ (new_entity x σ).2.
Proof.
  unfold new_entity.
  set (σ1 := mkEngine _ _).
  apply extends_trans with σ1; [|apply new_handle_extends].
  intros p [e' x'] [Hh He]%entity_at_Some. apply entity_at_Some. simpl. split; [done|].
  rewrite lookup_insert_ne; [done|].
  intros <-. pose proof (is_fresh (dom (entities σ))) as Hfresh.
  apply Hfresh, elem_of_dom. eauto.
Qed.

Lemma new_entity_returns x σ :
  ∃ q, new_entity x σ = (Return q, (new_entity x σ).2)
       ∧ ∃ e, entity_at (new_entity x σ).2 (Some q) = Some (e, x).
Proof.
  unfold new_entity. set (e := fresh (dom (entities σ))). set (σ1 := mkEngine _ _).
  destruct (new_handle_returns e σ1) as (q & Hq & Hh & He).
  exists q. split; [done|]. exists e. apply entity_at_Some. split; [done|].
  rewrite He. subst σ1. simpl. apply lookup_insert_eq.
Qed.

Lemma ref_clone_extends p σ : extends σ (ref_clone p σ).2.
Proof.
  unfold ref_clone. destruct (entity_at σ p) as [[e x]|]; [|apply extends_refl].
  unfold bind, ret. simpl. apply (new_handle_extends e σ).
Qed.

Lemma preserving_ret {A} (a : A) : preserving (ret a).
Proof. intros σ. apply extends_refl. Qed.

Lemma preserving_bind {A B} (m : M Engine A) (k : A → M Engine B) :
  preserving m → (∀ a, preserving (k a)) → preserving (bind m k).
Proof.
  intros Hm Hk σ. unfold bind. specialize (Hm σ).
  destruct (m σ) as [[a|?| |] σ1]; try done.
  eapply extends_trans; [exact Hm|]. apply Hk.
Qed.

Lemma preserving_clone p : preserving (ref_clone p).
Proof. intros σ. apply ref_clone_extends. Qed.

Lemma preserving_createStringFromAscii str : preserving (createStringFromAscii str).
Proof.
  apply preserving_bind; [|intros; apply preserving_ret].
  intros σ. apply new_entity_extends.
Qed.

(** Converting an argument creates handles and entities, and disturbs none
    that exist. *)
Lemma toValue_preserving (value : ToValueArg) : preserving (toValue value).
Proof.
  destruct value as [| | | | |str|str|y|s|o|v|v]; try apply preserving_ret.
  - apply preserving_bind; [apply preserving_createStringFromAscii|].
    intros; apply preserving_ret.
  - apply preserving_bind; [apply preserving_createStringFromAscii|].
    intros; apply preserving_ret.
  - apply preserving_bind; [apply preserving_clone|intros; apply preserving_ret].
  - apply preserving_bind; [apply preserving_clone|intros; apply preserving_ret].
  - apply preserving_bind; [apply preserving_clone|intros; apply preserving_ret].
  - unfold toValue, Value_copy.
    destruct (kind_ v), (data_ v) as [b|d|p]; try apply preserving_ret;
      (apply preserving_bind; [apply preserving_clone|intros; apply preserving_ret]).
Qed.
End frame.

Section arrays.
Context `{NativeTypes}.

Lemma load_returns (s : Stored) (σ : Engine) : returns (load s σ) = true.
Proof. by destruct s. Qed.

Lemma load_no_range_error (s : Stored) (σ : Engine) : raises_range_error (load s σ) = false.
Proof. by destruct s. Qed.

Lemma entity_at_handle `{PointerDerived T} (σ : Engine) (t : T) x :
  entity_at σ (handle t) = Some x → ∃ p, handle t = Some p.
Proof. destruct (handle t) as [p|]; [eauto|done]. Qed.

Lemma getValueAtIndex_in_range (a : Array) (i : N) σ e length elements :
  entity_at σ (handle a) = Some (e, ArrayEntity length elements) →
  (i < length)%N →
  Array_getValueAtIndex a i σ = load (default st_undefined (elements !! i)) σ.
Proof.
  intros Ha Hi. unfold Array_getValueAtIndex. simpl. unfold ref_getValueAtIndex, entity_of.
  rewrite Ha. simpl. by apply N.ltb_lt in Hi as ->.
Qed.

Lemma getValueAtIndex_out_of_range (a : Array) (i : N) σ e length elements :
  entity_at σ (handle a) = Some (e, ArrayEntity length elements) →
  (length ≤ i)%N →
  Array_getValueAtIndex a i σ = (Throw range_error, σ).
Proof.
  intros Ha Hi. unfold Array_getValueAtIndex. simpl. unfold ref_getValueAtIndex, entity_of.
  rewrite Ha. simpl. by apply N.ltb_ge in Hi as ->.
Qed.

Lemma getValueAtIndex_range (a : Array) (i : N) σ e length elements :
  entity_at σ (handle a) = Some (e, ArrayEntity length elements) →
  raises_range_error (Array_getValueAtIndex a i σ) = bool_decide (length ≤ i)%N
  ∧ returns (Array_getValueAtIndex a i σ) = bool_decide (i < length)%N.
Proof.
  intros Ha. destruct (decide (length ≤ i)%N) as [Hi|Hi].
  - rewrite (getValueAtIndex_out_of_range _ _ _ _ _ _ Ha Hi).
    rewrite bool_decide_eq_true_2 by done.
    rewrite bool_decide_eq_false_2 by lia. done.
  - rewrite (getValueAtIndex_in_range _ _ _ _ _ _ Ha) by lia.
    rewrite load_returns, load_no_range_error.
    rewrite bool_decide_eq_false_2 by done.
    rewrite bool_decide_eq_true_2 by lia. done.
Qed.

Lemma setValueAtIndexImpl_range (a : Array) (i : N) (v : Value) σ e length elements :
  entity_at σ (handle a) = Some (e, ArrayEntity length elements) →
  raises_range_error (Array_setValueAtIndexImpl a i v σ) = bool_decide (length ≤ i)%N
  ∧ returns (Array_setValueAtIndexImpl a i v σ)
    = bool_decide (i < length)%N && bool_decide (is_Some (store σ v)).
Proof.
  intros Ha. unfold Array_setValueAtIndexImpl. simpl. unfold ref_setValueAtIndexImpl.
  rewrite Ha. destruct (decide (length ≤ i)%N) as [Hi|Hi].
  - assert ((i <? length)%N = false) as -> by by apply N.ltb_ge.
    rewrite bool_decide_eq_true_2 by done.
    rewrite (bool_decide_eq_false_2 (i < length)%N) by lia. done.
  - assert ((i <? length)%N = true) as -> by (apply N.ltb_lt; lia).
    rewrite bool_decide_eq_false_2 by done.
    rewrite (bool_decide_eq_true_2 (i < length)%N) by lia.
    destruct (store σ v) as [s|] eqn:Hs.
    + rewrite bool_decide_eq_true_2 by eauto. done.
    + rewrite bool_decide_eq_false_2; [done|]. by intros [? ?].
Qed.

Lemma finally_outcome {A} (m : M Engine A) cleanup σ : (finally m cleanup σ).1 = (m σ).1.
Proof. unfold finally. by destruct (m σ) as [[?|?| |] ?]. Qed.

Lemma setValueAtIndex_range (a : Array) (i : N) (value : ToValueArg) (v : Value)
    σ σ1 e length elements :
  entity_at σ (handle a) = Some (e, ArrayEntity length elements) →
  toValue value σ = (Return v, σ1) →
  raises_range_error (Array_setValueAtIndex a i value σ) = bool_decide (length ≤ i)%N
  ∧ returns (Array_setValueAtIndex a i value σ)
    = bool_decide (i < length)%N && bool_decide (is_Some (store σ1 v)).
Proof.
  intros Ha Hv.
  assert (entity_at σ1 (handle a) = Some (e, ArrayEntity length elements)) as Ha1.
  { destruct (entity_at_handle _ _ _ Ha) as [p Hp]. rewrite Hp in Ha |- *.
    pose proof (toValue_preserving value σ p _ Ha) as Hx. by rewrite Hv in Hx. }
  unfold raises_range_error, returns, Array_setValueAtIndex, bind. rewrite Hv.
  rewrite finally_outcome.
  apply (setValueAtIndexImpl_range a i v σ1 e length elements Ha1).
Qed.

Lemma script_set_length_array (a : Array) σ e length elements length' :
  entity_at σ (handle a) = Some (e, ArrayEntity length elements) →
  entity_at (script_set_length e length' σ) (handle a)
  = Some (e, ArrayEntity length' elements).
Proof.
  intros Ha. destruct (entity_at_handle _ _ _ Ha) as [p Hp]. rewrite Hp in Ha |- *.
  apply entity_at_Some in Ha as [Hh He]. apply entity_at_Some.
  unfold script_set_length. rewrite He. simpl. split; [done|]. apply lookup_insert_eq.
Qed.

(** C4 (against the reference engine).  Let [a] designate an array whose
    length property is [length] in the engine state [σ] of the call.  Then
    [getValueAtIndex a i] ends in a range error exactly when [length <= i]
    and returns a value exactly when [i < length]; [setValueAtIndex], once
    its argument is converted to [v], ends in a range error exactly when
    [length <= i], and returns exactly when [i < length] and [v] can be
    stored.  At [i = length] both raise a range error; at [length - 1], for
    a non-empty array, the read returns and so does the write of a storable
    value.  The length is the one in the state of the call: after script
    code sets the length property to [length'], the same wrapper is checked
    against [length']. *)
Theorem C4_index_checked_against_length (a : Array) (i : N) (value : ToValueArg)
    (v : Value) (σ σ1 : Engine) (e : EntityId) (length length' : N)
    (elements : gmap N Stored) :
  entity_at σ (handle a) = Some (e, ArrayEntity length elements) →
  toValue value σ = (Return v, σ1) →
  Array_length a σ = (Return length, σ)
  ∧ raises_range_error (Array_getValueAtIndex a i σ) = bool_decide (length ≤ i)%N
  ∧ returns (Array_getValueAtIndex a i σ) = bool_decide (i < length)%N
  ∧ raises_range_error (Array_setValueAtIndex a i value σ) = bool_decide (length ≤ i)%N
  ∧ returns (Array_setValueAtIndex a i value σ)
    = bool_decide (i < length)%N && bool_decide (is_Some (store σ1 v))
  ∧ raises_range_error (Array_getValueAtIndex a length σ) = true
  ∧ raises_range_error (Array_setValueAtIndex a length value σ) = true
  ∧ returns (Array_getValueAtIndex a (length - 1) σ) = bool_decide (0 < length)%N
  ∧ returns (Array_setValueAtIndex a (length - 1) value σ)
    = bool_decide (0 < length)%N && bool_decide (is_Some (store σ1 v))
  ∧ raises_range_error (Array_getValueAtIndex a i (script_set_length e length' σ))
    = bool_decide (length' ≤ i)%N.
Proof.
  intros Ha Hv.
  pose proof (getValueAtIndex_range a i σ e length elements Ha) as [Hg1 Hg2].
  pose proof (setValueAtIndex_range a i value v σ σ1 e length elements Ha Hv) as [Hs1 Hs2].
  pose proof (getValueAtIndex_range a length σ e length elements Ha) as [Hg3 _].
  pose proof (setValueAtIndex_range a length value v σ σ1 e length elements Ha Hv) as [Hs3 _].
  pose proof (getValueAtIndex_range a (length - 1) σ e length elements Ha) as [_ Hg4].
  pose proof (setValueAtIndex_range a (length - 1) value v σ σ1 e length elements Ha Hv)
    as [_ Hs4].
  pose proof (getValueAtIndex_range a i _ e length' elements
                (script_set_length_array a σ e length elements length' Ha)) as [Hg5 _].
  assert (bool_decide (length - 1 < length)%N = bool_decide (0 < length)%N) as Hb.
  { apply bool_decide_ext. lia. }
  rewrite Hb in Hg4, Hs4.
  rewrite bool_decide_eq_true_2 in Hg3, Hs3 by lia.
  split_and!; try done.
  unfold Array_length, Array_size. simpl. unfold ref_size, entity_of. by rewrite Ha.
Qed.
End arrays.

Lemma C4_index_checked_against_length_witness :
  two_slots = (Return two_slots_array, two_slots_engine)
  ∧ raises_range_error (Array_getValueAtIndex two_slots_array 2 two_slots_engine) = true
  ∧ raises_range_error
      (Array_setValueAtIndex two_slots_array 2 (arg_int 7) two_slots_engine) = true
  ∧ returns (Array_getValueAtIndex two_slots_array 1 two_slots_engine) = true
  ∧ returns (Array_setValueAtIndex two_slots_array 1 (arg_int 7) two_slots_engine) = true.
Proof.
  pose proof (C4_index_checked_against_length two_slots_array 0 (arg_int 7)
                (Value_int 7) two_slots_engine two_slots_engine 1%positive 2 0 ∅
                ltac:(vm_compute; reflexivity) eq_refl)
    as (_ & _ & _ & _ & _ & Hget2 & Hset2 & Hget1 & Hset1 & _).
  split; [vm_compute; reflexivity|].
  split; [exact Hget2|]. split; [exact Hset2|].
  split; [exact Hget1|exact Hset1].
Defined.

Lemma C5_host_object_downcast_witness :
  text_backed.1 = Return text_object
  ∧ plain = (Return plain_object, host_engine)
  ∧ Object_asHostObject cNodeRecord text_object host_engine
    = (Return (Some text_record), host_engine)
  ∧ Object_asHostObject cTimerRecord text_object host_engine
    = (Throw not_desired_type, host_engine)
  ∧ Object_getHostObject cTimerRecord text_object host_engine = (Fault, host_engine)
  ∧ Object_asHostObject cHostObject plain_object host_engine
    = (Throw not_desired_type, host_engine)
  ∧ Object_getHostObject cHostObject plain_object host_engine = (Fault, host_engine).
Proof.
  assert (has_backing text_object host_engine (backed_by text_record)) as Htext.
  { split; vm_compute; reflexivity. }
  assert (has_backing plain_object host_engine not_host_backed) as Hplain.
  { vm_compute; reflexivity. }
  pose proof (jsa_facts.C5_host_object_downcast cNodeRecord _ _ _ Htext) as (_ & _ & Has1 & _).
  pose proof (jsa_facts.C5_host_object_downcast cTimerRecord _ _ _ Htext) as (_ & _ & Has2 & Hget2).
  pose proof (jsa_facts.C5_host_object_downcast cHostObject _ _ _ Hplain) as (_ & _ & Has3 & Hget3).
  split; [vm_compute; reflexivity|]. split; [vm_compute; reflexivity|].
  split; [exact Has1|]. split; [exact Has2|]. split; [exact Hget2|].
  split; [exact Has3|exact Hget3].
Defined.

End reference_facts.

(* ===================================================================== *)
(** * Properties of the JSON walk *)
(* ===================================================================== *)

Module json_facts.
Import jsa reference json.

Lemma tc_first_step {A} (R : relation A) (x z : A) :
  tc R x z → ∃ y, R x y ∧ rtc R y z.
Proof.
  destruct 1 as [x z Hstep|x y z Hstep Hrest].
  - exists z. split; [done|]. apply rtc_refl.
  - exists y. split; [done|]. by apply tc_rtc.
Qed.

Lemma rtc_iff {A} (R1 R2 : relation A) (x y : A) :
  (∀ a b, R1 a b ↔ R2 a b) → rtc R1 x y ↔ rtc R2 x y.
Proof.
  intros HR. split; induction 1 as [|a b c Hab _ IH]; try apply rtc_refl;
    (eapply rtc_l; [by apply HR|done]).
Qed.

Lemma tc_iff {A} (R1 R2 : relation A) (x y : A) :
  (∀ a b, R1 a b ↔ R2 a b) → tc R1 x y ↔ tc R2 x y.
Proof.
  intros HR. split; induction 1 as [a b Hab|a b c Hab _ IH];
    try (apply tc_once; by apply HR); (eapply tc_l; [by apply HR|done]).
Qed.

(** ** Texts *)

Lemma text_app_nil_r (s : string) : s +:+ EmptyString = s.
Proof. induction s as [|c s IH]; [done|]. unfold String.app in *. simpl. by rewrite IH. Qed.

Lemma text_app_cons (c : Ascii.ascii) (s t : string) :
  String.String c s +:+ t = String.String c (s +:+ t).
Proof. reflexivity. Qed.

Lemma text_app_nil_l (t : string) : EmptyString +:+ t = t.
Proof. reflexivity. Qed.

Lemma text_app_assoc (s t u : string) : (s +:+ t) +:+ u = s +:+ (t +:+ u).
Proof. induction s as [|c s IH]; [done|]. rewrite !text_app_cons. by rewrite IH. Qed.

Lemma text_app_length (s t : string) :
  String.length (s +:+ t) = String.length s + String.length t.
Proof. induction s as [|c s IH]; [done|]. rewrite text_app_cons. simpl. by rewrite IH. Qed.

(** ** Numbers *)

Lemma number_step_char (st st' : NumberState) (c : Ascii.ascii) :
  number_step st c = Some st' → number_char c = true.
Proof.
  unfold number_step, number_char.
  destruct (decide (c = "0"%char)) as [->|Hzero]; [done|].
  rewrite (bool_decide_eq_false_2 (c = "0"%char)) by done.
  destruct (digit c), (bool_decide (c = "-"%char)), (bool_decide (c = "+"%char)),
    (bool_decide (c = "."%char)), (bool_decide (c = "e"%char)),
    (bool_decide (c = "E"%char)), st; simpl; done.
Qed.

Lemma span_number_run (st : NumberState) (t rest : string) :
  number_run st t = true → delimited rest = true →
  span_number (t +:+ rest) = (t, rest).
Proof.
  intros Hrun Hrest. revert st Hrun. induction t as [|c t IH]; intros st Hrun.
  - rewrite text_app_nil_l. destruct rest as [|c rest]; [done|].
    simpl in *. by destruct (number_char c).
  - rewrite text_app_cons. cbn [number_run span_number] in *.
    destruct (number_step st c) as [st'|] eqn:Hstep; [|done].
    rewrite (number_step_char _ _ _ Hstep). by rewrite (IH st').
Qed.

Lemma reads_as_number (t : string) : json_number t = true → reads_as t (JNumber t).
Proof.
  intros Hnumber [|fuel] rest Hfuel Hrest; [lia|].
  destruct t as [|c t]; [done|].
  assert (number_char c = true) as Hc.
  { unfold json_number in Hnumber. cbn [number_run] in Hnumber.
    destruct (number_step n_start c) as [st|] eqn:Hstep; [|done].
    by eapply number_step_char. }
  pose proof (span_number_run n_start _ rest Hnumber Hrest) as Hspan.
  rewrite text_app_cons in Hspan |- *.
  cbn [parse_value].
  assert (bool_decide (c = dquote_char) = false) as ->.
  { apply bool_decide_eq_false_2. by intros ->. }
  assert (bool_decide (c = "["%char) = false) as ->.
  { apply bool_decide_eq_false_2. by intros ->. }
  assert (bool_decide (c = "{"%char) = false) as ->.
  { apply bool_decide_eq_false_2. by intros ->. }
  rewrite Hc, Hspan. cbn [fst snd]. by rewrite Hnumber.
Qed.

(** ** Literals and strings *)

Lemma reads_as_null : reads_as "null" JNull.
Proof. intros [|fuel] rest Hfuel Hrest; [simpl in Hfuel; lia|]. reflexivity. Qed.

Lemma reads_as_bool (b : bool) : reads_as (if b then "true" else "false") (JBool b).
Proof.
  intros [|fuel] rest Hfuel Hrest; [destruct b; simpl in Hfuel; lia|].
  by destruct b.
Qed.

Lemma reads_as_empty_object : reads_as "{}" (JObject []).
Proof. intros [|fuel] rest Hfuel Hrest; [simpl in Hfuel; lia|]. reflexivity. Qed.

Lemma read_chars_escape_char (c : Ascii.ascii) (rest : string) :
  read_chars (escape_char c +:+ rest)
  = prepend (String.String c EmptyString) <$> read_chars rest.
Proof. destruct c as [[] [] [] [] [] [] [] []]; reflexivity. Qed.

Lemma read_chars_escape (s rest : string) :
  read_chars (escape s +:+ String.String dquote_char rest) = Some (s, rest).
Proof.
  induction s as [|c s IH]; [done|].
  cbn [escape]. rewrite text_app_assoc, read_chars_escape_char, IH. done.
Qed.

Lemma quoted_cons (s rest : string) :
  quoted s +:+ rest
  = String.String dquote_char (escape s +:+ String.String dquote_char rest).
Proof. unfold quoted, dquote. by rewrite !text_app_cons, text_app_nil_l, text_app_assoc. Qed.

Lemma reads_as_quoted (s : string) : reads_as (quoted s) (JString s).
Proof.
  intros [|fuel] rest Hfuel Hrest; [lia|].
  rewrite quoted_cons. cbn [parse_value].
  rewrite bool_decide_eq_true_2 by done. by rewrite read_chars_escape.
Qed.

(** A text for a value is not empty, and does not start with a closing
    bracket or brace. *)
Lemma reads_as_start (t : string) (j : Json) (rest : string) :
  reads_as t j →
  strip "]" (t +:+ rest) = None ∧ strip "}" (t +:+ rest) = None.
Proof.
  intros Ht. specialize (Ht (S (String.length t)) EmptyString (Nat.lt_succ_diag_r _) eq_refl).
  destruct t as [|c t]; [done|].
  rewrite !text_app_cons in *. cbn [strip].
  destruct (decide (c = "]"%char)) as [->|Hne1]; [done|].
  destruct (decide (c = "}"%char)) as [->|Hne2]; [done|].
  rewrite !bool_decide_eq_false_2 by done. done.
Qed.

(** ** Arrays and objects *)

Lemma join_cons2 (sep t1 t2 : string) (texts : list string) :
  join sep (t1 :: t2 :: texts) = t1 +:+ sep +:+ join sep (t2 :: texts).
Proof. reflexivity. Qed.

Lemma parse_elements_join (texts : list string) (js : list Json) :
  Forall2 reads_as texts js → texts ≠ [] →
  ∀ fuel rest,
    String.length (join "," texts) + 1 < fuel →
    parse_elements fuel (join "," texts +:+ String.String "]" rest) = Some (js, rest).
Proof.
  induction 1 as [|t j texts js Ht Hrest IH]; [done|]. intros _ [|fuel] rest Hfuel; [lia|].
  destruct texts as [|t2 texts].
  - apply Forall2_nil_inv_l in Hrest as ->. cbn [join] in Hfuel. cbn [join parse_elements].
    rewrite (Ht fuel) by (done || lia).
    by rewrite bool_decide_eq_false_2, bool_decide_eq_true_2.
  - rewrite join_cons2 in Hfuel |- *.
    set (J := join "," (t2 :: texts)) in *.
    rewrite !text_app_length in Hfuel. change (String.length ",") with 1 in Hfuel.
    rewrite !text_app_assoc, text_app_cons, text_app_nil_l. cbn [parse_elements].
    rewrite (Ht fuel) by (done || lia).
    rewrite bool_decide_eq_true_2 by done.
    rewrite IH by (done || lia). done.
Qed.

Lemma reads_as_array (texts : list string) (js : list Json) :
  Forall2 reads_as texts js → reads_as ("[" +:+ join "," texts +:+ "]") (JArray js).
Proof.
  intros Hall [|fuel] rest Hfuel Hrest; [lia|].
  rewrite text_app_length in Hfuel. rewrite text_app_length in Hfuel. simpl in Hfuel.
  rewrite (text_app_assoc "["), text_app_cons, text_app_nil_l.
  rewrite (text_app_assoc (join _ _)), text_app_cons, text_app_nil_l. cbn [parse_value].
  rewrite bool_decide_eq_false_2, bool_decide_eq_true_2 by done.
  destruct Hall as [|t j texts js Ht Hall].
  - reflexivity.
  - destruct (reads_as_start t j
                (match texts with [] => EmptyString | _ => "," +:+ join "," texts end
                 +:+ String.String "]" rest) Ht) as [Hstart _].
    assert (join "," (t :: texts) +:+ String.String "]" rest
            = t +:+ (match texts with [] => EmptyString | _ => "," +:+ join "," texts end
                     +:+ String.String "]" rest)) as Hshape.
    { destruct texts; [done|]. by rewrite join_cons2, !text_app_assoc. }
    rewrite <- Hshape in Hstart. rewrite Hstart.
    rewrite (parse_elements_join (t :: texts) (j :: js)); [done| |done|lia].
    by constructor.
Qed.

Lemma member_cons (key text rest : string) :
  member key text +:+ rest
  = String.String dquote_char
      (escape key +:+ String.String dquote_char (String.String ":" (text +:+ rest))).
Proof.
  unfold member. rewrite !text_app_assoc, quoted_cons. by rewrite text_app_cons, text_app_nil_l.
Qed.

Lemma member_length (key text : string) :
  String.length text < String.length (member key text).
Proof. unfold member. rewrite !text_app_length. cbn [String.length]. lia. Qed.

Lemma parse_members_join (keys texts : list string) (js : list Json) :
  Forall2 reads_as texts js → length keys = length texts → texts ≠ [] →
  ∀ fuel rest,
    String.length (join "," (zip_with member keys texts)) + 1 < fuel →
    parse_members fuel (join "," (zip_with member keys texts) +:+ String.String "}" rest)
    = Some (zip keys js, rest).
Proof.
  intros Hall. revert keys.
  induction Hall as [|t j texts js Ht Hrest IH]; [done|].
  intros [|key keys] Hlen _ [|fuel] rest Hfuel; try done; [lia|].
  injection Hlen as Hlen.
  destruct texts as [|t2 texts].
  - apply Forall2_nil_inv_l in Hrest as ->. destruct keys; [|done].
    cbn [zip_with join] in Hfuel |- *.
    pose proof (member_length key t).
    rewrite member_cons. cbn [parse_members].
    rewrite bool_decide_eq_true_2 by done. rewrite read_chars_escape.
    rewrite bool_decide_eq_true_2 by done.
    rewrite (Ht fuel) by (done || lia).
    by rewrite bool_decide_eq_false_2, bool_decide_eq_true_2.
  - destruct keys as [|key2 keys]; [done|].
    change (zip_with member (key :: key2 :: keys) (t :: t2 :: texts))
      with (member key t :: zip_with member (key2 :: keys) (t2 :: texts)) in *.
    specialize (IH (key2 :: keys) Hlen).
    destruct (zip_with member (key2 :: keys) (t2 :: texts)) as [|m ms] eqn:Hms; [done|].
    rewrite join_cons2 in Hfuel |- *.
    set (J := join "," (m :: ms)) in *.
    pose proof (member_length key t).
    rewrite !text_app_length in Hfuel. change (String.length ",") with 1 in Hfuel.
    rewrite (text_app_assoc (member key t)), member_cons. cbn [parse_members].
    rewrite bool_decide_eq_true_2 by done. rewrite read_chars_escape.
    rewrite bool_decide_eq_true_2 by done.
    rewrite text_app_assoc, text_app_cons, text_app_nil_l.
    rewrite (Ht fuel) by (done || lia).
    rewrite bool_decide_eq_true_2 by done.
    rewrite IH by (done || lia). done.
Qed.

Lemma reads_as_object (keys texts : list string) (js : list Json) :
  Forall2 reads_as texts js → length keys = length texts →
  reads_as ("{" +:+ join "," (zip_with member keys texts) +:+ "}") (JObject (zip keys js)).
Proof.
  intros Hall Hlen [|fuel] rest Hfuel Hrest; [lia|].
  rewrite text_app_length in Hfuel. rewrite text_app_length in Hfuel. simpl in Hfuel.
  rewrite (text_app_assoc "{"), text_app_cons, text_app_nil_l.
  rewrite (text_app_assoc (join _ _)), text_app_cons, text_app_nil_l. cbn [parse_value].
  rewrite bool_decide_eq_false_2, bool_decide_eq_false_2, bool_decide_eq_true_2 by done.
  destruct Hall as [|t j texts js Ht Hall].
  - destruct keys; [|done]. reflexivity.
  - destruct keys as [|key keys]; [done|].
    assert (strip "}" (join "," (zip_with member (key :: keys) (t :: texts))
                       +:+ String.String "}" rest) = None) as ->.
    { cbn [zip_with]. destruct (zip_with member keys texts).
      - cbn [join]. by rewrite member_cons.
      - by rewrite join_cons2, (text_app_assoc (member key t)), member_cons. }
    rewrite (parse_members_join (key :: keys) (t :: texts) (j :: js)); [done| |done|done|lia].
    by constructor.
Qed.

Section walk_all_facts.
Context (f : Stored → option (Outcome string)).

Lemma walk_all_Return l texts :
  walk_all f l = Some (Return texts) → Forall2 (λ s t, f s = Some (Return t)) l texts.
Proof.
  revert texts. induction l as [|s l IH]; intros texts; simpl.
  { intros [= <-]. constructor. }
  destruct (f s) as [[t|e| |]|] eqn:Hs; try done.
  destruct (walk_all f l) as [[ts|e| |]|] eqn:Hl; try done.
  intros [= <-]. constructor; eauto.
Qed.

Lemma walk_all_Throw l e :
  walk_all f l = Some (Throw e) → ∃ s, s ∈ l ∧ f s = Some (Throw e).
Proof.
  induction l as [|s l IH]; simpl; [done|].
  destruct (f s) as [[t|e'| |]|] eqn:Hs; try done.
  - destruct (walk_all f l) as [[ts|e'| |]|] eqn:Hl; try done.
    intros [= ->]. destruct IH as (s' & Hin & Hs'); [done|].
    exists s'. split; [by right|done].
  - intros [= ->]. exists s. split; [by left|done].
Qed.

Lemma walk_all_None l :
  walk_all f l = None → ∃ s, s ∈ l ∧ f s = None.
Proof.
  induction l as [|s l IH]; simpl; [done|].
  destruct (f s) as [[t|e'| |]|] eqn:Hs; try done.
  - destruct (walk_all f l) as [[ts|e'| |]|] eqn:Hl; try done.
    intros _. destruct IH as (s' & Hin & Hs'); [done|].
    exists s'. split; [by right|done].
  - intros _. exists s. split; [by left|done].
Qed.

Lemma walk_all_defined l :
  (∀ s, s ∈ l → f s ≠ Some Fault ∧ f s ≠ Some Undef) →
  walk_all f l ≠ Some Fault ∧ walk_all f l ≠ Some Undef.
Proof.
  induction l as [|s l IH]; intros Hl; simpl; [done|].
  destruct (Hl s) as [Hf Hu]; [by left|].
  destruct IH as [IHf IHu]; [intros s' Hs'; apply Hl; by right|].
  destruct (f s) as [[t|e'| |]|] eqn:Hs; try done.
  by destruct (walk_all f l) as [[ts|e'| |]|] eqn:Hall.
Qed.
End walk_all_facts.

Section walk_facts.
Context `{NativeTypes} (number_json : double → string) (σ : Engine).

Local Abbreviation walk := (walk number_json σ).
Local Abbreviation edge := (descends σ).
Local Abbreviation reaches := (descends_to σ).
Local Abbreviation cyclic := (loops σ).

(** The walk ends in a text or in the cycle error, nothing else. *)
Lemma walk_outcome fuel ancestors s o :
  walk fuel ancestors s = Some o → (∃ t, o = Return t) ∨ o = Throw cyclic_structure.
Proof.
  revert ancestors s o. induction fuel as [|fuel IH]; intros ancestors s o.
  - destruct s as [| |b|d|[] e]; simpl; try (intros [= <-]; eauto).
    + destruct (entities σ !! e) as [[]|]; intros [= <-]; eauto.
    + case_bool_decide; [intros [= <-]; eauto|].
      destruct (entities σ !! e); [done|]. intros [= <-]; eauto.
  - destruct s as [| |b|d|[] e]; simpl; try (intros [= <-]; eauto).
    + destruct (entities σ !! e) as [[]|]; intros [= <-]; eauto.
    + case_bool_decide; [intros [= <-]; eauto|].
      destruct (entities σ !! e) as [x|]; [|intros [= <-]; eauto].
      destruct (walk_all_defined (walk fuel (e :: ancestors)) (slots x)) as [Hf Hu].
      { intros c _. split; intros Hc; apply IH in Hc as [[t [=]]|[=]]. }
      destruct (walk_all _ _) as [[ts|err| |]|] eqn:Hall; try done.
      * intros [= <-]; eauto.
      * intros [= <-]. right. f_equal.
        apply walk_all_Throw in Hall as (c & _ & Hc).
        apply IH in Hc as [[t [=]]|[= ->]]. done.
Qed.

Lemma ancestors_bounded (ancestors : list EntityId) :
  NoDup ancestors → (∀ a, a ∈ ancestors → a ∈ dom (entities σ)) →
  length ancestors ≤ size (entities σ).
Proof.
  intros Hnd Hin. rewrite <- size_dom, <- (size_list_to_set (C:=gset EntityId)) by done.
  apply subseteq_size. intros a Ha. apply Hin. by apply elem_of_list_to_set in Ha.
Qed.

(** One unit of fuel per entity not yet among the ancestors is enough. *)
Lemma walk_fuel fuel ancestors s :
  NoDup ancestors → (∀ a, a ∈ ancestors → a ∈ dom (entities σ)) →
  size (entities σ) ≤ fuel + length ancestors →
  is_Some (walk fuel ancestors s).
Proof.
  revert ancestors s. induction fuel as [|fuel IH]; intros ancestors s Hnd Hin Hsize.
  - destruct s as [| |b|d|[] e]; simpl; try by eexists.
    + by destruct (entities σ !! e) as [[]|].
    + case_bool_decide as He; [by eexists|].
      destruct (entities σ !! e) as [x|] eqn:Hx; [|by eexists]. exfalso.
      assert (length (e :: ancestors) ≤ size (entities σ)) as Hle.
      { apply ancestors_bounded; [by constructor|].
        intros a [->|Ha]%elem_of_cons; [|by apply Hin]. apply elem_of_dom. eauto. }
      simpl in Hle. lia.
  - destruct s as [| |b|d|[] e]; simpl; try by eexists.
    + by destruct (entities σ !! e) as [[]|].
    + case_bool_decide as He; [by eexists|].
      destruct (entities σ !! e) as [x|] eqn:Hx; [|by eexists].
      destruct (walk_all _ _) as [[ts|err| |]|] eqn:Hall; try by eexists.
      apply walk_all_None in Hall as (c & _ & Hc).
      assert (is_Some (walk fuel (e :: ancestors) c)) as [o Ho]; [|congruence].
      apply IH.
      * by constructor.
      * intros a [->|Ha]%elem_of_cons; [|by apply Hin]. apply elem_of_dom. eauto.
      * simpl. lia.
Qed.

(** A walk that returns met no ancestor and no cycle on its way. *)
Lemma walk_Return fuel ancestors s t :
  walk fuel ancestors s = Some (Return t) →
  ∀ e, reaches s e → (e ∉ ancestors) ∧ ¬ (tc edge e e).
Proof.
  revert ancestors s t. induction fuel as [|fuel IH]; intros ancestors s t Hw e (e0 & -> & Hreach).
  - simpl in Hw. case_bool_decide as He0; [done|].
    destruct (entities σ !! e0) as [x|] eqn:Hx; [done|].
    apply rtc_inv in Hreach as [<-|(c & (x & Hx' & _) & _)]; [|congruence].
    split; [done|]. intros (c & (x & Hx' & _) & _)%tc_first_step. congruence.
  - simpl in Hw. case_bool_decide as He0; [done|].
    destruct (entities σ !! e0) as [x|] eqn:Hx.
    2:{ apply rtc_inv in Hreach as [<-|(c & (x & Hx' & _) & _)]; [|congruence].
        split; [done|]. intros (c & (x & Hx' & _) & _)%tc_first_step. congruence. }
    destruct (walk_all _ _) as [[ts|err| |]|] eqn:Hall; try done.
    pose proof (walk_all_Return _ _ _ Hall) as Hslots.
    assert (∀ c e', edge e0 c → rtc edge c e' → (e' ∉ e0 :: ancestors) ∧ ¬ (tc edge e' e'))
      as Hchild.
    { intros c e' (x' & Hx' & Hc) Hce'. assert (x' = x) as -> by congruence.
      apply list_elem_of_lookup in Hc as [i Hi].
      destruct (Forall2_lookup_l _ _ _ _ _ Hslots Hi) as (t' & _ & Ht').
      eapply IH; [exact Ht'|]. by exists c. }
    apply rtc_inv in Hreach as [<-|(c & Hedge & Hce)].
    + split; [done|]. intros (c & Hedge & Hce)%tc_first_step.
      destruct (Hchild c e0 Hedge Hce) as [Hnot _]. apply Hnot. by left.
    + destruct (Hchild c e Hedge Hce) as [Hnot Hno]. split; [|done].
      intros Ha. apply Hnot. by right.
Qed.

(** A walk that throws found a cycle, provided every ancestor leads to the
    slot the walk is at. *)
Lemma walk_Throw fuel ancestors s err :
  walk fuel ancestors s = Some (Throw err) →
  (∀ a e0, a ∈ ancestors → s = st_ref ObjectKind e0 → tc edge a e0) →
  cyclic s.
Proof.
  revert ancestors s. induction fuel as [|fuel IH]; intros ancestors s Hw Hanc.
  - destruct s as [| |b|d|[] e0]; simpl in Hw; try done.
    + by destruct (entities σ !! e0) as [[]|].
    + case_bool_decide as He0.
      * exists e0. split; [exists e0; split; [done|apply rtc_refl]|]. by apply Hanc.
      * by destruct (entities σ !! e0).
  - destruct s as [| |b|d|[] e0]; simpl in Hw; try done.
    + by destruct (entities σ !! e0) as [[]|].
    + case_bool_decide as He0.
      * exists e0. split; [exists e0; split; [done|apply rtc_refl]|]. by apply Hanc.
      * destruct (entities σ !! e0) as [x|] eqn:Hx; [|done].
        destruct (walk_all _ _) as [[ts|err'| |]|] eqn:Hall; try done.
        injection Hw as ->.
        apply walk_all_Throw in Hall as (c & Hc & Hwc).
        destruct (IH (e0 :: ancestors) c Hwc) as (e & (c0 & -> & Hreach) & Hcyc).
        { intros a c0 [->|Ha]%elem_of_cons ->.
          - apply tc_once. by exists x.
          - eapply tc_r; [by apply Hanc|]. by exists x. }
        exists e. split; [|done]. exists e0. split; [done|].
        eapply rtc_l; [|exact Hreach]. by exists x.
Qed.

(** The fuel given at the top is never used up. *)
Lemma toJSON_stored_walk s :
  walk (size (entities σ)) [] s = Some (toJSON_stored number_json σ s).
Proof.
  unfold toJSON_stored.
  destruct (walk_fuel (size (entities σ)) [] s) as [o Ho].
  - constructor.
  - by intros a Ha%elem_of_nil.
  - simpl. lia.
  - by rewrite Ho.
Qed.

Lemma toJSON_stored_loops s :
  toJSON_stored number_json σ s = Throw cyclic_structure ↔ cyclic s.
Proof.
  pose proof (toJSON_stored_walk s) as Hw. split.
  - intros Ht. rewrite Ht in Hw. eapply walk_Throw; [exact Hw|].
    by intros a e0 Ha%elem_of_nil.
  - intros (e & Hreach & Hcyc).
    destruct (walk_outcome _ _ _ _ Hw) as [[t Ht]|Ht]; [|done].
    rewrite Ht in Hw. by destruct (walk_Return _ _ _ _ Hw e Hreach).
Qed.

(** ** The walk against the graph *)

(** The slots the walk descends into are the edges of the graph. *)
Lemma descends_edge (e e' : EntityId) : descends σ e e' ↔ json.edge σ e e'.
Proof.
  unfold descends, json.edge.
  destruct (entities σ !! e) as [[chars|description|properties|payload|length elements]|].
  - split; [|done]. intros (x & [= <-] & Hin). by apply elem_of_nil in Hin.
  - split; [|done]. intros (x & [= <-] & Hin). by apply elem_of_nil in Hin.
  - split.
    + intros (x & [= <-] & Hin). simpl in Hin.
      apply list_elem_of_fmap in Hin as ([key s] & -> & Hin).
      apply list_elem_of_filter in Hin as [_ Hin].
      apply elem_of_map_to_list in Hin. by exists key.
    + intros [key Hkey]. eexists. split; [done|]. simpl.
      apply list_elem_of_fmap. exists (key, st_ref ObjectKind e'). split; [done|].
      apply list_elem_of_filter. split; [done|]. by apply elem_of_map_to_list.
  - split; [|done]. intros (x & [= <-] & Hin). by apply elem_of_nil in Hin.
  - split.
    + intros (x & [= <-] & Hin). simpl in Hin.
      apply list_elem_of_fmap in Hin as (i & Hi & Hin).
      apply elem_of_seq in Hin.
      exists (N.of_nat i). split; [lia|].
      destruct (elements !! N.of_nat i); simpl in Hi; by subst.
    + intros (i & Hi & Hlookup). eexists. split; [done|]. simpl.
      apply list_elem_of_fmap. exists (N.to_nat i).
      rewrite N2Nat.id, Hlookup. split; [done|]. apply elem_of_seq. lia.
  - split; [|done]. by intros (x & [=] & _).
Qed.

Lemma loops_cyclic (s : Stored) : loops σ s ↔ json.cyclic σ s.
Proof.
  unfold loops, json.cyclic, descends_to, json.reaches.
  split; intros (e & (e0 & -> & Hreach) & Hcyc); exists e; split;
    try (exists e0; split; [done|]);
    try (eapply rtc_iff; [|exact Hreach]); try (eapply tc_iff; [|exact Hcyc]);
    intros a b; by rewrite descends_edge.
Qed.

Lemma toJSON_stored_cyclic s :
  toJSON_stored number_json σ s = Throw cyclic_structure ↔ json.cyclic σ s.
Proof. by rewrite toJSON_stored_loops, loops_cyclic. Qed.

Lemma toJSON_stored_acyclic s :
  is_Return (toJSON_stored number_json σ s) = true ↔ ¬ json.cyclic σ s.
Proof.
  pose proof (toJSON_stored_walk s) as Hw.
  rewrite <- toJSON_stored_cyclic.
  destruct (walk_outcome _ _ _ _ Hw) as [[t ->]| ->]; simpl; [done|].
  split; [done|]. by intros [].
Qed.

(** ** The text against the structure *)

Section reads.
(** The engine prints a finite number as a number literal of JSON. *)
Hypothesis number_json_literal :
  ∀ d, PrimFloat.is_finite d = true → json_number (number_json d) = true.

Lemma walk_all_reads (n : nat) (ancestors : list EntityId) (l : list Stored)
    (texts : list string) :
  (∀ s t, walk n ancestors s = Some (Return t) →
          ∃ j, tree number_json σ n s = Some j ∧ reads_as t j) →
  walk_all (walk n ancestors) l = Some (Return texts) →
  ∃ js, Forall2 (λ s j, tree number_json σ n s = Some j) l js ∧ Forall2 reads_as texts js.
Proof.
  intros IH Hall. apply walk_all_Return in Hall.
  induction Hall as [|s t l texts Hs _ (js & Htree & Hreads)].
  - exists []. split; constructor.
  - destruct (IH s t Hs) as (j & Hj & Hjt).
    exists (j :: js). split; by constructor.
Qed.

Lemma tree_members (n : nat) (l : list (string * Stored)) (js : list Json) :
  Forall2 (λ s j, tree number_json σ n s = Some j) l.*2 js →
  mapM (λ m : string * Stored, pair m.1 <$> tree number_json σ n m.2) l
  = Some (zip l.*1 js).
Proof.
  revert js. induction l as [|[key s] l IH]; intros js Hall.
  - by apply Forall2_nil_inv_l in Hall as ->.
  - apply Forall2_cons_inv_l in Hall as (j & js' & Hj & Hall & ->).
    apply mapM_Some_2. constructor.
    + simpl in *. by rewrite Hj.
    + apply mapM_Some_1. by apply IH.
Qed.

Lemma walk_number_reads (d : double) :
  reads_as (if PrimFloat.is_finite d then number_json d else "null")
    (if PrimFloat.is_nan d || PrimFloat.is_infinity d then JNull
     else JNumber (number_json d)).
Proof.
  pose proof (number_json_literal d) as Hd. unfold PrimFloat.is_finite in *.
  destruct (PrimFloat.is_nan d || PrimFloat.is_infinity d); simpl in *.
  - apply reads_as_null.
  - by apply reads_as_number, Hd.
Qed.

(** A text the walk returns stands for the structure of the value. *)
Lemma walk_reads (n : nat) (ancestors : list EntityId) (s : Stored) (t : string) :
  walk n ancestors s = Some (Return t) →
  ∃ j, tree number_json σ n s = Some j ∧ reads_as t j.
Proof.
  revert ancestors s t. induction n as [|n IH]; intros ancestors s t Hw.
  - destruct s as [| |b|d|[] e]; simpl in Hw |- *; simplify_eq;
      eauto using reads_as_null, reads_as_bool.
    + eexists. split; [done|]. apply walk_number_reads.
    + destruct (entities σ !! e) as [[]|]; simplify_eq;
        eauto using reads_as_null, reads_as_quoted.
    + case_bool_decide; [done|].
      destruct (entities σ !! e); simplify_eq; eauto using reads_as_null.
  - destruct s as [| |b|d|[] e]; simpl in Hw |- *; simplify_eq;
      eauto using reads_as_null, reads_as_bool.
    + eexists. split; [done|]. apply walk_number_reads.
    + destruct (entities σ !! e) as [[]|]; simplify_eq;
        eauto using reads_as_null, reads_as_quoted.
    + case_bool_decide; [done|].
      destruct (entities σ !! e) as [x|]; simplify_eq; eauto using reads_as_null.
      destruct (walk_all _ _) as [[texts|err| |]|] eqn:Hall; simplify_eq.
      destruct (walk_all_reads n (e :: ancestors) _ _ (IH _) Hall) as (js & Htree & Hreads).
      destruct x as [chars|description|properties|payload|length elements]; simpl in *.
      * apply Forall2_nil_inv_l in Htree as ->. apply Forall2_nil_inv_r in Hreads as ->.
        eauto using reads_as_empty_object.
      * apply Forall2_nil_inv_l in Htree as ->. apply Forall2_nil_inv_r in Hreads as ->.
        eauto using reads_as_empty_object.
      * exists (JObject (zip (printed properties).*1 js)). split.
        -- assert (filter (λ m : string * Stored, has_text m.2 = true)
                     (map_to_list properties) = printed properties) as ->.
           { apply list_filter_iff. intros [key [| | | |[]]]; simpl; split; done. }
           by rewrite (tree_members n _ js).
        -- apply reads_as_object; [done|].
           rewrite length_fmap, <- (length_fmap snd).
           by eapply Forall2_length, walk_all_Return.
      * apply Forall2_nil_inv_l in Htree as ->. apply Forall2_nil_inv_r in Hreads as ->.
        eauto using reads_as_empty_object.
      * exists (JArray js). split; [|by apply reads_as_array].
        unfold array_slots in Htree. apply Forall2_fmap_l in Htree.
        erewrite mapM_Some_2; [done|].
        eapply Forall2_impl; [exact Htree|]. intros i j Hj. simpl in Hj.
        destruct (elements !! N.of_nat i); [done|]. by destruct n.
Qed.

(** The text of an acyclic value reads back as the structure of the
    value. *)
Lemma toJSON_stored_reads (s : Stored) :
  ¬ json.cyclic σ s →
  ∃ text j,
    toJSON_stored number_json σ s = Return text
    ∧ tree number_json σ (size (entities σ)) s = Some j
    ∧ parse text = Some j.
Proof.
  intros Hacyclic%toJSON_stored_acyclic.
  pose proof (toJSON_stored_walk s) as Hw.
  destruct (toJSON_stored number_json σ s) as [text|e| |] eqn:Htext; try done.
  destruct (walk_reads _ _ _ _ Hw) as (j & Hj & Hreads).
  exists text, j. split_and!; try done.
  unfold parse. specialize (Hreads (S (String.length text)) EmptyString).
  rewrite text_app_nil_r in Hreads. rewrite Hreads; [done|lia|done].
Qed.
End reads.
End walk_facts.

(** C6 (against the walk written from the specification).  Let [s] be
    what the engine stores for the value, and let the engine print every
    finite number as a number literal of JSON.  The walk of [toJSON] ends
    within the fuel it is given, one unit per entity of the engine, and
    leaves the engine as it was.  It ends in the serialization error
    exactly when the reference graph of the value is cyclic, and returns a
    text exactly when the graph is acyclic.  The text it then returns is a
    JSON text, and read back it gives the whole structure of the value:
    every element of every array and every printed property of every
    object, at every depth. *)
Theorem C6_toJSON_rejects_cycles `{NativeTypes} (number_json : double → string)
    (this : Value) (σ : Engine) (s : Stored) :
  (∀ d, PrimFloat.is_finite d = true → json_number (number_json d) = true) →
  store σ this = Some s →
  json.walk number_json σ (size (entities σ)) [] s
  = Some (Value_toJSON number_json this σ).1
  ∧ (Value_toJSON number_json this σ).2 = σ
  ∧ ((Value_toJSON number_json this σ).1 = Throw cyclic_structure ↔ cyclic σ s)
  ∧ (is_Return (Value_toJSON number_json this σ).1 = true ↔ ¬ cyclic σ s)
  ∧ (¬ cyclic σ s →
     ∃ text j,
       (Value_toJSON number_json this σ).1 = Return text
       ∧ tree number_json σ (size (entities σ)) s = Some j
       ∧ parse text = Some j).
Proof.
  intros Hnumber Hs. unfold Value_toJSON. rewrite Hs. simpl.
  split; [apply toJSON_stored_walk|]. split; [done|].
  split; [apply toJSON_stored_cyclic|].
  split; [apply toJSON_stored_acyclic|by apply toJSON_stored_reads].
Qed.

Lemma C6_toJSON_rejects_cycles_witness :
  demo.ring.1 = Return tt
  ∧ Value_toJSON demo.print_seven demo.two_slots_value demo.ring.2
    = (Throw cyclic_structure, demo.ring.2)
  ∧ demo.flat.1 = Return tt
  ∧ Value_toJSON demo.print_seven demo.two_slots_value demo.flat.2
    = (Return "[7,null]", demo.flat.2)
  ∧ ¬ cyclic demo.flat.2 (st_ref ObjectKind 1%positive)
  ∧ parse "[7,null]" = Some (JArray [JNumber "7"; JNull])
  ∧ ∃ text,
      Value_toJSON demo.print_seven demo.labelled_value demo.labelled
      = (Return text, demo.labelled)
      ∧ parse text = Some (JObject [("q", JString demo.awkward)]).
Proof.
  assert (∀ d, PrimFloat.is_finite d = true → json_number (demo.print_seven d) = true)
    as Hseven by done.
  pose proof (C6_toJSON_rejects_cycles demo.print_seven demo.two_slots_value demo.ring.2
                (st_ref ObjectKind 1%positive) Hseven ltac:(vm_compute; reflexivity))
    as (_ & Hstate & Hcyclic & _).
  pose proof (C6_toJSON_rejects_cycles demo.print_seven demo.two_slots_value demo.flat.2
                (st_ref ObjectKind 1%positive) Hseven ltac:(vm_compute; reflexivity))
    as (_ & _ & _ & Hacyclic & Hflat).
  pose proof (C6_toJSON_rejects_cycles demo.print_seven demo.labelled_value demo.labelled
                (st_ref ObjectKind 1%positive) Hseven ltac:(vm_compute; reflexivity))
    as (_ & Hsame & _ & Hplain & Hlabelled).
  assert (cyclic demo.ring.2 (st_ref ObjectKind 1%positive)) as Hring.
  { exists 1%positive. split.
    - exists 1%positive. split; [done|]. apply rtc_refl.
    - apply tc_once. unfold edge.
      destruct (entities demo.ring.2 !! 1%positive) as [[]|] eqn:Hx;
        vm_compute in Hx; try done.
      injection Hx as <- <-. exists 0%N. split; [done|]. vm_compute. reflexivity. }
  assert (¬ cyclic demo.flat.2 (st_ref ObjectKind 1%positive)) as Hno.
  { apply Hacyclic. vm_compute. reflexivity. }
  split; [vm_compute; reflexivity|]. split.
  { apply Hcyclic in Hring. rewrite <- Hstate at 2.
    rewrite <- Hring. by destruct (Value_toJSON _ _ _). }
  split; [vm_compute; reflexivity|]. split; [vm_compute; reflexivity|].
  split; [exact Hno|]. split.
  { destruct (Hflat Hno) as (text & j & Htext & Htree & Hparse).
    vm_compute in Htext. vm_compute in Htree.
    injection Htext as <-. injection Htree as <-. exact Hparse. }
  destruct Hlabelled as (text & j & Htext & Htree & Hparse).
  { apply Hplain. vm_compute. reflexivity. }
  exists text. split.
  - rewrite <- Hsame at 2. rewrite <- Htext. by destruct (Value_toJSON _ _ _).
  - rewrite Hparse. vm_compute in Htree. injection Htree as <-. reflexivity.
Defined.

End json_facts.

(* ===================================================================== *)
(** * Properties of the TextNode binding *)
(* ===================================================================== *)

Module textnode_facts.
Import textnode.

Section getProperty.
Context {JSContextRef JSStringRef JSValueRef : Type}.
Context (JSValueMakeString : JSContextRef → JSStringRef → JSValueRef).
Context (JSStringCreateWithUTF8CString : string → JSStringRef).
Context {TextNodeProperty : Type} `{EqDecision TextNodeProperty}.
Context (kData kTextContent kNodeName TextNodeProperty_zero : TextNodeProperty).
Context (NodeInstance_getProperty :
           string → option JSValueRef → JSValueRef * option JSValueRef).

Local Abbreviation propertyMap := (getTextNodePropertyMap kData kTextContent kNodeName).
Local Abbreviation switch :=
  (property_switch JSValueMakeString JSStringCreateWithUTF8CString
     kData kTextContent kNodeName).
Local Abbreviation getProperty :=
  (TextNodeInstance_getProperty JSValueMakeString JSStringCreateWithUTF8CString
     kData kTextContent kNodeName TextNodeProperty_zero NodeInstance_getProperty).

Lemma propertyMap_lookup (name : string) :
  propertyMap !! name
  = if decide (name = "data") then Some kData
    else if decide (name = "textContent") then Some kTextContent
    else if decide (name = "nodeName") then Some kNodeName
    else None.
Proof.
  unfold getTextNodePropertyMap.
  repeat (case_decide; [subst; by simplify_map_eq|]).
  by simplify_map_eq.
Qed.

Lemma propertyMap_is_Some (name : string) :
  is_Some (propertyMap !! name) ↔ name ∈ text_node_property_names.
Proof.
  unfold text_node_property_names. rewrite propertyMap_lookup, !elem_of_cons, elem_of_nil.
  repeat case_decide; subst; split; try (intros [? [=]]); eauto.
  intros [?|[?|[?|[]]]]; done.
Qed.

Lemma propertyMap_names (name : string) :
  contains propertyMap name = bool_decide (name ∈ text_node_property_names).
Proof. unfold contains. apply bool_decide_ext, propertyMap_is_Some. Qed.

(** Every enumerator has its case. *)
Lemma switch_enumerators (this : TextNodeInstance) (property : TextNodeProperty) :
  property ∈ [kData; kTextContent; kNodeName] → is_returned (switch this property) = true.
Proof.
  rewrite !elem_of_cons, elem_of_nil. unfold property_switch.
  intros [->|[->|[->|[]]]]; repeat case_bool_decide; done.
Qed.

Lemma propertyMap_range (name : string) (property : TextNodeProperty) :
  propertyMap !! name = Some property → property ∈ [kData; kTextContent; kNodeName].
Proof.
  rewrite propertyMap_lookup, !elem_of_cons.
  repeat case_decide; intros [= <-]; eauto.
Qed.

(** C9.  For every instance, property name and exception slot,
    [getProperty] returns a value: control never flows off the end of the
    function.  A name that is not one of data, textContent and nodeName is
    answered by the base class, with the same arguments; a name that is one
    of the three is answered inside the switch, which has a returning case
    for every value the property map holds. *)
Theorem C9_getProperty_returns_on_every_path (this : TextNodeInstance)
    (name : string) (exception : option JSValueRef) :
  is_returned (getProperty this name exception) = true
  ∧ getProperty this name exception
    = (if bool_decide (name ∈ text_node_property_names) then
         match switch this (subscript TextNodeProperty_zero propertyMap name) with
         | returned v => returned (v, exception)
         | flowed_off_end => flowed_off_end
         end
       else returned (NodeInstance_getProperty name exception))
  ∧ map_Forall (λ _ property, is_returned (switch this property) = true) propertyMap
  ∧ (propertyMap !! name = None ↔ name ∉ text_node_property_names).
Proof.
  assert (map_Forall (λ _ property, is_returned (switch this property) = true) propertyMap)
    as Hcases.
  { intros n property Hn. eapply switch_enumerators, propertyMap_range, Hn. }
  assert (propertyMap !! name = None ↔ name ∉ text_node_property_names) as Hnames.
  { by rewrite eq_None_not_Some, propertyMap_is_Some. }
  unfold TextNodeInstance_getProperty. rewrite propertyMap_names.
  split_and!; try done; [|by case_bool_decide].
  case_bool_decide as Hin; simpl; [|done].
  destruct (propertyMap !! name) as [property|] eqn:Hp.
  - unfold subscript. rewrite Hp. simpl.
    pose proof (Hcases name property Hp) as Hr. simpl in Hr.
    by destruct (switch this property).
  - apply propertyMap_is_Some in Hin as [property Hin]. congruence.
Qed.

(** With enumerators that differ, as the labels of one switch do, each name
    gets its own answer. *)
Lemma getProperty_by_name (this : TextNodeInstance) (exception : option JSValueRef) :
  kNodeName ≠ kData → kNodeName ≠ kTextContent →
  getProperty this "data" exception
  = returned (JSValueMakeString (hostClass_ctx this) (data this), exception)
  ∧ getProperty this "textContent" exception
    = returned (JSValueMakeString (hostClass_ctx this) (data this), exception)
  ∧ getProperty this "nodeName" exception
    = returned (JSValueMakeString (hostClass_ctx this)
                  (JSStringCreateWithUTF8CString "#text"), exception).
Proof.
  intros Hd Ht. unfold TextNodeInstance_getProperty, contains, subscript, property_switch.
  rewrite !propertyMap_lookup. simpl.
  rewrite (bool_decide_eq_true_2 (kData = kData)) by done.
  rewrite (bool_decide_eq_true_2 (kTextContent = kTextContent)) by done.
  rewrite (bool_decide_eq_true_2 (kNodeName = kNodeName)) by done.
  rewrite (bool_decide_eq_false_2 (kNodeName = kTextContent)) by done.
  rewrite (bool_decide_eq_false_2 (kNodeName = kData)) by done.
  rewrite orb_true_r. done.
Qed.
End getProperty.

Section instance_facts.
Context (allocate : gset positive → positive).

Local Abbreviation instance := (instance allocate).
Local Abbreviation step := (step allocate).

Lemma instance_hit (c : JSContextPtr) (s : Process) (q : JSTextNodePtr) :
  instanceMap s !! c = Some q → instance c s = (q, s).
Proof.
  intros Hc. unfold textnode.instance, instanceMap_subscript.
  rewrite bool_decide_eq_true_2 by eauto. simpl. by rewrite Hc.
Qed.

Lemma instance_miss (c : JSContextPtr) (s : Process) :
  instanceMap s !! c = None →
  instance c s
  = (Some (allocate (live s)),
     mkProcess (<[c := Some (allocate (live s))]> (instanceMap s))
               ({[allocate (live s)]} ∪ live s)).
Proof.
  intros Hc. unfold textnode.instance, instanceMap_subscript, new_JSTextNode.
  rewrite bool_decide_eq_false_2 by (rewrite Hc; by intros [? ?]).
  simpl. by rewrite lookup_insert_eq.
Qed.

(** After a call the map holds what the call returned. *)
Lemma instance_recorded (c : JSContextPtr) (s : Process) :
  instanceMap (instance c s).2 !! c = Some (instance c s).1.
Proof.
  destruct (instanceMap s !! c) as [q|] eqn:Hc.
  - by rewrite (instance_hit c s q Hc).
  - rewrite (instance_miss c s Hc). simpl. apply lookup_insert_eq.
Qed.

(** No step changes an entry of the map. *)
Lemma step_keeps_entry (s s' : Process) (c : JSContextPtr) (q : JSTextNodePtr) :
  step s s' → instanceMap s !! c = Some q → instanceMap s' !! c = Some q.
Proof.
  intros Hstep Hc. destruct Hstep as [c0 s|p s Hp|p s Hp]; try done.
  destruct (instanceMap s !! c0) as [q0|] eqn:Hc0.
  - by rewrite (instance_hit c0 s q0 Hc0).
  - rewrite (instance_miss c0 s Hc0). simpl.
    rewrite lookup_insert_ne; [done|]. intros ->. congruence.
Qed.

Lemma steps_keep_entry (s s' : Process) (c : JSContextPtr) (q : JSTextNodePtr) :
  rtc step s s' → instanceMap s !! c = Some q → instanceMap s' !! c = Some q.
Proof. induction 1; eauto using step_keeps_entry. Qed.

Lemma start_distinct : instances_distinct start.
Proof. split; simpl; intros *; by rewrite lookup_empty. Qed.

Section fresh_allocator.
(** [operator new] never returns the address of a live object. *)
Hypothesis allocate_fresh : ∀ X, allocate X ∉ X.

Lemma step_distinct (s s' : Process) :
  step s s' → instances_distinct s → instances_distinct s'.
Proof.
  intros Hstep. destruct Hstep as [c s|p s Hp|p s Hp]; intros [Hlive Hinj].
  - destruct (instanceMap s !! c) as [q|] eqn:Hc.
    { by rewrite (instance_hit c s q Hc). }
    rewrite (instance_miss c s Hc). simpl. split; simpl.
    + intros c0 q. destruct (decide (c0 = c)) as [->|Hne].
      * rewrite lookup_insert_eq. intros [= <-]. eexists. split; [done|]. set_solver.
      * rewrite lookup_insert_ne by done. intros (p & -> & Hp)%Hlive.
        exists p. split; [done|]. set_solver.
    + intros c1 c2 q.
      destruct (decide (c1 = c)) as [->|Hne1], (decide (c2 = c)) as [->|Hne2];
        rewrite ?lookup_insert_eq, ?lookup_insert_ne by done; try done.
      * intros [= <-] (p & [= <-] & Hp)%Hlive. by apply allocate_fresh in Hp.
      * intros (p & -> & Hp)%Hlive [= <-]. by apply allocate_fresh in Hp.
      * apply Hinj.
  - split; simpl; [|done].
    intros c q (p' & -> & Hp')%Hlive. exists p'. split; [done|]. set_solver.
  - split; simpl; [|done].
    intros c q Hc. destruct (Hlive c q Hc) as (p' & -> & Hp').
    exists p'. split; [done|]. apply elem_of_difference. split; [done|].
    intros ->%elem_of_singleton. by apply (Hp c).
Qed.

Lemma steps_distinct (s s' : Process) :
  rtc step s s' → instances_distinct s → instances_distinct s'.
Proof. induction 1; eauto using step_distinct. Qed.

End fresh_allocator.
End instance_facts.


End textnode_facts.

(* ===================================================================== *)
(** * Further properties of the value and handle layer *)
(* ===================================================================== *)

Module jsa_more_facts.
Import jsa probe jsa_more.

(** ** Values built from wrappers *)

Lemma move_construct_pair `{PointerDerived T} (a : T) :
  move_construct a = (a, wrap None).
Proof.
  unfold move_construct, Pointer_move, wrap, Pointer_of. f_equal.
  rewrite <- (from_to_Pointer a) at 2. by destruct (to_Pointer a).
Qed.

Lemma handle_of_wrap `{PointerDerived T} (ptr : option PointerValue) :
  handle (wrap (T:=T) ptr) = ptr.
Proof. unfold handle, wrap. by rewrite to_from_Pointer. Qed.

Lemma wrap_of_handle `{PointerDerived T} (t : T) : wrap (handle t) = t.
Proof.
  unfold handle, wrap, Pointer_of.
  rewrite <- (from_to_Pointer t) at 2. by destruct (to_Pointer t).
Qed.

Lemma Value_move_pair `{ValueMovable T} (other : T) :
  Value_move other
  = (mkValue (kindOf (T:=T)) (pointer (to_Pointer other)), wrap None).
Proof. unfold Value_move. by rewrite move_construct_pair. Qed.

(** The value move-constructed from a wrapper is of the kind of the
    wrapper's class and of no other: a symbol for a [Symbol], a string for
    a [String], an object for an [Object], [Array], [ArrayBuffer],
    [ArrayBufferView] or [Function].  It holds the wrapper's handle, and
    the wrapper is left without one. *)
Theorem Value_from_wrapper_kind (y : Symbol) (s : String) (o : Object) (a : Array)
    (b : ArrayBuffer) (w : ArrayBufferView) (f : Function) :
  kind_tests (Value_move y).1 = [false; false; false; false; true; false; false]
  ∧ kind_tests (Value_move s).1 = [false; false; false; false; false; true; false]
  ∧ kind_tests (Value_move o).1 = [false; false; false; false; false; false; true]
  ∧ kind_tests (Value_move a).1 = [false; false; false; false; false; false; true]
  ∧ kind_tests (Value_move b).1 = [false; false; false; false; false; false; true]
  ∧ kind_tests (Value_move w).1 = [false; false; false; false; false; false; true]
  ∧ kind_tests (Value_move f).1 = [false; false; false; false; false; false; true]
  ∧ data_ (Value_move y).1 = pointer (mkPointer (handle y))
  ∧ data_ (Value_move s).1 = pointer (mkPointer (handle s))
  ∧ data_ (Value_move o).1 = pointer (mkPointer (handle o))
  ∧ data_ (Value_move f).1 = pointer (mkPointer (handle f))
  ∧ handle (Value_move y).2 = None
  ∧ handle (Value_move s).2 = None
  ∧ handle (Value_move o).2 = None
  ∧ handle (Value_move f).2 = None
  ∧ data_ (Value_move a).1 = pointer (mkPointer (handle a))
  ∧ data_ (Value_move b).1 = pointer (mkPointer (handle b))
  ∧ data_ (Value_move w).1 = pointer (mkPointer (handle w))
  ∧ handle (Value_move a).2 = None
  ∧ handle (Value_move b).2 = None
  ∧ handle (Value_move w).2 = None.
Proof.
  rewrite !Value_move_pair.
  destruct y as [[?]], s as [[?]], o as [[?]], f as [[[?]]],
    a as [[[?]]], b as [[[?]]], w as [[[?]]].
  by split_and!.
Qed.

(** Moving a wrapper into a value and taking it out again with the rvalue
    accessor of its kind gives the wrapper back, without any call to the
    engine; the accessor of another kind faults.  The value that was
    emptied keeps its kind: the accessor of its kind does not fault on it
    a second time, it returns a wrapper that holds no handle. *)
Theorem Value_move_in_move_out (y : Symbol) (s : String) (o : Object) :
  Value_getSymbol_rv (Value_move y).1
  = Return (y, mkValue SymbolKind (pointer (mkPointer None)))
  ∧ Value_getString_rv (Value_move s).1
    = Return (s, mkValue StringKind (pointer (mkPointer None)))
  ∧ Value_getObject_rv (Value_move o).1
    = Return (o, mkValue ObjectKind (pointer (mkPointer None)))
  ∧ Value_getString_rv (Value_move o).1 = Fault
  ∧ Value_getSymbol_rv (Value_move o).1 = Fault
  ∧ Value_getObject_rv (Value_move s).1 = Fault
  ∧ Value_getObject_rv (Value_move y).1 = Fault
  ∧ Value_isObject (mkValue ObjectKind (pointer (mkPointer None))) = true
  ∧ Value_getObject_rv (mkValue ObjectKind (pointer (mkPointer None)))
    = Return (wrap None, mkValue ObjectKind (pointer (mkPointer None)))
  ∧ Value_getSymbol_rv (Value_move s).1 = Fault
  ∧ Value_getString_rv (Value_move y).1 = Fault.
Proof.
  rewrite !Value_move_pair. simpl.
  destruct y as [[?]], s as [[?]], o as [[?]]. by split_and!.
Qed.

(** The asserting accessors fault exactly on a value of another kind:
    [getNumber] and the three rvalue accessors, for every value at all.
    What the scalar constructors store, the accessors read back. *)
Theorem Value_accessors_fault_exactly (v : Value) (b : bool) (d : double) (i : Z) :
  is_Fault (Value_getNumber v) = negb (Value_isNumber v)
  ∧ is_Fault (Value_getSymbol_rv v) = negb (Value_isSymbol v)
  ∧ is_Fault (Value_getString_rv v) = negb (Value_isString v)
  ∧ is_Fault (Value_getObject_rv v) = negb (Value_isObject v)
  ∧ Value_getNumber (Value_double d) = Return d
  ∧ Value_getNumber (Value_int i) = Return (double_of_int i)
  ∧ Value_getBool (Value_bool b) = Return b
  ∧ Value_getNumber (Value_bool b) = Fault
  ∧ Value_getNumber Value_undefined = Fault
  ∧ Value_getNumber Value_null = Fault.
Proof.
  unfold Value_getNumber, Value_getSymbol_rv, Value_getString_rv, Value_getObject_rv,
    Value_steal.
  split_and!; try done.
  - destruct (Value_isNumber v); [|done]. by destruct (data_ v).
  - destruct (Value_isSymbol v); [|done]. by destruct (data_ v).
  - destruct (Value_isString v); [|done]. by destruct (data_ v).
  - destruct (Value_isObject v); [|done]. by destruct (data_ v).
Qed.

(** ** Casts of objects *)

(** The asserting rvalue casts ([getArray], [getArrayBuffer], [getFunction]
    on an rvalue) fault exactly when the engine denies the capability, and
    never change the engine.  When they return, the new wrapper holds the
    handle the object held and the object is left without one: whatever
    the order in which the two are destroyed afterwards, the handle is
    invalidated once. *)
Theorem rvalue_casts_hand_over `{HandleOps Σ, TypeOps Σ} (o : Object) (σ : Σ)
    (h : PointerValue) (j : journal) :
  is_Fault (Object_getArray_rv o σ).1 = negb (isArray o σ)
  ∧ is_Fault (Object_getArrayBuffer_rv o σ).1 = negb (isArrayBuffer o σ)
  ∧ is_Fault (Object_getFunction_rv o σ).1 = negb (isFunction o σ)
  ∧ (Object_getArray_rv o σ).2 = σ
  ∧ (Object_getArrayBuffer_rv o σ).2 = σ
  ∧ (Object_getFunction_rv o σ).2 = σ
  ∧ (Object_getArray_rv o σ).1
    = (if isArray o σ then Return (wrap (handle o), wrap None) else Fault)
  ∧ (Object_getArrayBuffer_rv o σ).1
    = (if isArrayBuffer o σ then Return (wrap (handle o), wrap None) else Fault)
  ∧ (Object_getFunction_rv o σ).1
    = (if isFunction o σ then Return (wrap (handle o), wrap None) else Fault)
  ∧ destroy journal_invalidate (wrap (T:=Array) (Some h))
      (destroy journal_invalidate (wrap (T:=Object) None) j) = h :: j
  ∧ destroy journal_invalidate (wrap (T:=Object) None)
      (destroy journal_invalidate (wrap (T:=Function) (Some h)) j) = h :: j
  ∧ destroy journal_invalidate (wrap (T:=ArrayBuffer) (Some h))
      (destroy journal_invalidate (wrap (T:=Object) None) j) = h :: j.
Proof.
  unfold Object_getArray_rv, Object_getArrayBuffer_rv, Object_getFunction_rv,
    cast_steal, bind, assert, ret.
  destruct (isArray o σ), (isArrayBuffer o σ), (isFunction o σ); by split_and!.
Qed.

(** ** Conversion of arguments *)

Lemma toValue_returns_kind `{HandleOps Σ, StringOps Σ} (a : ToValueArg) (σ σ1 : Σ) (v : Value) :
  toValue a σ = (Return v, σ1) → kind_ v = expected_kind a.
Proof.
  destruct a as [| | | | |str|str|y|s|o|w|w]; simpl;
    try (by intros [= <- _]).
  - unfold bind, String_createFromAscii.
    destruct (createStringFromAscii str σ) as [[k|e| |] σ2]; try done.
    by intros [= <- _].
  - unfold bind, String_createFromAscii.
    destruct (createStringFromAscii str σ) as [[k|e| |] σ2]; try done.
    by intros [= <- _].
  - unfold Value_of_Symbol, bind.
    destruct (cloneSymbol (handle y) σ) as [[q|e| |] σ2]; try done.
    by intros [= <- _].
  - unfold Value_of_String, bind.
    destruct (cloneString (handle s) σ) as [[q|e| |] σ2]; try done.
    by intros [= <- _].
  - unfold Value_of_Object, bind.
    destruct (cloneObject (handle o) σ) as [[q|e| |] σ2]; try done.
    by intros [= <- _].
  - unfold Value_copy.
    destruct (kind_ w) eqn:Hk, (data_ w) as [b|d|p]; try (by intros [= <- _]);
      unfold bind.
    + destruct (cloneSymbol (ptr_ p) σ) as [[q|e| |] σ2]; try done. by intros [= <- _].
    + destruct (cloneString (ptr_ p) σ) as [[q|e| |] σ2]; try done. by intros [= <- _].
    + destruct (cloneObject (ptr_ p) σ) as [[q|e| |] σ2]; try done. by intros [= <- _].
Qed.

(** Whenever [toValue] returns, the value is of the kind that goes with the
    C++ type of the argument: null for [nullptr], boolean for [bool],
    number for [double], [float] and [int], string for a C string, a
    [std::string] or a [String], symbol for a [Symbol], object for an
    [Object], and the kind of the value itself for a [Value]. *)
Theorem toValue_kind `{HandleOps Σ, StringOps Σ} (a : ToValueArg) (σ σ1 : Σ) (v : Value) :
  toValue a σ = (Return v, σ1) → kind_ v = expected_kind a.
Proof. intros Hv. by apply (toValue_returns_kind a σ σ1). Qed.

Lemma toValue_kind_witness :
  toValue (Σ:=Recorder) (arg_cstr "id") []
  = (Return (mkValue StringKind (pointer (mkPointer (Some probe_key)))),
     [prim_createStringFromAscii "id"])
  ∧ expected_kind (arg_cstr "id") = StringKind.
Proof.
  split; [reflexivity|].
  symmetry.
  exact (toValue_kind (Σ:=Recorder) (arg_cstr "id") [] _ _ eq_refl).
Defined.

(** ** C strings and names *)

Lemma append_nil (s : string) : EmptyString +:+ s = s.
Proof. reflexivity. Qed.

Lemma append_cons (c : Ascii.ascii) (s1 s2 : string) :
  String.String c s1 +:+ s2 = String.String c (s1 +:+ s2).
Proof. reflexivity. Qed.

Lemma append_assoc (s1 s2 s3 : string) : (s1 +:+ s2) +:+ s3 = s1 +:+ (s2 +:+ s3).
Proof.
  induction s1 as [|c s1 IH]; [done|]. rewrite !append_cons. by rewrite IH.
Qed.

Lemma strlen_terminated (a rest : string) :
  has_NUL a = false → strlen (a +:+ String.String NUL rest) = Some (String.length a).
Proof.
  induction a as [|c a IH].
  - reflexivity.
  - rewrite append_cons. simpl. intros [Hc Ha]%orb_false_elim.
    rewrite Hc. by rewrite IH.
Qed.

Lemma strlen_unterminated (a : string) : has_NUL a = false → strlen a = None.
Proof.
  induction a as [|c a IH]; simpl; [done|].
  intros [Hc Ha]%orb_false_elim. rewrite Hc. by rewrite IH.
Qed.

Lemma first_chars_prefix (a rest : string) :
  first_chars (String.length a) (a +:+ rest) = a.
Proof.
  induction a as [|c a IH].
  - rewrite append_nil. by destruct rest.
  - rewrite append_cons. simpl. by rewrite IH.
Qed.

(** The overloads that take a C string measure it with [strlen]; those that
    take a [std::string] use its size.  For a text [a] without a
    terminator in it both hand the adapter exactly [a].  For a
    [std::string] with an embedded terminator, [a] then the terminator
    then [b], the [std::string] overloads hand over all of it, while the C
    string overloads applied to its [c_str()] hand over [a] only.  A buffer
    with no terminator at all gives the C string overloads no defined
    result.  [toPropNameID] sends a C string through the ASCII primitive
    and a [std::string] through the UTF-8 one. *)
Theorem cstring_overloads_measure `{PropNameOps Σ, StringOps Σ} (a b : string) (σ : Σ) :
  has_NUL a = false →
  PropNameID_forAscii_cstr (c_str a) σ = createPropNameIDFromAscii a σ
  ∧ PropNameID_forAscii_string a σ = createPropNameIDFromAscii a σ
  ∧ String_createFromAscii_cstr (c_str a) σ = createStringFromAscii a σ
  ∧ String_createFromAscii_string a σ = createStringFromAscii a σ
  ∧ PropNameID_forAscii_cstr (c_str (a +:+ String.String NUL b)) σ
    = createPropNameIDFromAscii a σ
  ∧ PropNameID_forAscii_string (a +:+ String.String NUL b) σ
    = createPropNameIDFromAscii (a +:+ String.String NUL b) σ
  ∧ String_createFromAscii_cstr (c_str (a +:+ String.String NUL b)) σ
    = createStringFromAscii a σ
  ∧ String_createFromAscii_string (a +:+ String.String NUL b) σ
    = createStringFromAscii (a +:+ String.String NUL b) σ
  ∧ PropNameID_forAscii_cstr a σ = (Undef, σ)
  ∧ String_createFromAscii_cstr a σ = (Undef, σ)
  ∧ toPropNameID (name_cstr (c_str a)) σ = createPropNameIDFromAscii a σ
  ∧ toPropNameID (name_std_string a) σ = createPropNameIDFromUtf8 a σ.
Proof.
  intros Ha.
  unfold toPropNameID, PropNameID_forAscii_cstr, PropNameID_forAscii_string,
    String_createFromAscii_cstr, String_createFromAscii_string,
    PropNameID_forUtf8_string, PropNameID_forAscii, String_createFromAscii_length, c_str.
  rewrite !append_assoc, !append_cons.
  rewrite !strlen_terminated, !first_chars_prefix by done.
  rewrite (strlen_unterminated a Ha).
  rewrite <- append_cons, <- append_assoc, first_chars_prefix.
  by split_and!.
Qed.

(** The text id, a terminator, and more text behind it. *)
Lemma cstring_overloads_measure_witness :
  PropNameID_forAscii_cstr (Σ:=Texts) (c_str ("id" +:+ String.String NUL "tail")) []
  = (Return (wrap (Some probe_key)), ["id"])
  ∧ PropNameID_forAscii_string (Σ:=Texts) ("id" +:+ String.String NUL "tail") []
    = (Return (wrap (Some probe_key)), ["id" +:+ String.String NUL "tail"]).
Proof.
  destruct (cstring_overloads_measure (Σ:=Texts) "id" "tail" [] eq_refl)
    as (_ & _ & _ & _ & Hcstr & Hstring & _).
  split; [exact Hcstr|exact Hstring].
Defined.

Lemma names_loop_spec (l result : list PropNameID) :
  names_loop l result = (result ++ l, replicate (length l) (wrap None)).
Proof.
  revert result. induction l as [|name l IH]; intros result; cbn [names_loop].
  - by rewrite app_nil_r.
  - rewrite move_construct_pair, IH. simpl. by rewrite <- app_assoc.
Qed.

Lemma destroy_cases `{PointerDerived T} (t : T) (j : journal) :
  destroy journal_invalidate t j
  = match handle t with Some p => journal_invalidate p j | None => j end.
Proof. reflexivity. Qed.

Lemma destroy_all_cons `{PointerDerived T} {Σ} (inv : PointerValue → Σ → Σ)
    (t : T) (l : list T) (σ : Σ) :
  destroy_all inv (t :: l) σ = destroy inv t (destroy_all inv l σ).
Proof. reflexivity. Qed.

Lemma destroy_all_empty `{PointerDerived T} (n : nat) (j : journal) :
  destroy_all journal_invalidate (replicate n (wrap (T:=T) None)) j = j.
Proof.
  induction n as [|n IH]; [done|].
  cbn [replicate]. rewrite destroy_all_cons, IH, destroy_cases.
  by rewrite handle_of_wrap.
Qed.

Lemma destroy_all_invalidations `{PointerDerived T} (l : list T) (h : PointerValue)
    (j : journal) :
  invalidations h (destroy_all journal_invalidate l j)
  = length (filter (λ t, handle t = Some h) l) + invalidations h j.
Proof.
  induction l as [|t l IH]; [done|].
  rewrite destroy_all_cons, destroy_cases.
  destruct (handle t) as [p|] eqn:Hp.
  - destruct (decide (p = h)) as [->|Hne].
    + rewrite filter_cons_True by done.
      rewrite jsa_facts.invalidations_cons_eq, IH. done.
    + rewrite filter_cons_False by congruence.
      rewrite jsa_facts.invalidations_cons_ne by done. apply IH.
  - rewrite filter_cons_False by (by rewrite Hp). apply IH.
Qed.

(** [PropNameID::names] on an array of names returns a vector with the same
    names in the same order, and leaves every element of the array without
    a handle.  So destroying the array afterwards invalidates nothing, and
    destroying the vector invalidates each handle as many times as the
    array held it. *)
Theorem PropNameID_names_moves_all (l : list PropNameID) (h : PointerValue) (j : journal) :
  (PropNameID_names l).1 = l
  ∧ length (PropNameID_names l).2 = length l
  ∧ Forall (λ name, handle name = None) (PropNameID_names l).2
  ∧ destroy_all journal_invalidate (PropNameID_names l).2 j = j
  ∧ invalidations h
      (destroy_all journal_invalidate (PropNameID_names l).1
         (destroy_all journal_invalidate (PropNameID_names l).2 j))
    = length (filter (λ name, handle name = Some h) l) + invalidations h j.
Proof.
  unfold PropNameID_names. rewrite names_loop_spec. cbn [fst snd app].
  rewrite (destroy_all_empty (T:=PropNameID)), destroy_all_invalidations, length_replicate.
  split_and!; try done.
  apply Forall_replicate. apply (handle_of_wrap (T:=PropNameID)).
Qed.

(** ** Variadic calls *)

Section variadic_facts.
Context `{HandleOps Σ, StringOps Σ, CallOps Σ}.

Lemma toValues_cons (a : ToValueArg) (rest : list ToValueArg) (σ : Σ) :
  toValues (a :: rest) σ
  = match toValue a σ with
    | (Return v, σ') =>
        match toValues rest σ' with
        | (Return vs, σ1) => (Return (v :: vs), σ1)
        | (Throw e, σ1) => (Throw e, σ1)
        | (Fault, σ1) => (Fault, σ1)
        | (Undef, σ1) => (Undef, σ1)
        end
    | (Throw e, σ') => (Throw e, σ')
    | (Fault, σ') => (Fault, σ')
    | (Undef, σ') => (Undef, σ')
    end.
Proof.
  cbn [toValues]. unfold bind, ret.
  destruct (toValue a σ) as [[v|e| |] σ']; try done.
Qed.

Lemma with_values_cons {A} (a : ToValueArg) (rest : list ToValueArg)
    (k : list Value → M Σ A) (σ : Σ) :
  with_values (a :: rest) k σ
  = match toValue a σ with
    | (Return v, σ') => finally (with_values rest (λ vs, k (v :: vs))) (Value_dtor v) σ'
    | (Throw e, σ') => (Throw e, σ')
    | (Fault, σ') => (Fault, σ')
    | (Undef, σ') => (Undef, σ')
    end.
Proof. reflexivity. Qed.

(** When every conversion returns, [k] runs on the converted values in the
    state the conversions left, and the values are destroyed afterwards. *)
Lemma with_values_converted {A} (args : list ToValueArg) (k : list Value → M Σ A)
    (σ σ1 : Σ) (vs : list Value) :
  toValues args σ = (Return vs, σ1) →
  with_values args k σ = finally (k vs) (destroy_values vs) σ1.
Proof.
  revert k σ vs. induction args as [|a rest IH]; intros k σ vs.
  - intros [= <- <-]. cbn [with_values]. unfold finally, destroy_values. simpl.
    by destruct (k [] σ) as [[r|e| |] σ2].
  - rewrite toValues_cons, with_values_cons.
    destruct (toValue a σ) as [[v|e| |] σ']; try done.
    destruct (toValues rest σ') as [[vs'|e| |] σ''] eqn:Hrest; try done.
    intros [= <- <-].
    unfold finally at 1. rewrite (IH _ _ _ Hrest).
    unfold finally, destroy_values. simpl.
    by destruct (k (v :: vs') σ'') as [[r|e| |] σ2].
Qed.

(** When a conversion does not return, neither does the whole, with the
    same outcome, and [k] does not decide it. *)
Lemma with_values_not_converted {A} (args : list ToValueArg) (k : list Value → M Σ A)
    (σ : Σ) :
  match (toValues args σ).1 with
  | Return _ => True
  | Throw e => (with_values args k σ).1 = Throw e
  | Fault => (with_values args k σ).1 = Fault
  | Undef => (with_values args k σ).1 = Undef
  end.
Proof.
  revert k σ. induction args as [|a rest IH]; intros k σ; [done|].
  rewrite toValues_cons, with_values_cons.
  destruct (toValue a σ) as [[v|e| |] σ']; try done.
  specialize (IH (λ vs, k (v :: vs)) σ').
  unfold finally.
  destruct (toValues rest σ') as [[vs'|e| |] σ'']; simpl in *; try done.
  - by destruct (with_values rest _ σ') as [[r|e'| |] σ2]; simplify_eq/=.
  - by destruct (with_values rest _ σ') as [[r|e'| |] σ2]; simplify_eq/=.
  - by destruct (with_values rest _ σ') as [[r|e'| |] σ2]; simplify_eq/=.
Qed.

Lemma toValues_kinds (args : list ToValueArg) (σ σ1 : Σ) (vs : list Value) :
  toValues args σ = (Return vs, σ1) →
  Forall2 (λ a v, kind_ v = expected_kind a) args vs.
Proof.
  revert σ vs. induction args as [|a rest IH]; intros σ vs.
  - intros [= <- <-]. constructor.
  - rewrite toValues_cons.
    destruct (toValue a σ) as [[v|e| |] σ'] eqn:Hv; try done.
    destruct (toValues rest σ') as [[vs'|e| |] σ''] eqn:Hrest; try done.
    intros [= <- <-]. constructor; [|by eapply IH].
    by eapply toValue_returns_kind.
Qed.

(** The variadic [call], [callWithThis] and [callAsConstructor] convert
    their arguments from left to right.  When every conversion returns,
    there is one value per argument, each of the kind that goes with its
    argument, the pointer-and-count overload of the same mode runs on
    exactly these values in the state the conversions left, and the values
    are destroyed after it on return and on a script error.  When a
    conversion throws or fails, the call has that outcome, whatever the
    function called would have done. *)
Theorem variadic_calls_marshal (f : Function) (jsThis : Object)
    (args : list ToValueArg) (σ : Σ) :
  match toValues args σ with
  | (Return vs, σ1) =>
      Forall2 (λ a v, kind_ v = expected_kind a) args vs
      ∧ Function_call_variadic f args σ
        = finally (call f Value_undefined vs) (destroy_values vs) σ1
      ∧ Function_callWithThis_variadic f jsThis args σ
        = finally (Function_callWithThis f jsThis vs) (destroy_values vs) σ1
      ∧ Function_callAsConstructor_variadic f args σ
        = finally (callAsConstructor f vs) (destroy_values vs) σ1
  | (Throw e, _) =>
      (Function_call_variadic f args σ).1 = Throw e
      ∧ (Function_callWithThis_variadic f jsThis args σ).1 = Throw e
      ∧ (Function_callAsConstructor_variadic f args σ).1 = Throw e
  | (Fault, _) =>
      (Function_call_variadic f args σ).1 = Fault
      ∧ (Function_callWithThis_variadic f jsThis args σ).1 = Fault
      ∧ (Function_callAsConstructor_variadic f args σ).1 = Fault
  | (Undef, _) =>
      (Function_call_variadic f args σ).1 = Undef
      ∧ (Function_callWithThis_variadic f jsThis args σ).1 = Undef
      ∧ (Function_callAsConstructor_variadic f args σ).1 = Undef
  end.
Proof.
  unfold Function_call_variadic, Function_callWithThis_variadic,
    Function_callAsConstructor_variadic.
  pose proof (with_values_not_converted args (Function_call_list f) σ) as Hc1.
  pose proof (with_values_not_converted args (Function_callWithThis_list f jsThis) σ) as Hc2.
  pose proof (with_values_not_converted args (Function_callAsConstructor_list f) σ) as Hc3.
  destruct (toValues args σ) as [[vs|e| |] σ1] eqn:Hvs; simpl in Hc1, Hc2, Hc3; try done.
  split; [by eapply toValues_kinds|].
  by rewrite !(with_values_converted _ _ _ _ _ Hvs).
Qed.
End variadic_facts.

End jsa_more_facts.

(* ===================================================================== *)
(** * Properties of the text node members *)
(* ===================================================================== *)

Module textnode_more_facts.
Import textnode textnode_more.

Section TextNodeInstance_facts.
Context {JSContextRef JSValueRef JSObjectRef OpaqueJSString UICommandArgs : Type}.
Context `{EqDecision OpaqueJSString}.
Local Abbreviation JSStringRef := (option OpaqueJSString).
Context (JSValueMakeString : JSContextRef → JSStringRef → JSValueRef).
Context (JSStringCreateWithUTF8CString : string → JSStringRef).
Context (JSValueToStringCopy :
           JSContextRef → JSValueRef → option JSValueRef → JSStringRef * option JSValueRef).
Context (JSStringToStdString : JSStringRef → string).
Context (buildUICommandArgs : string → UICommandArgs).
Context (NodeInstance_setProperty :
           string → JSValueRef → option JSValueRef → option JSValueRef).
Context (NodeInstance_getPropertyNames : list JSStringRef → list JSStringRef).
Context {TextNodeProperty : Type} `{EqDecision TextNodeProperty}.
Context (kData kTextContent kNodeName TextNodeProperty_zero : TextNodeProperty).

Local Abbreviation Effect := (@Effect JSValueRef OpaqueJSString UICommandArgs).
Local Abbreviation TextNode := (@TextNode JSContextRef JSObjectRef OpaqueJSString).
Local Abbreviation propertyMap := (getTextNodePropertyMap kData kTextContent kNodeName).
Local Abbreviation getProperty_over :=
  (TextNodeInstance_getProperty JSValueMakeString JSStringCreateWithUTF8CString
     kData kTextContent kNodeName TextNodeProperty_zero).
Local Abbreviation setProperty :=
  (TextNodeInstance_setProperty (JSObjectRef:=JSObjectRef) JSValueToStringCopy
     JSStringToStdString buildUICommandArgs NodeInstance_setProperty).
Local Abbreviation set_properties :=
  (set_properties (JSObjectRef:=JSObjectRef) JSValueToStringCopy
     JSStringToStdString buildUICommandArgs NodeInstance_setProperty).
Local Abbreviation new :=
  (TextNodeInstance_new (JSContextRef:=JSContextRef) (JSValueRef:=JSValueRef)
     (JSObjectRef:=JSObjectRef) JSStringToStdString buildUICommandArgs).
Local Abbreviation instanceConstructor :=
  (JSTextNode_instanceConstructor (JSObjectRef:=JSObjectRef) JSValueToStringCopy
     JSStringToStdString buildUICommandArgs).
Local Abbreviation lifetime :=
  (lifetime (JSObjectRef:=JSObjectRef) JSValueToStringCopy
     JSStringToStdString buildUICommandArgs NodeInstance_setProperty).
Local Abbreviation getPropertyNames :=
  (TextNodeInstance_getPropertyNames JSStringCreateWithUTF8CString
     NodeInstance_getPropertyNames).

(** ** The property names *)

Lemma add_names (accumulator names : list JSStringRef) :
  foldl (λ accumulator property, accumulator ++ [property]) accumulator names
  = accumulator ++ names.
Proof.
  revert accumulator. induction names as [|n names IH]; intros accumulator; simpl.
  - by rewrite app_nil_r.
  - rewrite IH. by rewrite <- app_assoc.
Qed.

(** What [getProperty] gives for one of the names answered from [data]. *)
Lemma getProperty_from_data (base : string → option JSValueRef → JSValueRef * option JSValueRef)
    (this : TextNodeInstance) (name : string) (exception : option JSValueRef) :
  name = "data" ∨ name = "textContent" →
  getProperty_over base this name exception
  = returned (JSValueMakeString (hostClass_ctx this) (data this), exception).
Proof.
  intros Hname.
  unfold TextNodeInstance_getProperty, contains, subscript, property_switch.
  rewrite !textnode_facts.propertyMap_lookup.
  destruct Hname as [-> | ->]; simpl.
  - rewrite (bool_decide_eq_true_2 (kData = kData)) by done.
    by rewrite orb_true_r.
  - by rewrite (bool_decide_eq_true_2 (kTextContent = kTextContent)) by done.
Qed.

(** [getPropertyNames] adds, after the names of the base class, the three
    names of [getTextNodePropertyNames], in its order.  These are exactly
    the keys of the map of [getTextNodePropertyMap], and so exactly the
    names that [getProperty] answers itself: for each of them its result
    does not depend on what the base class would answer, and every other
    name gets the answer of the base class. *)
Theorem listed_names_are_the_own_properties (accumulator : list JSStringRef)
    (this : TextNodeInstance) (name : string) (exception : option JSValueRef)
    (base base' : string → option JSValueRef → JSValueRef * option JSValueRef) :
  getPropertyNames accumulator
  = NodeInstance_getPropertyNames accumulator
    ++ (JSStringCreateWithUTF8CString <$> ["data"; "textContent"; "nodeName"])
  ∧ dom propertyMap = list_to_set text_node_property_names
  ∧ (if bool_decide (name ∈ text_node_property_names)
     then getProperty_over base this name exception
          = getProperty_over base' this name exception
     else getProperty_over base this name exception = returned (base name exception)).
Proof.
  split_and!.
  - unfold TextNodeInstance_getPropertyNames. by rewrite add_names.
  - apply set_eq. intros n. rewrite elem_of_dom, elem_of_list_to_set.
    apply textnode_facts.propertyMap_is_Some.
  - unfold TextNodeInstance_getProperty.
    rewrite textnode_facts.propertyMap_names.
    by case_bool_decide.
Qed.

(** ** [setProperty] *)

(** After [setProperty], [getProperty] of data and of textContent gives the
    string made from the copy of the value that was set, if the name set
    was data; one command is registered for it.  Setting any other name,
    textContent included, leaves the instance as it was and registers no
    command.  In both cases the base class's [setProperty] is the last
    thing called, with the same name and value, and the inherited members
    and the native node are untouched. *)
Theorem setProperty_then_getProperty (this : TextNode) (name : string)
    (value : JSValueRef) (exception e : option JSValueRef) (log : list Effect)
    (base : string → option JSValueRef → JSValueRef * option JSValueRef) :
  let after := setProperty this name value exception log in
  let this' := after.1.1 in
  let copy := JSValueToStringCopy (hostClass_ctx (own this)) value exception in
  inherited this' = inherited this
  ∧ nativeTextNode this' = nativeTextNode this
  ∧ hostClass_ctx (own this') = hostClass_ctx (own this)
  ∧ last after.2 = Some (eff_NodeInstance_setProperty name value)
  ∧ (name = "data" →
       TextNodeInstance_internalTextContent this' = copy.1
       ∧ getProperty_over base (own this') "data" e
         = returned (JSValueMakeString (hostClass_ctx (own this)) copy.1, e)
       ∧ getProperty_over base (own this') "textContent" e
         = returned (JSValueMakeString (hostClass_ctx (own this)) copy.1, e)
       ∧ after.1.2 = NodeInstance_setProperty name value copy.2
       ∧ commands after.2 = commands log ++ [UI_COMMAND_SET_PROPERTY])
  ∧ (name ≠ "data" →
       this' = this
       ∧ after.1.2 = NodeInstance_setProperty name value exception
       ∧ after.2 = log ++ [eff_NodeInstance_setProperty name value]).
Proof.
  intros after this' copy. subst after this' copy.
  unfold TextNodeInstance_setProperty, TextNodeInstance_internalTextContent.
  case_bool_decide as Hname.
  - destruct (JSValueToStringCopy _ value exception) as [copy exception'] eqn:Hcopy.
    cbn [fst snd set_data own data hostClass_ctx inherited nativeTextNode].
    rewrite !getProperty_from_data by eauto.
    cbn [data hostClass_ctx].
    split_and!; try done.
    + by rewrite last_snoc.
    + intros _. split_and!; try done.
      unfold commands. rewrite !omap_app. simpl.
      case_bool_decide; by rewrite ?omap_app, ?app_nil_r.
  - cbn [fst snd]. split_and!; try done. by rewrite last_snoc.
Qed.

(** ** Retained strings *)

Lemma retains_app (s : OpaqueJSString) (l1 l2 : list Effect) :
  retains s (l1 ++ l2) = retains s l1 + retains s l2.
Proof. unfold retains. by rewrite filter_app, length_app. Qed.

Lemma releases_app (s : OpaqueJSString) (l1 l2 : list Effect) :
  releases s (l1 ++ l2) = releases s l1 + releases s l2.
Proof. unfold releases. by rewrite filter_app, length_app. Qed.

Lemma retains_one (s : OpaqueJSString) (e : Effect) :
  retains s [e] = if is_retain_of s e then 1 else 0.
Proof.
  unfold retains. destruct (is_retain_of s e) eqn:He.
  - by rewrite filter_cons_True.
  - rewrite filter_cons_False; [done|]. by rewrite He.
Qed.

Lemma releases_one (s : OpaqueJSString) (e : Effect) :
  releases s [e] = if is_release_of s e then 1 else 0.
Proof.
  unfold releases. destruct (is_release_of s e) eqn:He.
  - by rewrite filter_cons_True.
  - rewrite filter_cons_False; [done|]. by rewrite He.
Qed.

(** How many retains of [s] the instance holds through [data]. *)
Local Abbreviation held s this :=
  (if bool_decide (data (own this) = Some s) then 1 else 0).

Lemma held_retain (s : OpaqueJSString) (d : JSStringRef) :
  (if is_retain_of (JSValueRef:=JSValueRef) (UICommandArgs:=UICommandArgs) s
        (eff_JSStringRetain d) then 1 else 0)
  = if bool_decide (d = Some s) then 1 else 0.
Proof.
  destruct d as [s'|]; simpl; [|done].
  repeat case_bool_decide; congruence.
Qed.

Lemma held_release (s : OpaqueJSString) (d : JSStringRef) :
  (if is_release_of (JSValueRef:=JSValueRef) (UICommandArgs:=UICommandArgs) s
        (eff_JSStringRelease d) then 1 else 0)
  = if bool_decide (d = Some s) then 1 else 0.
Proof.
  destruct d as [s'|]; simpl; [|done].
  repeat case_bool_decide; congruence.
Qed.

Lemma new_balance (base : NodeMembers) (ctx : JSContextRef) (at_ : positive)
    (d : JSStringRef) (log : list Effect) (s : OpaqueJSString) :
  retains s (new base ctx at_ d log).2
  = retains s log + held s (new base ctx at_ d log).1
  ∧ releases s (new base ctx at_ d log).2 = releases s log.
Proof.
  unfold TextNodeInstance_new. cbv zeta. cbn [fst snd own data].
  rewrite !retains_app, !releases_app, !retains_one, !releases_one, held_retain.
  cbn [is_retain_of is_release_of]. lia.
Qed.

Lemma setProperty_balance (this : TextNode) (name : string) (value : JSValueRef)
    (exception : option JSValueRef) (log : list Effect) (s : OpaqueJSString) :
  retains s log = releases s log + held s this →
  retains s (setProperty this name value exception log).2
  = releases s (setProperty this name value exception log).2
    + held s (setProperty this name value exception log).1.1.
Proof.
  intros Hinv. unfold TextNodeInstance_setProperty.
  destruct (decide (name = "data")) as [Hname|Hname].
  - rewrite (bool_decide_eq_true_2 _ Hname).
    destruct (JSValueToStringCopy _ value exception) as [copy exception'].
    cbn [fst snd set_data own data].
    rewrite !retains_app, !releases_app, !retains_one, !releases_one, held_retain.
    cbn [is_retain_of is_release_of].
    destruct (decide (data (own this) = None)) as [Hdata|Hdata].
    + rewrite bool_decide_eq_false_2 by (by intros []).
      rewrite Hdata in Hinv. rewrite bool_decide_eq_false_2 in Hinv by done. lia.
    + rewrite bool_decide_eq_true_2 by done.
      rewrite retains_app, releases_app, retains_one, releases_one, held_release.
      cbn [is_retain_of]. lia.
  - rewrite (bool_decide_eq_false_2 _ Hname). cbn [fst snd].
    rewrite !retains_app, !releases_app, !retains_one, !releases_one.
    cbn [is_retain_of is_release_of]. lia.
Qed.

Lemma set_properties_balance (calls : list (string * JSValueRef))
    (start : TextNode * option JSValueRef * list Effect) (s : OpaqueJSString) :
  retains s start.2 = releases s start.2 + held s start.1.1 →
  retains s (set_properties calls start).2
  = releases s (set_properties calls start).2 + held s (set_properties calls start).1.1.
Proof.
  revert start. induction calls as [|[name value] calls IH]; intros start Hinv; [done|].
  unfold textnode_more.set_properties. cbn [foldl].
  apply IH. destruct start as [[this exception] log]. by apply setProperty_balance.
Qed.

Lemma dtor_balance (this : TextNode) (log : list Effect) (s : OpaqueJSString) :
  retains s log = releases s log + held s this →
  retains s (TextNodeInstance_dtor this log) = releases s (TextNodeInstance_dtor this log).
Proof.
  intros Hinv. unfold TextNodeInstance_dtor. cbv zeta.
  destruct (decide (data (own this) = None)) as [Hdata|Hdata].
  - rewrite bool_decide_eq_false_2 by (by intros []).
    rewrite Hdata in Hinv. rewrite bool_decide_eq_false_2 in Hinv by done.
    rewrite !retains_app, !releases_app, !retains_one, !releases_one.
    cbn [is_retain_of is_release_of]. lia.
  - rewrite bool_decide_eq_true_2 by done.
    rewrite !retains_app, !releases_app, !retains_one, !releases_one, held_release.
    cbn [is_retain_of is_release_of]. lia.
Qed.

(** Over the life of an instance (construction, any sequence of
    [setProperty] calls, destruction) every string object is released by
    the instance exactly as often as the instance retained it.  While the
    instance is alive, the retains exceed the releases by one for the
    string [data] points to, and by none for any other. *)
Theorem retains_balance_releases (base : NodeMembers) (ctx : JSContextRef)
    (at_ : positive) (d : JSStringRef) (calls : list (string * JSValueRef))
    (s : OpaqueJSString) :
  let alive := set_properties calls ((new base ctx at_ d []).1, None, (new base ctx at_ d []).2) in
  retains s alive.2 = releases s alive.2 + held s alive.1.1
  ∧ retains s (lifetime base ctx at_ d calls) = releases s (lifetime base ctx at_ d calls).
Proof.
  intros alive.
  assert (retains s alive.2 = releases s alive.2 + held s alive.1.1) as Halive.
  { apply set_properties_balance. cbn [fst snd].
    destruct (new_balance base ctx at_ d [] s) as [-> ->]. done. }
  split; [done|].
  unfold textnode_more.lifetime.
  destruct (new base ctx at_ d []) as [this log] eqn:Hnew.
  cbn [fst snd] in alive. subst alive.
  destruct (set_properties calls (this, None, log)) as [[this' exception'] log'].
  by apply dtor_balance.
Qed.

(** ** [instanceConstructor] *)

(** [instanceConstructor] reads [arguments[0]] without looking at
    [argumentCount]: called with no argument it has no defined result.
    With at least one argument it returns: the further arguments change
    nothing, the new instance holds the copy of the first argument as its
    data, which is what [getProperty] of data then shows, the copy is
    retained once and not released, and one command is registered. *)
Theorem instanceConstructor_reads_first_argument (base : NodeMembers)
    (hostCtx : JSContextRef) (at_ : positive) (ctx : JSContextRef)
    (arguments : list JSValueRef) (exception e : option JSValueRef) (log : list Effect)
    (below : string → option JSValueRef → JSValueRef * option JSValueRef) :
  match arguments with
  | [] => instanceConstructor base hostCtx at_ ctx arguments exception log = Undef
  | dataValueRef :: rest =>
      let copy := JSValueToStringCopy ctx dataValueRef exception in
      ∃ textNode log',
        instanceConstructor base hostCtx at_ ctx arguments exception log
        = Return (object base, textNode, copy.2, log')
        ∧ instanceConstructor base hostCtx at_ ctx [dataValueRef] exception log
          = instanceConstructor base hostCtx at_ ctx arguments exception log
        ∧ TextNodeInstance_internalTextContent textNode = copy.1
        ∧ getProperty_over below (own textNode) "data" e
          = returned (JSValueMakeString hostCtx copy.1, e)
        ∧ commands log' = commands log ++ [UI_COMMAND_CREATE_TEXT_NODE]
        ∧ ∀ s, retains s log'
               = retains s log + (if bool_decide (copy.1 = Some s) then 1 else 0)
               ∧ releases s log' = releases s log
  end.
Proof.
  destruct arguments as [|dataValueRef rest]; [done|].
  intros copy. subst copy.
  unfold JSTextNode_instanceConstructor. cbn [lookup list_lookup].
  destruct (JSValueToStringCopy ctx dataValueRef exception) as [copy exception'].
  pose proof (new_balance base hostCtx at_ copy log) as Hbalance.
  destruct (new base hostCtx at_ copy log) as [textNode log'] eqn:Hnew.
  unfold TextNodeInstance_new in Hnew. injection Hnew as <- <-.
  eexists _, _. cbn [fst snd inherited own data] in *.
  split_and!; try done.
  - by rewrite getProperty_from_data by eauto.
  - unfold commands. rewrite !omap_app. simpl. by rewrite !app_nil_r.
Qed.
End TextNodeInstance_facts.

(** ** [bindTextNode] *)

Section bindTextNode_facts.
Context (allocate : gset positive → positive).
(** [operator new] never returns the address of a live object. *)
Hypothesis allocate_fresh : ∀ X, allocate X ∉ X.

Local Abbreviation step := (step allocate).
Local Abbreviation bind_all := (bind_all allocate).

Lemma bind_all_cons (c : JSContextPtr) (contexts : list JSContextPtr) (s : Process)
    (g : list GlobalSet) :
  bind_all (c :: contexts) (s, g)
  = bind_all contexts
      ((instance allocate c s).2, g ++ [mkGlobalSet c "TextNode" (instance allocate c s).1]).
Proof.
  unfold textnode_more.bind_all. cbn [foldl]. f_equal.
  unfold bindTextNode. cbn [fst snd]. by destruct (instance allocate c s).
Qed.

Lemma bind_all_spec (contexts : list JSContextPtr) (s : Process) (g : list GlobalSet) :
  ∃ news,
    (bind_all contexts (s, g)).2 = g ++ news
    ∧ on_context <$> news = contexts
    ∧ rtc step s (bind_all contexts (s, g)).1
    ∧ Forall (λ set, property_name set = "TextNode"
                     ∧ instanceMap (bind_all contexts (s, g)).1 !! on_context set
                       = Some (from set)) news.
Proof.
  revert s g. induction contexts as [|c contexts IH]; intros s g.
  - exists []. simpl. by rewrite app_nil_r.
  - rewrite bind_all_cons.
    set (first := mkGlobalSet c "TextNode" (instance allocate c s).1).
    destruct (IH (instance allocate c s).2 (g ++ [first]))
      as (news & Hg & Hcs & Hsteps & Hnews).
    exists (first :: news). split_and!.
    + by rewrite Hg, <- app_assoc.
    + rewrite fmap_cons. by rewrite Hcs.
    + eapply rtc_l; [|exact Hsteps]. constructor.
    + constructor; [|done]. split; [done|]. simpl.
      eapply textnode_facts.steps_keep_entry; [exact Hsteps|].
      apply textnode_facts.instance_recorded.
Qed.

(** With an allocator that never hands out the address of a live object,
    and from any state the process can be in: binding a list of contexts
    sets the global TextNode once per context of the list, in order, each
    time from the instance the map then holds for that context, a
    non-null one; two of these globals come from the same instance exactly
    when they are for the same context. *)
Theorem bindTextNode_one_class_per_context (contexts : list JSContextPtr)
    (s : Process) (g : list GlobalSet) :
  rtc step start s →
  ∃ news,
    (bind_all contexts (s, g)).2 = g ++ news
    ∧ on_context <$> news = contexts
    ∧ Forall (λ set, property_name set = "TextNode"
                     ∧ is_Some (from set)
                     ∧ instanceMap (bind_all contexts (s, g)).1 !! on_context set
                       = Some (from set)) news
    ∧ ∀ set1 set2, set1 ∈ news → set2 ∈ news →
        (from set1 = from set2 ↔ on_context set1 = on_context set2).
Proof.
  intros Hs.
  destruct (bind_all_spec contexts s g) as (news & Hg & Hcs & Hsteps & Hnews).
  assert (instances_distinct (bind_all contexts (s, g)).1) as [Hlive Hinj].
  { eapply textnode_facts.steps_distinct; [exact allocate_fresh|exact Hsteps|].
    eapply textnode_facts.steps_distinct; [exact allocate_fresh|exact Hs|].
    apply textnode_facts.start_distinct. }
  exists news. split_and!; try done.
  - eapply Forall_impl; [exact Hnews|]. intros set [Hname Hset].
    split_and!; try done.
    destruct (Hlive _ _ Hset) as (p & -> & _). by eexists.
  - rewrite Forall_forall in Hnews.
    intros set1 set2 [_ H1]%Hnews [_ H2]%Hnews. split.
    + intros Heq. rewrite <- Heq in H2. by eapply Hinj.
    + intros Heq. rewrite Heq in H1. congruence.
Qed.
End bindTextNode_facts.

(** Two contexts, at addresses 1 and 2, bound in the order 1, 2, 1, with
    the allocator that hands out the least address that is not live. *)
Lemma bindTextNode_one_class_per_context_witness :
  ∃ news,
    (textnode_more.bind_all fresh [Some 1%positive; Some 2%positive; Some 1%positive]
       (start, [])).2 = [] ++ news
    ∧ from <$> news = [Some 1%positive; Some 2%positive; Some 1%positive].
Proof.
  destruct (bindTextNode_one_class_per_context fresh is_fresh
              [Some 1%positive; Some 2%positive; Some 1%positive] start [])
    as (news & Hg & _).
  - apply rtc_refl.
  - exists news. split; [exact Hg|].
    vm_compute in Hg. subst news. reflexivity.
Defined.

End textnode_more_facts.
